(** * Othello rules engine and alpha-beta search: a shallow embedding

    The development follows the Python sources:
    - [Config]  : config.py  (board size, cell values, directions, weights)
    - [Game]    : game.py    (class OthelloGame)
    - [AI]      : ai.py      (evaluate_board, _parallel_worker, class OthelloAI)
    - [Utils]   : utils.py   (clamp, format_seconds)
    - [Gui]     : gui.py     (the game logic of class OthelloGUI)

    Cell values and colours are Python integers, modelled as [Z].  A board
    is a list of rows, each a list of cells.  Every board read in the
    sources is guarded by [is_valid_position] (or uses constant in-range
    indices), so on an 8x8 board ([wf_board]) no read is out of range and
    reads are modelled by the total function [cell].  The unguarded
    write of [apply_move] is modelled with Python's indexing rules
    (negative indices wrap, others raise IndexError).  The unguarded
    writes of [undo_last_move] go to the positions of a history entry;
    [make_move] only records positions on the board, and on those the
    writes are the guarded [set_cell] that models them.  For an entry off
    the board, which only a caller that edits the history can produce, the
    source raises IndexError or wraps around, and the model does not follow
    it: statements about [undo_last_move] on an arbitrary history assume
    [history_on_board].

    Search depths are natural numbers, and [depth - 1] at the root is the
    predecessor.  [get_move] calls the root searches with depths 1 to
    [DMAX] only; at depth 0 the source would pass -1 down, never meet its
    test [d == 0] and search to the end of the game, which the model does
    not follow: statements about the exact value of a root search
    assume a depth of at least 1.

    The [while] loops that walk a direction are bounded by a fuel of
    [BOARD_SIZE] iterations; the lemmas [collect_stops] and [scan_stops]
    show that the loops have stopped by themselves within that bound.

    Wall-clock time is an oracle: [time.time()] returns the next value of
    an arbitrary sequence of readings, one sequence for the main process
    and one per worker process.  The processor count and the failure of the
    process pool are oracles as well.  Scores are integers; the bounds
    [-math.inf] and [math.inf] extend them ([ext]). *)

From stdpp Require Import base option list sorting.
From Stdlib Require Import ZArith Lia Bool.
From Stdlib Require String DecimalString.
Import Stdlib.Strings.String.StringSyntax.

Local Open Scope Z_scope.

(** ** config.py *)
Module Config.

Definition BOARD_SIZE : Z := 8.

Definition EMPTY : Z := 0.
Definition BLACK : Z := 1.
Definition WHITE : Z := -1.

Definition TIME_LIMIT : Z := 30.
Definition DMAX : nat := 9.

Definition DIRECTIONS : list (Z * Z) :=
  [ (-1, -1); (-1, 0); (-1, 1);
    (0, -1);           (0, 1);
    (1, -1);  (1, 0);  (1, 1) ].

(** WEIGHTS, a dictionary with five fixed keys, as a record. *)
Record weights := { material : Z; mobility : Z; corner : Z; edge : Z; stability : Z }.

Definition WEIGHTS : weights :=
  {| material := 10; mobility := 7; corner := 40; edge := 3; stability := 4 |}.

End Config.

Export Config.

(** ** Python lists *)

Abbreviation pos := (Z * Z)%type.
Abbreviation board := (list (list Z)).

(** [range(n)] for a non-negative constant [n]. *)
Definition range (n : Z) : list Z := map Z.of_nat (seq 0 (Z.to_nat n)).

(** Python index normalisation: [l[i]] addresses [i] when [0 <= i < len],
    [i + len] when [-len <= i < 0], and raises IndexError otherwise. *)
Definition py_index (len : nat) (i : Z) : option nat :=
  if (0 <=? i) && (i <? Z.of_nat len) then Some (Z.to_nat i)
  else if (- Z.of_nat len <=? i) && (i <? 0) then Some (Z.to_nat (i + Z.of_nat len))
  else None.

(** [b[r][c] = v] with Python's indexing; [None] is IndexError. *)
Definition setitem2 (b : board) (r c v : Z) : option board :=
  i ← py_index (length b) r;
  row ← b !! i;
  j ← py_index (length row) c;
  Some (<[i := <[j := v]> row]> b).

(** [b[r][c]] at a position that passed [is_valid_position]. *)
Definition cell (b : board) (r c : Z) : Z :=
  match b !! Z.to_nat r with
  | Some row => default EMPTY (row !! Z.to_nat c)
  | None => EMPTY
  end.

(** [b[r][c] = v] at a position that passed [is_valid_position]. *)
Definition set_cell (b : board) (r c v : Z) : board :=
  alter (fun row => <[Z.to_nat c := v]> row) (Z.to_nat r) b.

(** [row.count(v)] *)
Fixpoint count (v : Z) (row : list Z) : Z :=
  match row with
  | [] => 0
  | x :: row' => (if x =? v then 1 else 0) + count v row'
  end.

(** [sum(...)] over a list of integers. *)
Definition sum (l : list Z) : Z := foldr Z.add 0 l.

(** A board as the constructor builds it: [BOARD_SIZE] rows of [BOARD_SIZE] cells. *)
Definition wf_board (b : board) : Prop :=
  length b = Z.to_nat BOARD_SIZE ∧ Forall (fun row => length row = Z.to_nat BOARD_SIZE) b.

(** ** game.py *)
Module Game.

(** One undo record: the dictionary with keys 'move', 'color', 'flipped'. *)
Record entry := { e_move : option pos; e_color : Z; e_flipped : list pos }.

(** The fields of an OthelloGame object. *)
Record game := { gboard : board; history : list entry }.

Definition empty_board : board :=
  replicate (Z.to_nat BOARD_SIZE) (replicate (Z.to_nat BOARD_SIZE) EMPTY).

(** [OthelloGame.__init__] *)
Definition init : game :=
  let b := empty_board in
  let b := set_cell b 3 3 BLACK in
  let b := set_cell b 3 4 WHITE in
  let b := set_cell b 4 3 WHITE in
  let b := set_cell b 4 4 BLACK in
  {| gboard := b; history := [] |}.

Definition is_valid_position (row col : Z) : bool :=
  (0 <=? row) && (row <? BOARD_SIZE) && (0 <=? col) && (col <? BOARD_SIZE).

Definition get_opponent (color : Z) : Z :=
  if color =? BLACK then WHITE else BLACK.

(** The loop
      [while is_valid_position(r, c) and board[r][c] == opponent:
           found_opponent = True; r += dr; c += dc]
    started with [found_opponent = found]; the result is the final
    [(found_opponent, (r, c))].  The loop leaves the board after at most
    [BOARD_SIZE] iterations (lemma [scan_stops]), which bounds the fuel. *)
Fixpoint scan (fuel : nat) (b : board) (opponent : Z) (dr dc : Z)
    (found : bool) (r c : Z) : bool * pos :=
  match fuel with
  | O => (found, (r, c))
  | S fuel' =>
      if is_valid_position r c && (cell b r c =? opponent)
      then scan fuel' b opponent dr dc true (r + dr) (c + dc)
      else (found, (r, c))
  end.

(** The loop
      [while is_valid_position(r, c) and board[r][c] == opponent:
           temp_flipped.append((r, c)); r += dr; c += dc]
    returning [(temp_flipped, (r, c))]. *)
Fixpoint collect (fuel : nat) (b : board) (opponent : Z) (dr dc : Z)
    (r c : Z) : list pos * pos :=
  match fuel with
  | O => ([], (r, c))
  | S fuel' =>
      if is_valid_position r c && (cell b r c =? opponent)
      then let '(l, e) := collect fuel' b opponent dr dc (r + dr) (c + dc) in
           ((r, c) :: l, e)
      else ([], (r, c))
  end.

Definition FUEL : nat := Z.to_nat BOARD_SIZE.

(** The body of the loop over DIRECTIONS shared by [is_valid_move] and
    [get_legal_moves]: does direction [(dr, dc)] qualify? *)
Definition outflanks (b : board) (color : Z) (row col : Z) (d : pos) : bool :=
  let opponent := get_opponent color in
  let '(dr, dc) := d in
  let '(found_opponent, (r, c)) :=
    scan FUEL b opponent dr dc false (row + dr) (col + dc) in
  found_opponent && is_valid_position r c && (cell b r c =? color).

(** [OthelloGame.is_valid_move], on the board [b] of the game. *)
Definition is_valid_move (b : board) (row col color : Z) : bool :=
  if negb (is_valid_position row col) then false
  else if negb (cell b row col =? EMPTY) then false
  else existsb (outflanks b color row col) DIRECTIONS.

(** [OthelloGame.legal_moves] *)
Definition legal_moves (b : board) (color : Z) : list pos :=
  flat_map (fun i =>
    flat_map (fun j =>
      if is_valid_move b i j color then [(i, j)] else [])
      (range BOARD_SIZE))
    (range BOARD_SIZE).

(** [OthelloGame.get_legal_moves] *)
Definition get_legal_moves (b : board) (color : Z) : list pos :=
  flat_map (fun i =>
    flat_map (fun j =>
      if negb (cell b i j =? EMPTY) then []
      else if existsb (outflanks b color i j) DIRECTIONS then [(i, j)] else [])
      (range BOARD_SIZE))
    (range BOARD_SIZE).

(** The discs one direction contributes in [flip_discs] and [apply_move]. *)
Definition flips_dir (b : board) (color : Z) (row col : Z) (d : pos) : list pos :=
  let opponent := get_opponent color in
  let '(dr, dc) := d in
  let '(temp_flipped, (r, c)) :=
    collect FUEL b opponent dr dc (row + dr) (col + dc) in
  if negb (bool_decide (temp_flipped = [])) && is_valid_position r c
     && (cell b r c =? color)
  then temp_flipped else [].

(** [OthelloGame.flip_discs] *)
Definition flip_discs (b : board) (row col color : Z) : list pos :=
  if negb (is_valid_move b row col color) then []
  else flat_map (flips_dir b color row col) DIRECTIONS.

(** [for r, c in flipped: board[r][c] = v] *)
Definition set_cells (b : board) (ps : list pos) (v : Z) : board :=
  foldl (fun b' p => set_cell b' p.1 p.2 v) b ps.

(** [OthelloGame.make_move]: the returned flag and the object afterwards. *)
Definition make_move (mv : option pos) (color : Z) (g : game) : bool * game :=
  match mv with
  | None =>
      (true, {| gboard := gboard g;
                history := history g ++
                  [{| e_move := None; e_color := color; e_flipped := [] |}] |})
  | Some (row, col) =>
      if negb (is_valid_move (gboard g) row col color) then (false, g)
      else
        let flipped := flip_discs (gboard g) row col color in
        let h := history g ++
                  [{| e_move := mv; e_color := color; e_flipped := flipped |}] in
        let b := set_cell (gboard g) row col color in
        let b := set_cells b flipped color in
        (true, {| gboard := b; history := h |})
  end.

(** [OthelloGame.apply_move]: [None] when the placement raises IndexError. *)
Definition apply_move (b : board) (mv : option pos) (color : Z) : option board :=
  match mv with
  | None => Some b
  | Some (row, col) =>
      let opponent := get_opponent color in
      new_board ← setitem2 b row col color;
      Some (foldl (fun nb d => set_cells nb (flips_dir nb color row col d) color)
                  new_board DIRECTIONS)
  end.

(** [OthelloGame.undo_last_move], for a last entry whose positions are on
    the board, as all entries written by [make_move] are. *)
Definition undo_last_move (g : game) : bool * game :=
  match last (history g) with
  | None => (false, g)
  | Some l =>
      let h := removelast (history g) in
      match e_move l with
      | None => (true, {| gboard := gboard g; history := h |})
      | Some (row, col) =>
          let opponent := get_opponent (e_color l) in
          let b := set_cell (gboard g) row col EMPTY in
          let b := set_cells b (e_flipped l) opponent in
          (true, {| gboard := b; history := h |})
      end
  end.

(** [OthelloGame.count_discs] *)
Definition count_discs (b : board) : Z * Z :=
  (sum (map (count BLACK) b), sum (map (count WHITE) b)).

(** [OthelloGame.is_game_over] *)
Definition is_game_over (b : board) : bool :=
  bool_decide (legal_moves b BLACK = []) && bool_decide (legal_moves b WHITE = []).

(** [OthelloGame.get_winner] *)
Definition get_winner (b : board) : Z :=
  let '(black, white) := count_discs b in
  if black >? white then BLACK
  else if white >? black then WHITE
  else EMPTY.

End Game.

Import Game.

(** ** ai.py *)
Module AI.

(** Scores are Python integers; the search bounds start at [-math.inf] and
    [math.inf]. *)
Inductive ext := NegInf | Fin (z : Z) | PosInf.

Definition ext_lt (a b : ext) : bool :=
  match a, b with
  | NegInf, NegInf => false
  | NegInf, _ => true
  | Fin x, Fin y => x <? y
  | Fin _, PosInf => true
  | Fin _, NegInf => false
  | PosInf, _ => false
  end.

Definition ext_le (a b : ext) : bool := negb (ext_lt b a).

(** Python's [max(a, b)] and [min(a, b)]: [a] unless [b] is strictly better. *)
Definition ext_max (a b : ext) : ext := if ext_lt a b then b else a.
Definition ext_min (a b : ext) : ext := if ext_lt b a then b else a.

(** [range(lo, hi)] *)
Definition range2 (lo hi : Z) : list Z :=
  map (fun k => lo + Z.of_nat k) (seq 0 (Z.to_nat (hi - lo))).

Definition corners_idx : list pos := [(0, 0); (0, 7); (7, 0); (7, 7)].

(** The body of both edge loops: one cell updates [(my_edges, opp_edges)]. *)
Definition edge_step (b : board) (color : Z) (acc : Z * Z) (p : pos) : Z * Z :=
  let '(my_edges, opp_edges) := acc in
  if cell b p.1 p.2 =? color then (my_edges + 1, opp_edges)
  else if cell b p.1 p.2 =? - color then (my_edges, opp_edges + 1)
  else acc.

(** The body of the stability loop for one corner. *)
Definition stability_step (b : board) (color : Z) (stability : Z) (corner : pos) : Z :=
  let '(ci, cj) := corner in
  if cell b ci cj =? color then
    foldl (fun st di =>
      foldl (fun st dj =>
        if (di =? 0) && (dj =? 0) then st
        else
          let ni := ci + di in
          let nj := cj + dj in
          if (0 <=? ni) && (ni <? 8) && (0 <=? nj) && (nj <? 8)
             && (cell b ni nj =? color)
          then st + 1 else st)
        st (range2 (-1) 2))
      (stability + 1) (range2 (-1) 2)
  else stability.

(** [evaluate_board(board, color, game)] *)
Definition evaluate_board (b : board) (color : Z) : Z :=
  let black_count := sum (map (count BLACK) b) in
  let white_count := sum (map (count WHITE) b) in
  let material :=
    if color =? BLACK then black_count - white_count
    else white_count - black_count in
  let my_moves := Z.of_nat (length (get_legal_moves b color)) in
  let opp_moves := Z.of_nat (length (get_legal_moves b (- color))) in
  let mobility :=
    if negb (my_moves + opp_moves =? 0) then my_moves - opp_moves else 0 in
  let my_corners :=
    sum (flat_map (fun '(i, j) => if cell b i j =? color then [1] else [])
           corners_idx) in
  let opp_corners :=
    sum (flat_map (fun '(i, j) => if cell b i j =? - color then [1] else [])
           corners_idx) in
  let corners := my_corners - opp_corners in
  let acc :=
    foldl (edge_step b color) (0, 0)
      (flat_map (fun i => map (fun j => (i, j)) (range 8)) [0; 7]) in
  let '(my_edges, opp_edges) :=
    foldl (edge_step b color) acc
      (flat_map (fun j => map (fun i => (i, j)) (range2 1 7)) [0; 7]) in
  let edges := my_edges - opp_edges in
  let stability := foldl (stability_step b color) 0 corners_idx in
  Config.material WEIGHTS * material
  + Config.mobility WEIGHTS * mobility
  + Config.corner WEIGHTS * corners
  + Config.edge WEIGHTS * edges
  + Config.stability WEIGHTS * stability.

(** Python's [max(results, key=lambda x: x[1])]: the first element whose
    key is maximal; [None] stands for the ValueError on an empty list. *)
Definition py_max_key (results : list (pos * ext)) : option (pos * ext) :=
  match results with
  | [] => None
  | x :: rest =>
      Some (foldl (fun best y => if ext_lt best.2 y.2 then y else best) x rest)
  end.

(** *** The worker process *)

(** A worker reads its own wall clock; its state is the number of readings
    taken so far.  [None] is an exception escaping the worker. *)
Definition W (A : Type) : Type := nat → option (A * nat).

Section Worker.

Variable wclock : nat → Z.
Variable color : Z.
Variable start_time : option Z.
Variable time_limit : Z.

(** [time_exceeded()] of the worker: [time.time() - start_time] raises
    TypeError when [start_time] is [None]. *)
Definition w_time_exceeded : W bool := fun k =>
  match start_time with
  | None => None
  | Some t0 => Some (wclock k - t0 >=? time_limit, S k)
  end.

(** The maximizing loop of the nested function [alphabeta]. *)
Fixpoint w_max_loop (rec : board → ext → ext → W ext) (b : board)
    (node_color : Z) (beta : ext) (moves : list pos) (value alpha : ext) : W ext :=
  fun k =>
  match moves with
  | [] => Some (value, k)
  | m :: rest =>
      child_board ← apply_move b (Some m) node_color;
      '(eval_val, k) ← rec child_board alpha beta k;
      let value := ext_max value eval_val in
      let alpha := ext_max alpha eval_val in
      if ext_le beta alpha then Some (value, k)
      else w_max_loop rec b node_color beta rest value alpha k
  end.

(** The minimizing loop of the nested function [alphabeta]. *)
Fixpoint w_min_loop (rec : board → ext → ext → W ext) (b : board)
    (node_color : Z) (alpha : ext) (moves : list pos) (value beta : ext) : W ext :=
  fun k =>
  match moves with
  | [] => Some (value, k)
  | m :: rest =>
      child_board ← apply_move b (Some m) node_color;
      '(eval_val, k) ← rec child_board alpha beta k;
      let value := ext_min value eval_val in
      let beta := ext_min beta eval_val in
      if ext_le beta alpha then Some (value, k)
      else w_min_loop rec b node_color alpha rest value beta k
  end.

(** The nested function [alphabeta] of [_parallel_worker]. *)
Fixpoint w_alphabeta (d : nat) (local_board : board) (alpha beta : ext)
    (maximizing : bool) : W ext :=
  fun k =>
  let node_color := if maximizing then color else - color in
  let legal_moves := get_legal_moves local_board node_color in
  match d with
  | O => Some (Fin (evaluate_board local_board color), k)
  | S d' =>
      if bool_decide (legal_moves = [])
      then Some (Fin (evaluate_board local_board color), k)
      else
        '(te, k) ← w_time_exceeded k;
        if te : bool then Some (Fin (evaluate_board local_board color), k)
        else if maximizing
        then w_max_loop (fun cb a bt => w_alphabeta d' cb a bt false)
               local_board node_color beta legal_moves NegInf alpha k
        else w_min_loop (fun cb a bt => w_alphabeta d' cb a bt true)
               local_board node_color alpha legal_moves PosInf beta k
  end.

(** [_parallel_worker(args)], for the task of root move [move] at depth
    [depth], which is at least 1 at the one call site; the worker starts
    with no clock reading taken. *)
Definition _parallel_worker (b : board) (move : pos) (depth : nat)
  : option (pos * ext) :=
  new_board ← apply_move b (Some move) color;
  '(score, _) ← w_alphabeta (Nat.pred depth) new_board NegInf PosInf false 0%nat;
  Some (move, score).

End Worker.

(** *** class OthelloAI *)

(** The mutable fields of an OthelloAI object.  [ticks] counts the readings
    of [time.time()] taken so far by the main process. *)
Record ai := {
  start_time : option Z;
  best_move : option pos;
  nodes_evaluated : Z;
  ticks : nat
}.

(** [OthelloAI.__init__] *)
Definition new_ai : ai :=
  {| start_time := None; best_move := None; nodes_evaluated := 0; ticks := 0 |}.

(** Methods run in a state monad over the object's fields; [None] is an
    uncaught exception. *)
Definition M (A : Type) : Type := ai → option (A * ai).

Definition ret {A} (a : A) : M A := fun s => Some (a, s).

Definition bind {A B} (m : M A) (f : A → M B) : M B := fun s =>
  match m s with
  | Some (a, s') => f a s'
  | None => None
  end.

Definition lift {A} (o : option A) : M A := fun s =>
  match o with
  | Some a => Some (a, s)
  | None => None
  end.

Notation "'let*' x ':=' m 'in' k" := (bind m (fun x => k))
  (at level 10, x pattern, m at level 100, k at level 200).

Definition set_best_move (mv : option pos) : M unit := fun s =>
  Some (tt, {| start_time := start_time s; best_move := mv;
               nodes_evaluated := nodes_evaluated s; ticks := ticks s |}).

Definition incr_nodes : M unit := fun s =>
  Some (tt, {| start_time := start_time s; best_move := best_move s;
               nodes_evaluated := nodes_evaluated s + 1; ticks := ticks s |}).

Section OthelloAI.

(** The wall clock of the main process: [clock k] is the value of the
    [k]-th call of [time.time()]. *)
Variable clock : nat → Z.

(** [multiprocessing.cpu_count()] *)
Variable cpu_count : nat.

(** Whether creating or running the pool raises, per call of
    [_root_search_parallel] (identified by the clock readings taken so far). *)
Variable pool_raises : nat → bool.

(** The wall clocks of the worker processes, per call and per task. *)
Variable worker_clock : nat → nat → nat → Z.

(** [self.color] and [self.game.board]; the search never assigns them. *)
Variable self_color : Z.
Variable self_board : board.

(** [OthelloAI.time_exceeded] *)
Definition time_exceeded : M bool := fun s =>
  match start_time s with
  | None => Some (false, s)
  | Some t0 =>
      Some (clock (ticks s) - t0 >=? TIME_LIMIT,
            {| start_time := start_time s; best_move := best_move s;
               nodes_evaluated := nodes_evaluated s; ticks := S (ticks s) |})
  end.

(** [OthelloAI.evaluate] *)
Definition evaluate (b : board) : Z :=
  let black_count := sum (map (count BLACK) b) in
  let white_count := sum (map (count WHITE) b) in
  let material :=
    if self_color =? BLACK then black_count - white_count
    else white_count - black_count in
  let my_moves := Z.of_nat (length (get_legal_moves b self_color)) in
  let opp_moves := Z.of_nat (length (get_legal_moves b (- self_color))) in
  let mobility :=
    if negb (my_moves + opp_moves =? 0) then my_moves - opp_moves else 0 in
  let my_corners :=
    sum (flat_map (fun '(i, j) => if cell b i j =? self_color then [1] else [])
           corners_idx) in
  let opp_corners :=
    sum (flat_map (fun '(i, j) => if cell b i j =? - self_color then [1] else [])
           corners_idx) in
  let corners := my_corners - opp_corners in
  let acc :=
    foldl (edge_step b self_color) (0, 0)
      (flat_map (fun i => map (fun j => (i, j)) (range 8)) [0; 7]) in
  let '(my_edges, opp_edges) :=
    foldl (edge_step b self_color) acc
      (flat_map (fun j => map (fun i => (i, j)) (range2 1 7)) [0; 7]) in
  let edges := my_edges - opp_edges in
  let stability := foldl (stability_step b self_color) 0 corners_idx in
  Config.material WEIGHTS * material
  + Config.mobility WEIGHTS * mobility
  + Config.corner WEIGHTS * corners
  + Config.edge WEIGHTS * edges
  + Config.stability WEIGHTS * stability.

(** The maximizing loop of [alphabeta_search]. *)
Fixpoint max_loop (rec : board → ext → ext → M (option pos * ext)) (b : board)
    (color : Z) (beta : ext) (moves : list pos)
    (best : option pos) (max_eval alpha : ext) : M (option pos * ext) :=
  match moves with
  | [] => ret (best, max_eval)
  | move :: rest =>
      let* te := time_exceeded in
      if te : bool then ret (best, max_eval)
      else
        let* new_board := lift (apply_move b (Some move) color) in
        let* (_, eval_val) := rec new_board alpha beta in
        let '(max_eval, best) :=
          if ext_lt max_eval eval_val || bool_decide (best = None)
          then (eval_val, Some move) else (max_eval, best) in
        let alpha := ext_max alpha eval_val in
        if ext_le beta alpha then ret (best, max_eval)
        else max_loop rec b color beta rest best max_eval alpha
  end.

(** The minimizing loop of [alphabeta_search]. *)
Fixpoint min_loop (rec : board → ext → ext → M (option pos * ext)) (b : board)
    (color : Z) (alpha : ext) (moves : list pos)
    (best : option pos) (min_eval beta : ext) : M (option pos * ext) :=
  match moves with
  | [] => ret (best, min_eval)
  | move :: rest =>
      let* te := time_exceeded in
      if te : bool then ret (best, min_eval)
      else
        let* new_board := lift (apply_move b (Some move) color) in
        let* (_, eval_val) := rec new_board alpha beta in
        let '(min_eval, best) :=
          if ext_lt eval_val min_eval || bool_decide (best = None)
          then (eval_val, Some move) else (min_eval, best) in
        let beta := ext_min beta eval_val in
        if ext_le beta alpha then ret (best, min_eval)
        else min_loop rec b color alpha rest best min_eval beta
  end.

(** [OthelloAI.alphabeta_search] *)
Fixpoint alphabeta_search (depth : nat) (b : board) (alpha beta : ext)
    (maximizing_player : bool) : M (option pos * ext) :=
  let* _ := incr_nodes in
  let color := if maximizing_player then self_color else - self_color in
  let legal_moves := get_legal_moves b color in
  match depth with
  | O => ret (None, Fin (evaluate b))
  | S depth' =>
      if bool_decide (legal_moves = []) then ret (None, Fin (evaluate b))
      else
        let* te := time_exceeded in
        if te : bool then ret (None, Fin (evaluate b))
        else if maximizing_player
        then max_loop (fun nb a bt => alphabeta_search depth' nb a bt false)
               b color beta legal_moves None NegInf alpha
        else min_loop (fun nb a bt => alphabeta_search depth' nb a bt true)
               b color alpha legal_moves None PosInf beta
  end.

(** The loop of [_root_search_sequential], for a depth of at least 1. *)
Fixpoint root_loop (b : board) (depth : nat) (moves : list pos)
    (best : option pos) (best_score alpha : ext) : M (option pos * ext) :=
  match moves with
  | [] => ret (best, best_score)
  | move :: rest =>
      let* te := time_exceeded in
      if te : bool then ret (best, best_score)
      else
        let* new_board := lift (apply_move b (Some move) self_color) in
        let* (_, eval_val) :=
          alphabeta_search (Nat.pred depth) new_board alpha PosInf false in
        let '(best_score, best) :=
          if ext_lt best_score eval_val || bool_decide (best = None)
          then (eval_val, Some move) else (best_score, best) in
        let alpha := ext_max alpha eval_val in
        root_loop b depth rest best best_score alpha
  end.

(** [OthelloAI._root_search_sequential]; [depth] is positive at every call
    site, so [depth - 1] is a natural number. *)
Definition _root_search_sequential (b : board) (moves : list pos) (depth : nat)
  : M (option pos * ext) :=
  root_loop b depth moves None NegInf NegInf.

(** [pool.map(_parallel_worker, tasks)]: the results in task order, or
    [None] when a worker raises. *)
Definition pool_map (call : nat) (st : option Z) (b : board) (moves : list pos)
    (depth : nat) : option (list (pos * ext)) :=
  mapM (fun task => task)
    (imap (fun i move =>
             _parallel_worker (worker_clock call i) self_color st TIME_LIMIT
               b move depth) moves).

(** [OthelloAI._root_search_parallel] *)
Definition _root_search_parallel (b : board) (moves : list pos) (depth : nat)
  : M (option pos * ext) :=
  let* te := time_exceeded in
  if te : bool then (fun s => Some ((best_move s, NegInf), s))
  else fun s =>
    let n_procs := Nat.min cpu_count (length moves) in
    if (n_procs <=? 1)%nat then _root_search_sequential b moves depth s
    else if pool_raises (ticks s) then _root_search_sequential b moves depth s
    else
      match pool_map (ticks s) (start_time s) b moves depth with
      | None => _root_search_sequential b moves depth s
      | Some results =>
          match py_max_key results with
          | Some (bm, best_score) => Some ((Some bm, best_score), s)
          | None => None
          end
      end.

(** The iterative deepening loop of [get_move]. *)
Fixpoint deepening (legal_moves : list pos) (depths : list nat) : M unit :=
  match depths with
  | [] => ret tt
  | depth :: rest =>
      let* te := time_exceeded in
      if te : bool then ret tt
      else
        let* (move, _) :=
          (if (length legal_moves =? 1)%nat || (depth =? 1)%nat
           then _root_search_sequential self_board legal_moves depth
           else _root_search_parallel self_board legal_moves depth) in
        let* te := time_exceeded in
        let* _ :=
          (if negb te && negb (bool_decide (move = None))
           then set_best_move move else ret tt) in
        deepening legal_moves rest
  end.

(** [OthelloAI.get_move] *)
Definition get_move : M (option pos) := fun s =>
  let s := {| start_time := Some (clock (ticks s)); best_move := None;
              nodes_evaluated := 0; ticks := S (ticks s) |} in
  let legal_moves := get_legal_moves self_board self_color in
  match legal_moves with
  | [] => Some (None, s)
  | first :: _ =>
      (let* _ := set_best_move (Some first) in
       let* _ := deepening legal_moves (seq 1 DMAX) in
       fun s => Some (best_move s, s)) s
  end.

End OthelloAI.

(** *** Full-width minimax, the reference for the search *)

(** The successor position of [b] after [move] by [color]. *)
Definition successor (b : board) (move : pos) (color : Z) : board :=
  default b (apply_move b (Some move) color).

(** The first element of a list of scored moves that no other element
    beats, where [better x y] says that score [x] beats score [y]. *)
Definition first_best (better : Z → Z → bool) (first : pos * Z)
    (others : list (pos * Z)) : pos * Z :=
  foldl (fun best y => if better y.2 best.2 then y else best) first others.

(** Brute-force full-width minimax to [depth] plies with the evaluator of
    the root colour [root_color], as the specification words it: every
    legal move of every node is searched, a maximizing node takes the
    largest child score and a minimizing node the smallest, and a node at
    depth 0 or without legal moves is scored by the evaluator.  Among
    moves of equal score the first in the order of [get_legal_moves] is
    chosen. *)
Fixpoint minimax (root_color : Z) (depth : nat) (b : board) (maximizing : bool)
  : option pos * Z :=
  let color := if maximizing then root_color else - root_color in
  match depth with
  | O => (None, evaluate_board b root_color)
  | S depth' =>
      let scored :=
        map (fun move =>
               (move, (minimax root_color depth' (successor b move color)
                         (negb maximizing)).2))
            (get_legal_moves b color) in
      match scored with
      | [] => (None, evaluate_board b root_color)
      | first :: others =>
          let '(move, score) :=
            first_best (if maximizing then Z.gtb else Z.ltb) first others in
          (Some move, score)
      end
  end.

End AI.

Import AI.

(** Python strings. *)
Delimit Scope string_scope with string.
Abbreviation string := String.string.

(** ** utils.py *)
Module Utils.

(** Python's [max(a, b)] and [min(a, b)] on integers. *)
Definition py_max (a b : Z) : Z := if a <? b then b else a.
Definition py_min (a b : Z) : Z := if b <? a then b else a.

(** [clamp(v, lo, hi)], for integer arguments. *)
Definition clamp (v lo hi : Z) : Z := py_max lo (py_min hi v).

(** The format [f"{n:02d}"]: the decimal digits of [n], with a minus sign
    when negative, padded with a zero to two characters. *)
Definition fmt_02d (n : Z) : string :=
  let digits := DecimalString.NilZero.string_of_int (Z.to_int n) in
  if (String.length digits <? 2)%nat then String.append "0"%string digits else digits.

(** [format_seconds(s)], for a whole number of seconds.  [mins] and [secs]
    are assigned only inside the [if s < 0] block; [None] is the
    UnboundLocalError that the return statement raises when they were not. *)
Definition format_seconds (s : Z) : option string :=
  let '(s, mins, secs) :=
    if s <? 0 then
      let s := 0 in
      (s, Some (s / 60), Some (s mod 60))
    else (s, None, None) in
  mins ← mins;
  secs ← secs;
  Some (String.append (fmt_02d mins) (String.append ":"%string (fmt_02d secs))).

End Utils.

(** ** gui.py: the game session *)
Module Gui.

Definition CELL_SIZE : Z := 60.
Definition CANVAS_PADDING : Z := 20.

(** The fields of an OthelloGUI object that its game logic reads and
    writes.  Widgets, the log and the AI thread are left out. *)
Record gui := {
  g_game : game;
  human_color : option Z;
  current_player : Z;
  game_over : bool;
  paused : bool
}.

(** [OthelloGUI._color_to_str] *)
Definition _color_to_str (color : Z) : string :=
  if color =? BLACK then "Black"%string%string
  else if color =? WHITE then "White"%string
  else "Unknown"%string.

(** The rectangle [(x0, y0, x1, y1)] that [draw_board] paints for the
    cell (r, c). *)
Definition cell_rect (r c : Z) : Z * Z * Z * Z :=
  let size := CELL_SIZE in
  let pad := CANVAS_PADDING in
  let x0 := pad + c * size in
  let y0 := pad + (BOARD_SIZE - 1 - r) * size in
  let x1 := x0 + size in
  let y1 := y0 + size in
  (x0, y0, x1, y1).

(** The cell that [on_canvas_click] reads off a click at pixel (x, y), or
    [None] when the click is outside the board. *)
Definition click_cell (x y : Z) : option pos :=
  let pad := CANVAS_PADDING in
  let size := CELL_SIZE in
  let c := (x - pad) / size in
  let r := BOARD_SIZE - 1 - ((y - pad) / size) in
  if (0 <=? r) && (r <? BOARD_SIZE) && (0 <=? c) && (c <? BOARD_SIZE)
  then Some (r, c) else None.

(** [OthelloGUI.check_game_over]: the returned flag, the object afterwards
    and the winner text it shows when the game is over. *)
Definition check_game_over (st : gui) : bool * gui * option string :=
  let b := gboard (g_game st) in
  if bool_decide (legal_moves b BLACK = []) && bool_decide (legal_moves b WHITE = [])
  then
    let st := {| g_game := g_game st; human_color := human_color st;
                 current_player := current_player st; game_over := true;
                 paused := paused st |} in
    let black_count := sum (map (count BLACK) b) in
    let white_count := sum (map (count WHITE) b) in
    let winner_color :=
      if black_count >? white_count then _color_to_str BLACK
      else if white_count >? black_count then _color_to_str WHITE
      else "Tie"%string in
    (true, st, Some winner_color)
  else (false, st, None).

(** Assignments to [self.game] and [self.current_player]. *)
Definition with_game (st : gui) (g : game) : gui :=
  {| g_game := g; human_color := human_color st;
     current_player := current_player st; game_over := game_over st;
     paused := paused st |}.

Definition with_player (st : gui) (p : Z) : gui :=
  {| g_game := g_game st; human_color := human_color st;
     current_player := p; game_over := game_over st;
     paused := paused st |}.


(** [OthelloGUI._apply_ai_move] for the move [best_move] that the AI
    returned: the object afterwards.  The log, the score label and the
    scheduling of the next turn are left out. *)
Definition _apply_ai_move (best_move : option pos) (st : gui) : gui :=
  if game_over st || paused st then st
  else
    let g :=
      match best_move with
      | None => (make_move None (current_player st) (g_game st)).2
      | Some _ =>
          let '(applied, g) :=
            make_move best_move (current_player st) (g_game st) in
          if negb applied
          then (make_move None (current_player st) g).2
          else g
      end in
    let st := with_game st g in
    let '(over, st, _) := check_game_over st in
    if over then st
    else with_player st (get_opponent (current_player st)).

(** [OthelloGUI.start_ai_move]: the object afterwards, and whether the
    search thread was started.  [ai_loaded] tells whether ai.py was
    imported, [thread_alive] whether an earlier search thread still runs. *)
Definition start_ai_move (ai_loaded thread_alive : bool) (st : gui) : gui * bool :=
  if game_over st || paused st
     || bool_decide (Some (current_player st) = human_color st)
  then (st, false)
  else if negb ai_loaded then (st, false)
  else if thread_alive then (st, false)
  else
    let legal := legal_moves (gboard (g_game st)) (current_player st) in
    if bool_decide (legal = []) then
      let st := with_game st (make_move None (current_player st) (g_game st)).2 in
      let st := with_player st (get_opponent (current_player st)) in
      let '(_, st, _) := check_game_over st in
      (st, false)
    else (st, true).

Section AiWorker.

Variable clock : nat → Z.
Variable cpu_count : nat.
Variable pool_raises : nat → bool.
Variable worker_clock : nat → nat → nat → Z.

(** [OthelloGUI._ai_worker] with the OthelloAI interface: the move it
    hands to [_apply_ai_move].  An exception of the search is caught and
    leaves [best_move] at None. *)
Definition _ai_worker (st : gui) : option pos :=
  let ai_color := current_player st in
  match get_move clock cpu_count pool_raises worker_clock ai_color
          (gboard (g_game st)) new_ai with
  | Some (best_move, _) => best_move
  | None => None
  end.

End AiWorker.

End Gui.

(** * Vocabulary of the statements *)

(** Row-major order on positions. *)
Definition row_major_lt (p q : pos) : Prop :=
  p.1 < q.1 ∨ (p.1 = q.1 ∧ p.2 < q.2).

(** Every cell of the board holds a disc. *)
Definition board_full (b : board) : bool :=
  forallb (forallb (fun v => negb (v =? EMPTY))) b.

(** A full board, and a board on which White must pass while Black can
    still move: Black on (0,0), White on (0,1). *)
Definition full_board : board :=
  replicate 8 (replicate 8 BLACK).

Definition pass_board : board :=
  set_cell (set_cell empty_board 0 0 BLACK) 0 1 WHITE.

(** ** The search without its clock

    [ab] is [alphabeta_search] with the deadline tests and the node counter
    left out; the lemmas [alphabeta_search_ab] and [w_alphabeta_ab] show that
    both searches of ai.py compute it when the deadline never passes. *)

Section PureSearch.

Variable root_color : Z.

Fixpoint ab_max_loop (rec : board → ext → ext → option pos * ext) (b : board)
    (color : Z) (beta : ext) (moves : list pos)
    (best : option pos) (max_eval alpha : ext) : option pos * ext :=
  match moves with
  | [] => (best, max_eval)
  | move :: rest =>
      let '(_, eval_val) := rec (successor b move color) alpha beta in
      let '(max_eval, best) :=
        if ext_lt max_eval eval_val || bool_decide (best = None)
        then (eval_val, Some move) else (max_eval, best) in
      let alpha := ext_max alpha eval_val in
      if ext_le beta alpha then (best, max_eval)
      else ab_max_loop rec b color beta rest best max_eval alpha
  end.

Fixpoint ab_min_loop (rec : board → ext → ext → option pos * ext) (b : board)
    (color : Z) (alpha : ext) (moves : list pos)
    (best : option pos) (min_eval beta : ext) : option pos * ext :=
  match moves with
  | [] => (best, min_eval)
  | move :: rest =>
      let '(_, eval_val) := rec (successor b move color) alpha beta in
      let '(min_eval, best) :=
        if ext_lt eval_val min_eval || bool_decide (best = None)
        then (eval_val, Some move) else (min_eval, best) in
      let beta := ext_min beta eval_val in
      if ext_le beta alpha then (best, min_eval)
      else ab_min_loop rec b color alpha rest best min_eval beta
  end.

Fixpoint ab (depth : nat) (b : board) (alpha beta : ext) (maximizing : bool)
  : option pos * ext :=
  let color := if maximizing then root_color else - root_color in
  let legal := get_legal_moves b color in
  match depth with
  | O => (None, Fin (evaluate_board b root_color))
  | S depth' =>
      if bool_decide (legal = []) then (None, Fin (evaluate_board b root_color))
      else if maximizing
      then ab_max_loop (fun nb a bt => ab depth' nb a bt false)
             b color beta legal None NegInf alpha
      else ab_min_loop (fun nb a bt => ab depth' nb a bt true)
             b color alpha legal None PosInf beta
  end.

End PureSearch.

(** The deadline never passes for the main process in state [s]. *)
Definition unlimited (clock : nat → Z) (s : ai) : Prop :=
  ∀ t0, start_time s = Some t0 → ∀ k, clock k - t0 < TIME_LIMIT.

(** The deadline never passes for a worker started with [st]. *)
Definition worker_unlimited (wclock : nat → Z) (st : option Z) : Prop :=
  ∀ t0, st = Some t0 → ∀ k, wclock k - t0 < TIME_LIMIT.

(** The search leaves [start_time] and [best_move] alone. *)
Definition frame (s s' : ai) : Prop :=
  start_time s' = start_time s ∧ best_move s' = best_move s.

(** What a search with window [(alpha, beta)] may return for a node whose
    minimax value is [v]: the exact value inside the window, a bound on the
    side where it falls outside. *)
Definition fail_soft (alpha beta : ext) (v' : ext) (v : Z) : Prop :=
  ∃ z, v' = Fin z ∧
       (ext_le (Fin z) alpha = true → v ≤ z) ∧
       (ext_le beta (Fin z) = true → z ≤ v) ∧
       (ext_lt alpha (Fin z) = true → ext_lt (Fin z) beta = true → z = v).

(** The exact score of a root move searched to [depth]. *)
Definition root_val (color : Z) (b : board) (depth : nat) (mv : pos) : Z :=
  (minimax color (Nat.pred depth) (successor b mv color) false).2.

(** The root search that [get_move] runs at [depth]. *)
Definition root_search (clock : nat → Z) (cpu_count : nat)
    (pool_raises : nat → bool) (worker_clock : nat → nat → nat → Z)
    (color : Z) (b : board) (depth : nat) : M (option pos * ext) :=
  if (length (get_legal_moves b color) =? 1)%nat || (depth =? 1)%nat
  then _root_search_sequential clock color b (get_legal_moves b color) depth
  else _root_search_parallel clock cpu_count pool_raises worker_clock color
         b (get_legal_moves b color) depth.

(** The fallback invariant of [get_move]: [best_move] holds a legal move. *)
Definition legal_best (color : Z) (b : board) (s : ai) : Prop :=
  ∃ m, best_move s = Some m ∧ In m (get_legal_moves b color).

(** ** Vocabulary for the further properties *)

(** The two player colours. *)
Definition is_player (c : Z) : Prop := c = BLACK ∨ c = WHITE.

(** Every cell holds one of the three cell values. *)
Definition cells_ok (b : board) : Prop :=
  Forall (Forall (fun v => v = EMPTY ∨ v = BLACK ∨ v = WHITE)) b.

(** The number of cells of the board that hold [v]: a component of
    [count_discs]. *)
Definition count_cells (v : Z) (b : board) : Z := sum (map (count v) b).

(** A history entry that [undo_last_move] can take back without indexing
    outside the board: a pass, or a move whose target and flipped
    positions are all on the board. *)
Definition entry_on_board (e : entry) : Prop :=
  match e_move e with
  | None => True
  | Some (row, col) =>
      is_valid_position row col = true ∧
      Forall (fun p : pos => is_valid_position p.1 p.2 = true) (e_flipped e)
  end.

(** Every entry of the game's history is on the board.  This holds of a
    new game and [make_move] keeps it. *)
Definition history_on_board (g : game) : Prop :=
  Forall entry_on_board (history g).

(** [make_move] called for each (move, colour) of a list in turn: the
    number of calls that returned True, and the game afterwards. *)
Fixpoint play (ms : list (option pos * Z)) (g : game) : nat * game :=
  match ms with
  | [] => (0%nat, g)
  | (mv, color) :: rest =>
      let '(ok, g1) := make_move mv color g in
      let '(n, g2) := play rest g1 in
      ((if ok then S n else n), g2)
  end.

(** [undo_last_move] called [n] times; [None] as soon as a call returns
    False. *)
Fixpoint undo_n (n : nat) (g : game) : option game :=
  match n with
  | O => Some g
  | S n' =>
      let '(ok, g1) := undo_last_move g in
      if ok then undo_n n' g1 else None
  end.


(** The stability term of [evaluate_board] for [color]. *)
Definition stability_of (b : board) (color : Z) : Z :=
  foldl (stability_step b color) 0 corners_idx.

(** One turn of the AI in the GUI: [start_ai_move], and when it started
    the search thread, the move of [_ai_worker] handed to
    [_apply_ai_move], the session being left alone in between. *)
Definition ai_turn (clock : nat → Z) (cpu_count : nat)
    (pool_raises : nat → bool) (worker_clock : nat → nat → nat → Z)
    (st : Gui.gui) : Gui.gui :=
  let '(st1, started) := Gui.start_ai_move true false st in
  if started
  then Gui._apply_ai_move
         (Gui._ai_worker clock cpu_count pool_raises worker_clock st1) st1
  else st1.

(** The winner text of the game-over dialog that corresponds to the
    result of [get_winner]. *)
Definition winner_text (b : board) : string :=
  if get_winner b =? EMPTY then "Tie"%string
  else Gui._color_to_str (get_winner b).



(** * Properties of the rules engine *)

#[local] Arguments DIRECTIONS : simpl never.
#[local] Arguments FUEL : simpl never.
#[local] Arguments BOARD_SIZE : simpl never.
#[local] Arguments flips_dir : simpl never.
#[local] Arguments outflanks : simpl never.
#[local] Arguments is_valid_position : simpl never.
#[local] Arguments is_valid_move : simpl never.
#[local] Arguments get_legal_moves : simpl never.
#[local] Arguments legal_moves : simpl never.
#[local] Arguments flip_discs : simpl never.
#[local] Arguments apply_move : simpl never.
#[local] Arguments evaluate_board : simpl never.
#[local] Arguments evaluate : simpl never.

Lemma is_valid_position_spec row col :
  is_valid_position row col = true ↔ 0 ≤ row < 8 ∧ 0 ≤ col < 8.
Proof.
  unfold is_valid_position, BOARD_SIZE.
  rewrite !andb_true_iff, !Z.leb_le, !Z.ltb_lt. lia.
Qed.

Lemma in_range n x : In x (range n) ↔ 0 ≤ x < n.
Proof.
  unfold range. rewrite in_map_iff. split.
  - intros (k & <- & Hk). apply in_seq in Hk. lia.
  - intros Hx. exists (Z.to_nat x). split; [lia|]. apply in_seq. lia.
Qed.

Lemma get_opponent_not_empty color : get_opponent color ≠ EMPTY.
Proof. unfold get_opponent. by destruct (color =? BLACK). Qed.

(** The flag computed by [scan] says whether [collect] gathers a disc, and
    both loops stop at the same cell. *)
Lemma scan_collect fuel b opponent dr dc found r c :
  scan fuel b opponent dr dc found r c =
  (found || negb (bool_decide ((collect fuel b opponent dr dc r c).1 = [])),
   (collect fuel b opponent dr dc r c).2).
Proof.
  revert found r c. induction fuel as [|fuel IH]; intros found r c; simpl.
  - by rewrite orb_false_r.
  - destruct (is_valid_position r c && (cell b r c =? opponent)); simpl.
    + rewrite IH. destruct (collect fuel b opponent dr dc (r + dr) (c + dc)).
      simpl. by rewrite orb_true_r.
    + by rewrite orb_false_r.
Qed.

Lemma outflanks_flips_dir b color row col d :
  outflanks b color row col d =
  negb (bool_decide (flips_dir b color row col d = [])).
Proof.
  unfold outflanks, flips_dir. destruct d as [dr dc].
  rewrite scan_collect.
  destruct (collect FUEL b (get_opponent color) dr dc (row + dr) (col + dc))
    as [l [r c]]; simpl.
  destruct l as [|p l]; simpl; [done|].
  by destruct (is_valid_position r c && (cell b r c =? color)).
Qed.

Lemma flat_map_not_nil {A B} (f : A → list B) (l : list A) x :
  In x l → f x ≠ [] → flat_map f l ≠ [].
Proof.
  induction l as [|y l IH]; simpl; [done|].
  intros [->|Hin] Hx Happ; apply app_eq_nil in Happ as [? ?]; naive_solver.
Qed.

Lemma flat_map_ext_in {A B} (f g : A → list B) (l : list A) :
  (∀ x, In x l → f x = g x) → flat_map f l = flat_map g l.
Proof.
  induction l as [|y l IH]; simpl; [done|].
  intros H. rewrite (H y), IH; auto.
Qed.

Lemma flat_map_nil {A B} (f : A → list B) (l : list A) :
  (∀ x, In x l → f x = []) → flat_map f l = [].
Proof.
  induction l as [|y l IH]; simpl; [done|].
  intros H. rewrite (H y), IH; auto.
Qed.

Lemma is_valid_move_flip_discs b row col color :
  is_valid_move b row col color = true ↔ flip_discs b row col color ≠ [].
Proof.
  unfold flip_discs. split.
  - intros Hv. rewrite Hv; simpl. revert Hv. unfold is_valid_move.
    destruct (negb (is_valid_position row col)); [done|].
    destruct (negb (cell b row col =? EMPTY)); [done|].
    intros (d & Hd & Ho)%existsb_exists.
    apply (flat_map_not_nil _ _ d Hd).
    rewrite outflanks_flips_dir in Ho.
    intros E. by rewrite E in Ho.
  - by destruct (is_valid_move b row col color).
Qed.

Lemma is_valid_move_position b row col color :
  is_valid_move b row col color = true → is_valid_position row col = true.
Proof.
  unfold is_valid_move. by destruct (is_valid_position row col).
Qed.

Lemma is_valid_move_empty b row col color :
  is_valid_move b row col color = true → cell b row col = EMPTY.
Proof.
  unfold is_valid_move. destruct (negb (is_valid_position row col)); [done|].
  destruct (cell b row col =? EMPTY) eqn:E; [|done]. intros _. lia.
Qed.

Lemma in_legal_moves b color row col :
  In (row, col) (legal_moves b color) ↔ is_valid_move b row col color = true.
Proof.
  unfold legal_moves. rewrite in_flat_map. split.
  - intros (i & _ & (j & _ & Hj)%in_flat_map).
    destruct (is_valid_move b i j color) eqn:E; [|done].
    destruct Hj as [[= <- <-]|[]]. done.
  - intros Hv. pose proof (is_valid_move_position _ _ _ _ Hv) as Hp.
    apply is_valid_position_spec in Hp.
    exists row. split; [apply in_range; unfold BOARD_SIZE; lia|].
    apply in_flat_map. exists col.
    split; [apply in_range; unfold BOARD_SIZE; lia|].
    rewrite Hv. by left.
Qed.

Lemma scan_rows_sorted (f : Z → Z → bool) (rows cols : list Z) :
  StronglySorted Z.lt rows → StronglySorted Z.lt cols →
  StronglySorted row_major_lt
    (flat_map (fun i => flat_map (fun j => if f i j then [(i, j)] else []) cols)
       rows).
Proof.
  intros Hrows Hcols.
  induction Hrows as [|i rows Hrows IH Hi]; simpl; [constructor|].
  apply StronglySorted_app; split_and!; [|clear IH Hi|done].
  - intros [i1 j1] [i2 j2] (j & _ & H1)%list_elem_of_In%in_flat_map
      (i' & Hi' & (j' & _ & H2)%in_flat_map)%list_elem_of_In%in_flat_map.
    destruct (f i j); [|done]. destruct (f i' j'); [|done].
    destruct H1 as [[= <- <-]|[]]. destruct H2 as [[= <- <-]|[]].
    left; simpl. rewrite Forall_forall in Hi. by apply Hi, list_elem_of_In.
  - induction Hcols as [|j cols Hcols IH Hj]; simpl; [constructor|].
    apply StronglySorted_app; split_and!; [| |done].
    + intros [i1 j1] [i2 j2] H1%list_elem_of_In
        (j' & Hj' & H2)%list_elem_of_In%in_flat_map.
      destruct (f i j); [|done]. destruct (f i j'); [|done].
      destruct H1 as [[= <- <-]|[]]. destruct H2 as [[= <- <-]|[]].
      right; simpl. split; [done|].
      rewrite Forall_forall in Hj. by apply Hj, list_elem_of_In.
    + destruct (f i j); repeat constructor.
Qed.

Lemma range_sorted n : StronglySorted Z.lt (range n).
Proof.
  unfold range. generalize 0%nat.
  induction (Z.to_nat n) as [|k IH]; intros s; simpl; constructor; [apply IH|].
  apply Forall_forall. intros x (y & <- & Hy%in_seq)%list_elem_of_In%in_map_iff.
  lia.
Qed.

Lemma legal_moves_sorted b color :
  StronglySorted row_major_lt (legal_moves b color).
Proof. apply scan_rows_sorted; apply range_sorted. Qed.

(** ** Well-formed boards: reads and writes *)

Lemma wf_board_row b r :
  wf_board b → 0 ≤ r < 8 →
  ∃ row, b !! Z.to_nat r = Some row ∧ length row = 8%nat.
Proof.
  intros [Hlen Hrows] Hr.
  destruct (lookup_lt_is_Some_2 b (Z.to_nat r)) as [row Hrow].
  { rewrite Hlen. unfold BOARD_SIZE. lia. }
  exists row. split; [done|].
  rewrite Forall_lookup in Hrows. apply (Hrows _ _ Hrow).
Qed.

Lemma wf_set_cell b r c v : wf_board b → wf_board (set_cell b r c v).
Proof.
  intros [Hlen Hrows]. split; unfold set_cell.
  - by rewrite length_alter.
  - apply Forall_alter; [done|]. intros row _ Hrow. by rewrite length_insert.
Qed.

Lemma wf_set_cells b ps v : wf_board b → wf_board (set_cells b ps v).
Proof.
  unfold set_cells. revert b.
  induction ps as [|p ps IH]; intros b Hb; simpl; [done|].
  by apply IH, wf_set_cell.
Qed.

Lemma cell_set_cell b r c v r' c' :
  wf_board b →
  is_valid_position r c = true → is_valid_position r' c' = true →
  cell (set_cell b r c v) r' c' =
  if bool_decide ((r, c) = (r', c')) then v else cell b r' c'.
Proof.
  intros Hb [Hr Hc]%is_valid_position_spec [Hr' Hc']%is_valid_position_spec.
  destruct (wf_board_row b r Hb Hr) as (row & Hrow & Hlen).
  unfold cell, set_cell.
  destruct (decide (r = r')) as [<-|Hne].
  - rewrite list_lookup_alter_eq, Hrow; simpl.
    destruct (decide (c = c')) as [<-|Hne].
    + rewrite bool_decide_eq_true_2 by done.
      rewrite list_lookup_insert_eq by lia. done.
    + rewrite bool_decide_eq_false_2 by congruence.
      rewrite list_lookup_insert_ne by lia. done.
  - rewrite bool_decide_eq_false_2 by congruence.
    rewrite list_lookup_alter_ne by lia. done.
Qed.

Lemma cell_set_cells b ps v r c :
  wf_board b →
  Forall (fun p => is_valid_position p.1 p.2 = true) ps →
  is_valid_position r c = true →
  cell (set_cells b ps v) r c =
  if bool_decide ((r, c) ∈ ps) then v else cell b r c.
Proof.
  intros Hb Hps Hrc. unfold set_cells. revert b Hb.
  induction Hps as [|[pr pc] ps Hp Hps IH]; intros b Hb; simpl.
  - done.
  - rewrite IH by by apply wf_set_cell.
    destruct (decide ((r, c) ∈ ps)) as [Hin|Hin].
    + rewrite !bool_decide_eq_true_2; [done|by right|done].
    + rewrite (bool_decide_eq_false_2 ((r, c) ∈ ps)) by done.
      rewrite cell_set_cell by done.
      destruct (decide ((pr, pc) = (r, c))) as [E|E].
      * rewrite !bool_decide_eq_true_2; [done|rewrite E; by left|done].
      * rewrite !bool_decide_eq_false_2; [done| |done].
        intros [?|?]%elem_of_cons; congruence.
Qed.

(** Two well-formed boards with the same cells are the same board. *)
Lemma board_ext b b' :
  wf_board b → wf_board b' →
  (∀ r c, is_valid_position r c = true → cell b r c = cell b' r c) →
  b = b'.
Proof.
  intros Hb Hb' Hcell. apply list_eq. intros i.
  destruct (decide (i < 8)%nat) as [Hi|Hi].
  - destruct (wf_board_row b (Z.of_nat i) Hb) as (row & Hrow & Hlen); [lia|].
    destruct (wf_board_row b' (Z.of_nat i) Hb') as (row' & Hrow' & Hlen'); [lia|].
    rewrite Nat2Z.id in Hrow, Hrow'. rewrite Hrow, Hrow'. f_equal.
    apply list_eq. intros j.
    destruct (decide (j < 8)%nat) as [Hj|Hj].
    + specialize (Hcell (Z.of_nat i) (Z.of_nat j)).
      unfold cell in Hcell. rewrite !Nat2Z.id, Hrow, Hrow' in Hcell.
      destruct (lookup_lt_is_Some_2 row j) as [x Hx]; [lia|].
      destruct (lookup_lt_is_Some_2 row' j) as [x' Hx']; [lia|].
      rewrite Hx, Hx' in *. simpl in Hcell. f_equal. apply Hcell.
      apply is_valid_position_spec. lia.
    + rewrite !lookup_ge_None_2 by lia. done.
  - destruct Hb as [Hlen _], Hb' as [Hlen' _]. unfold BOARD_SIZE in *.
    rewrite !lookup_ge_None_2 by lia. done.
Qed.

(** ** The discs gathered along one direction *)

Lemma collect_cells fuel b opponent dr dc r c p :
  In p (collect fuel b opponent dr dc r c).1 →
  is_valid_position p.1 p.2 = true ∧ cell b p.1 p.2 = opponent.
Proof.
  revert r c. induction fuel as [|fuel IH]; intros r c; simpl; [done|].
  destruct (is_valid_position r c && (cell b r c =? opponent)) eqn:E;
    [|done].
  specialize (IH (r + dr) (c + dc)).
  destruct (collect fuel b opponent dr dc (r + dr) (c + dc)) as [l e].
  simpl in *. intros [<-|Hin]; [|by apply IH].
  apply andb_true_iff in E as [? ?%Z.eqb_eq]. done.
Qed.

Lemma flips_dir_cells b color row col d p :
  In p (flips_dir b color row col d) →
  is_valid_position p.1 p.2 = true ∧ cell b p.1 p.2 = get_opponent color.
Proof.
  unfold flips_dir. destruct d as [dr dc].
  pose proof (collect_cells FUEL b (get_opponent color) dr dc
                (row + dr) (col + dc) p) as H.
  destruct (collect FUEL b (get_opponent color) dr dc (row + dr) (col + dc))
    as [l [r c]]; simpl in *.
  by destruct (negb (bool_decide (l = [])) && is_valid_position r c
               && (cell b r c =? color)).
Qed.

Lemma flip_discs_cells b row col color p :
  In p (flip_discs b row col color) →
  is_valid_position p.1 p.2 = true ∧ cell b p.1 p.2 = get_opponent color.
Proof.
  unfold flip_discs. destruct (negb (is_valid_move b row col color)); [done|].
  intros (d & _ & Hp)%in_flat_map. by apply flips_dir_cells in Hp.
Qed.

(** ** The direction loops terminate within the fuel *)

Lemma collect_end fuel b opponent dr dc r c :
  let e := (collect fuel b opponent dr dc r c).2 in
  is_valid_position e.1 e.2 && (cell b e.1 e.2 =? opponent) = false ∨
  (e = (r + Z.of_nat fuel * dr, c + Z.of_nat fuel * dc) ∧
   (0 < fuel → is_valid_position r c = true)%nat).
Proof.
  revert r c. induction fuel as [|fuel IH]; intros r c; simpl.
  - right. split; [f_equal; lia|lia].
  - destruct (is_valid_position r c && (cell b r c =? opponent)) eqn:E;
      [|by left].
    specialize (IH (r + dr) (c + dc)).
    destruct (collect fuel b opponent dr dc (r + dr) (c + dc)) as [l e].
    simpl in *. destruct IH as [IH|[-> _]]; [by left|right].
    apply andb_true_iff in E as [E _]. split; [f_equal; lia|done].
Qed.

(** With [FUEL] iterations every direction loop has run to its end: the
    loop condition fails at the cell where [collect] stops. *)
Lemma collect_stops b opponent dr dc r c :
  In (dr, dc) DIRECTIONS →
  let e := (collect FUEL b opponent dr dc r c).2 in
  is_valid_position e.1 e.2 && (cell b e.1 e.2 =? opponent) = false.
Proof.
  intros Hd.
  destruct (collect_end FUEL b opponent dr dc r c) as [H|[H Hv]]; [done|].
  cbv zeta. rewrite H. cbn [fst snd].
  assert (is_valid_position r c = true) as [Hr Hc]%is_valid_position_spec
    by (apply Hv; unfold FUEL, BOARD_SIZE; lia).
  apply andb_false_iff. left. apply not_true_is_false.
  intros [Hr' Hc']%is_valid_position_spec.
  unfold FUEL, BOARD_SIZE, DIRECTIONS in *. simpl in Hd.
  repeat (destruct Hd as [[= <- <-]|Hd]; [lia|]). done.
Qed.

Lemma scan_stops b opponent dr dc found r c :
  In (dr, dc) DIRECTIONS →
  let e := (scan FUEL b opponent dr dc found r c).2 in
  is_valid_position e.1 e.2 && (cell b e.1 e.2 =? opponent) = false.
Proof.
  intros Hd. rewrite scan_collect. simpl. by apply collect_stops.
Qed.

(** ** The unchecked move application *)

Lemma py_index_in_range len i :
  0 ≤ i < Z.of_nat len → py_index len i = Some (Z.to_nat i).
Proof.
  intros Hi. unfold py_index.
  assert ((0 <=? i) && (i <? Z.of_nat len) = true) as ->; [|done].
  apply andb_true_iff. rewrite Z.leb_le, Z.ltb_lt. lia.
Qed.

(** On a well-formed board and a position inside it, the Python
    assignment raises nothing and is the guarded write. *)
Lemma setitem2_set_cell b r c v :
  wf_board b → is_valid_position r c = true →
  setitem2 b r c v = Some (set_cell b r c v).
Proof.
  intros Hb [Hr Hc]%is_valid_position_spec.
  destruct (wf_board_row b r Hb Hr) as (row & Hrow & Hlen).
  destruct Hb as [Hb _]. unfold BOARD_SIZE in Hb.
  unfold setitem2. rewrite py_index_in_range by lia. simpl.
  rewrite Hrow. simpl. rewrite py_index_in_range by lia. simpl.
  f_equal. unfold set_cell. rewrite list_insert_alter.
  apply list_alter_ext; [|done]. intros x Hx. congruence.
Qed.

(** The loop over DIRECTIONS in [apply_move] keeps the board well formed
    and never changes a cell that already holds [color]. *)
Lemma apply_move_loop b color row col ds r c :
  wf_board b → is_valid_position r c = true → cell b r c = color →
  let b' := foldl (fun nb d => set_cells nb (flips_dir nb color row col d) color)
              b ds in
  wf_board b' ∧ cell b' r c = color.
Proof.
  intros Hb Hrc. revert b Hb.
  induction ds as [|d ds IH]; intros b Hb Hc; simpl; [done|].
  apply IH; [by apply wf_set_cells|].
  rewrite cell_set_cells; [by case_bool_decide|done| |done].
  apply Forall_forall. intros p Hp%list_elem_of_In.
  by apply flips_dir_cells in Hp as [? _].
Qed.

Lemma apply_move_in_range b row col color :
  wf_board b → is_valid_position row col = true →
  ∃ b', apply_move b (Some (row, col)) color = Some b' ∧
        wf_board b' ∧ cell b' row col = color.
Proof.
  intros Hb Hp. unfold apply_move.
  rewrite setitem2_set_cell by done.
  exists (foldl (fun nb d => set_cells nb (flips_dir nb color row col d) color)
            (set_cell b row col color) DIRECTIONS).
  split; [reflexivity|].
  apply (apply_move_loop _ color row col DIRECTIONS row col);
    [by apply wf_set_cell|done|].
  rewrite cell_set_cell by done. by rewrite bool_decide_eq_true_2.
Qed.

(** ** [apply_move] flips what [flip_discs] lists

    The rays leaving a cell in the eight directions share no cell, and none
    contains the cell itself, so the discs placed and flipped while
    [apply_move] runs never change what a later direction reads. *)

Lemma collect_on_ray fuel b opponent dr dc r c p :
  In p (collect fuel b opponent dr dc r c).1 →
  ∃ k, 0 ≤ k ∧ p = (r + k * dr, c + k * dc).
Proof.
  revert r c. induction fuel as [|fuel IH]; intros r c; simpl; [done|].
  destruct (is_valid_position r c && (cell b r c =? opponent)); [|done].
  specialize (IH (r + dr) (c + dc)).
  destruct (collect fuel b opponent dr dc (r + dr) (c + dc)) as [l e].
  simpl in *. intros [<-|Hin].
  - exists 0. split; [lia|f_equal; lia].
  - destruct (IH Hin) as (k & Hk & ->). exists (k + 1).
    split; [lia|f_equal; lia].
Qed.

Lemma flips_dir_on_ray b color row col dr dc p :
  In p (flips_dir b color row col (dr, dc)) →
  ∃ k, 1 ≤ k ∧ p = (row + k * dr, col + k * dc).
Proof.
  unfold flips_dir.
  pose proof (collect_on_ray FUEL b (get_opponent color) dr dc
                (row + dr) (col + dc) p) as H.
  destruct (collect FUEL b (get_opponent color) dr dc (row + dr) (col + dc))
    as [l [r c]]; simpl in *.
  destruct (negb (bool_decide (l = [])) && is_valid_position r c
            && (cell b r c =? color)); [|done].
  intros (k & Hk & ->)%H. exists (k + 1). split; [lia|f_equal; lia].
Qed.

Lemma rays_disjoint row col d d' k k' :
  In d DIRECTIONS → In d' DIRECTIONS → d ≠ d' → 1 ≤ k → 1 ≤ k' →
  (row + k * d.1, col + k * d.2) ≠ (row + k' * d'.1, col + k' * d'.2).
Proof.
  unfold DIRECTIONS. simpl. intros Hd Hd' Hne Hk Hk'.
  repeat (destruct Hd as [<-|Hd]; [|]); try done;
    repeat (destruct Hd' as [<-|Hd']; [|]); try done;
    simpl; intros [= ? ?]; lia.
Qed.

Lemma ray_not_origin row col d k :
  In d DIRECTIONS → 1 ≤ k → (row + k * d.1, col + k * d.2) ≠ (row, col).
Proof.
  unfold DIRECTIONS. simpl. intros Hd Hk.
  repeat (destruct Hd as [<-|Hd]; [|]); try done; simpl; intros [= ? ?]; lia.
Qed.

(** Two boards that agree on the valid cells of a ray give the same walk. *)
Lemma collect_ext fuel b b' opponent dr dc r c :
  (∀ k, 0 ≤ k → is_valid_position (r + k * dr) (c + k * dc) = true →
        cell b' (r + k * dr) (c + k * dc) = cell b (r + k * dr) (c + k * dc)) →
  collect fuel b' opponent dr dc r c = collect fuel b opponent dr dc r c.
Proof.
  revert r c. induction fuel as [|fuel IH]; intros r c Hagree; simpl; [done|].
  assert (is_valid_position r c && (cell b' r c =? opponent)
          = is_valid_position r c && (cell b r c =? opponent)) as ->.
  { destruct (is_valid_position r c) eqn:Hv; [simpl|done].
    specialize (Hagree 0). rewrite !Z.mul_0_l, !Z.add_0_r in Hagree.
    rewrite Hagree; [done|lia|done]. }
  rewrite IH; [done|]. intros k Hk Hv.
  specialize (Hagree (k + 1)).
  replace (r + (k + 1) * dr) with (r + dr + k * dr) in Hagree by lia.
  replace (c + (k + 1) * dc) with (c + dc + k * dc) in Hagree by lia.
  apply Hagree; [lia|done].
Qed.

Lemma collect_end_pos fuel b opponent dr dc r c :
  let '(l, e) := collect fuel b opponent dr dc r c in
  e = (r + Z.of_nat (length l) * dr, c + Z.of_nat (length l) * dc).
Proof.
  revert r c. induction fuel as [|fuel IH]; intros r c; simpl.
  - f_equal; lia.
  - destruct (is_valid_position r c && (cell b r c =? opponent));
      [|simpl; f_equal; lia].
    specialize (IH (r + dr) (c + dc)).
    destruct (collect fuel b opponent dr dc (r + dr) (c + dc)) as [l e].
    rewrite IH. cbn [length]. f_equal; lia.
Qed.

Lemma flips_dir_ext b b' color row col dr dc :
  (∀ k, 1 ≤ k → is_valid_position (row + k * dr) (col + k * dc) = true →
        cell b' (row + k * dr) (col + k * dc)
        = cell b (row + k * dr) (col + k * dc)) →
  flips_dir b' color row col (dr, dc) = flips_dir b color row col (dr, dc).
Proof.
  intros Hagree. unfold flips_dir.
  rewrite (collect_ext FUEL b b').
  2:{ intros k Hk Hv. specialize (Hagree (k + 1)).
      replace (row + (k + 1) * dr) with (row + dr + k * dr) in Hagree by lia.
      replace (col + (k + 1) * dc) with (col + dc + k * dc) in Hagree by lia.
      apply Hagree; [lia|done]. }
  pose proof (collect_end_pos FUEL b (get_opponent color) dr dc
                (row + dr) (col + dc)) as Hend.
  destruct (collect FUEL b (get_opponent color) dr dc (row + dr) (col + dc))
    as [l [r c]].
  destruct (is_valid_position r c) eqn:Hv;
    [|by rewrite !andb_false_r].
  injection Hend as -> ->.
  specialize (Hagree (Z.of_nat (length l) + 1)).
  replace (row + (Z.of_nat (length l) + 1) * dr)
    with (row + dr + Z.of_nat (length l) * dr) in Hagree by lia.
  replace (col + (Z.of_nat (length l) + 1) * dc)
    with (col + dc + Z.of_nat (length l) * dc) in Hagree by lia.
  rewrite Hagree; [done|lia|done].
Qed.

(** The discs that the directions [ds] contribute on board [b]. *)
Lemma flips_valid b color row col ds :
  Forall (fun p : pos => is_valid_position p.1 p.2 = true)
    (flat_map (flips_dir b color row col) ds).
Proof.
  apply Forall_forall. intros p (d & _ & Hp)%list_elem_of_In%in_flat_map.
  by apply flips_dir_cells in Hp as [? _].
Qed.

Lemma set_cells_app b ps qs v :
  set_cells b (ps ++ qs) v = set_cells (set_cells b ps v) qs v.
Proof. unfold set_cells. apply foldl_app. Qed.

(** The loop of [apply_move] over the directions [ds], started after the
    directions [done] have been handled, flips what the directions
    contribute on the original board. *)
Lemma apply_move_loop_flips b color row col done ds :
  wf_board b → is_valid_position row col = true →
  NoDup (done ++ ds) → Forall (fun d => In d DIRECTIONS) (done ++ ds) →
  foldl (fun nb d => set_cells nb (flips_dir nb color row col d) color)
    (set_cells (set_cell b row col color)
       (flat_map (flips_dir b color row col) done) color) ds
  = set_cells (set_cell b row col color)
      (flat_map (flips_dir b color row col) (done ++ ds)) color.
Proof.
  intros Hb Hp. revert done.
  induction ds as [|[dr dc] ds IH]; intros done Hnd Hdirs; simpl.
  - by rewrite app_nil_r.
  - replace (done ++ (dr, dc) :: ds) with ((done ++ [(dr, dc)]) ++ ds) in *
      by by rewrite <- app_assoc.
    rewrite <- IH by done. f_equal.
    rewrite flat_map_app, set_cells_app. simpl. rewrite app_nil_r. f_equal.
    apply flips_dir_ext. intros k Hk Hv.
    apply NoDup_app in Hnd as [Hnd _]. apply NoDup_app in Hnd as (_ & Hnd & _).
    apply Forall_app in Hdirs as [Hdirs _].
    apply Forall_app in Hdirs as [Hdone Hd].
    apply Forall_inv in Hd.
    rewrite cell_set_cells; [|by apply wf_set_cell|apply flips_valid|done].
    rewrite bool_decide_eq_false_2.
    + rewrite cell_set_cell by done. rewrite bool_decide_eq_false_2; [done|].
      intros E. by eapply (ray_not_origin row col (dr, dc) k).
    + intros ([dr' dc'] & Hin' & Hp')%list_elem_of_In%in_flat_map.
      apply flips_dir_on_ray in Hp' as (k' & Hk' & E).
      apply (rays_disjoint row col (dr, dc) (dr', dc') k k'); try done.
      * rewrite Forall_forall in Hdone. by apply Hdone, list_elem_of_In.
      * intros [= <- <-]. apply (Hnd (dr, dc)); [by apply list_elem_of_In|left].
Qed.

(** [apply_move] on a well-formed board and a target inside it: the disc is
    placed and every direction flips what it contributes on the input. *)
Lemma apply_move_flips b row col color :
  wf_board b → is_valid_position row col = true →
  apply_move b (Some (row, col)) color =
  Some (set_cells (set_cell b row col color)
          (flat_map (flips_dir b color row col) DIRECTIONS) color).
Proof.
  intros Hb Hp. unfold apply_move. rewrite setitem2_set_cell by done.
  cbn [mbind option_bind]. f_equal.
  apply (apply_move_loop_flips b color row col [] DIRECTIONS Hb Hp).
  - apply (bool_decide_unpack _). by vm_compute.
  - apply Forall_forall. by intros d Hd%list_elem_of_In.
Qed.

(** For a legal move [apply_move] returns the board that [make_move]
    leaves: the disc placed and the discs of [flip_discs] flipped. *)
Lemma apply_move_make_move g row col color :
  wf_board (gboard g) → is_valid_move (gboard g) row col color = true →
  apply_move (gboard g) (Some (row, col)) color
  = Some (gboard (make_move (Some (row, col)) color g).2)
  ∧ gboard (make_move (Some (row, col)) color g).2
    = set_cells (set_cell (gboard g) row col color)
        (flip_discs (gboard g) row col color) color.
Proof.
  intros Hb Hv. pose proof (is_valid_move_position _ _ _ _ Hv) as Hp.
  rewrite apply_move_flips by done.
  unfold make_move, flip_discs. by rewrite Hv.
Qed.

(** On an empty cell that outflanks nothing, [apply_move] adds the disc
    and flips no disc. *)
Lemma apply_move_no_flip b row col color :
  wf_board b → is_valid_position row col = true →
  cell b row col = EMPTY → is_valid_move b row col color = false →
  apply_move b (Some (row, col)) color = Some (set_cell b row col color).
Proof.
  intros Hb Hp He Hv. rewrite apply_move_flips by done.
  rewrite flat_map_nil; [done|]. intros d Hd.
  unfold is_valid_move in Hv. rewrite Hp, He, Z.eqb_refl in Hv.
  cbn [negb] in Hv.
  destruct (flips_dir b color row col d) eqn:E; [done|].
  assert (existsb (outflanks b color row col) DIRECTIONS = true) as Hex;
    [|by rewrite Hex in Hv].
  apply existsb_exists. exists d. split; [done|].
  by rewrite outflanks_flips_dir, E.
Qed.

(** ** Claims about the rules engine *)

(** A position as the constructor builds it is well formed. *)
Lemma wf_init : wf_board (gboard init).
Proof. split; [reflexivity|repeat constructor]. Qed.

(** C3. For every board and colour, a move (row, col) is legal exactly when
    [flip_discs] returns a non-empty list for it, and [legal_moves] returns
    exactly the moves with that property, listed in row-major order.
    Applying a legal move with [apply_move] places the disc and flips
    exactly the discs that [flip_discs] lists. *)
Theorem legality_symmetry (b : board) (color : Z) :
  wf_board b →
  (∀ row col, is_valid_move b row col color = true ↔
              flip_discs b row col color ≠ []) ∧
  (∀ row col, In (row, col) (legal_moves b color) ↔
              flip_discs b row col color ≠ []) ∧
  StronglySorted row_major_lt (legal_moves b color) ∧
  (∀ row col, is_valid_move b row col color = true →
              apply_move b (Some (row, col)) color =
              Some (set_cells (set_cell b row col color)
                      (flip_discs b row col color) color)).
Proof.
  intros Hb. split_and!.
  - intros. apply is_valid_move_flip_discs.
  - intros. rewrite in_legal_moves. apply is_valid_move_flip_discs.
  - apply legal_moves_sorted.
  - intros row col Hv. pose proof (is_valid_move_position _ _ _ _ Hv) as Hp.
    rewrite apply_move_flips by done. unfold flip_discs. by rewrite Hv.
Qed.

Lemma legality_symmetry_witness :
  (∀ row col, is_valid_move (gboard init) row col BLACK = true ↔
              flip_discs (gboard init) row col BLACK ≠ []) ∧
  (∀ row col, In (row, col) (legal_moves (gboard init) BLACK) ↔
              flip_discs (gboard init) row col BLACK ≠ []) ∧
  StronglySorted row_major_lt (legal_moves (gboard init) BLACK) ∧
  (∀ row col, is_valid_move (gboard init) row col BLACK = true →
              apply_move (gboard init) (Some (row, col)) BLACK =
              Some (set_cells (set_cell (gboard init) row col BLACK)
                      (flip_discs (gboard init) row col BLACK) BLACK)).
Proof. apply (legality_symmetry (gboard init) BLACK). exact wf_init. Defined.

(** C9. The two move generators agree: [legal_moves] on the game's board
    and [get_legal_moves] on that same board return the same list. *)
Theorem legal_moves_get_legal_moves (b : board) (color : Z) :
  wf_board b → legal_moves b color = get_legal_moves b color.
Proof.
  intros _. unfold legal_moves, get_legal_moves.
  apply flat_map_ext_in. intros i Hi%in_range.
  apply flat_map_ext_in. intros j Hj%in_range.
  unfold is_valid_move.
  replace (is_valid_position i j) with true; [simpl|].
  - by destruct (negb (cell b i j =? EMPTY)),
         (existsb (outflanks b color i j) DIRECTIONS).
  - symmetry. apply is_valid_position_spec. unfold BOARD_SIZE in *. lia.
Qed.

Lemma legal_moves_get_legal_moves_witness :
  legal_moves (gboard init) WHITE = get_legal_moves (gboard init) WHITE.
Proof. apply legal_moves_get_legal_moves. exact wf_init. Defined.

(** C10. A pass, [make_move(None, color)], always succeeds: it returns True,
    appends a pass entry to the history and leaves the board as it is,
    whether or not the colour has legal moves (as Black has at the start). *)
Theorem make_move_pass (g : game) (color : Z) :
  make_move None color g =
    (true, {| gboard := gboard g;
              history := history g ++
                [{| e_move := None; e_color := color; e_flipped := [] |}] |})
  ∧ legal_moves (gboard init) BLACK ≠ []
  ∧ (make_move None BLACK init).1 = true.
Proof. split_and!; [reflexivity|by vm_compute|reflexivity]. Qed.

Lemma board_full_cell b r c :
  wf_board b → board_full b = true → is_valid_position r c = true →
  cell b r c ≠ EMPTY.
Proof.
  intros Hb Hfull [Hr Hc]%is_valid_position_spec.
  destruct (wf_board_row b r Hb Hr) as (row & Hrow & Hlen).
  destruct (lookup_lt_is_Some_2 row (Z.to_nat c)) as [x Hx]; [lia|].
  unfold cell. rewrite Hrow, Hx; simpl.
  unfold board_full in Hfull. rewrite forallb_forall in Hfull.
  apply list_elem_of_lookup_2, list_elem_of_In, Hfull in Hrow.
  rewrite forallb_forall in Hrow.
  apply list_elem_of_lookup_2, list_elem_of_In, Hrow in Hx.
  apply negb_true_iff, Z.eqb_neq in Hx. done.
Qed.

Lemma legal_moves_nil b color :
  legal_moves b color = [] ↔ ∀ row col, is_valid_move b row col color = false.
Proof.
  split.
  - intros E row col. apply not_true_is_false.
    rewrite <- in_legal_moves, E. by intros [].
  - intros H. destruct (legal_moves b color) as [|[r c] l] eqn:E; [done|].
    assert (In (r, c) (legal_moves b color)) as Hin by (rewrite E; by left).
    apply in_legal_moves in Hin. by rewrite H in Hin.
Qed.

Lemma wf_full_board : wf_board full_board.
Proof. split; [reflexivity|repeat constructor]. Qed.

Lemma wf_pass_board : wf_board pass_board.
Proof. split; [reflexivity|repeat constructor]. Qed.

(** C4. A position is game-over exactly when neither colour has a legal
    move; when one colour has none and the other has some, the game is not
    over; and a board with all 64 cells filled is game-over. *)
Theorem game_over_exact (b : board) :
  wf_board b →
  (is_game_over b = true ↔
     legal_moves b BLACK = [] ∧ legal_moves b WHITE = []) ∧
  ((legal_moves b BLACK = [] ∧ legal_moves b WHITE ≠ []) ∨
   (legal_moves b BLACK ≠ [] ∧ legal_moves b WHITE = []) →
   is_game_over b = false) ∧
  (board_full b = true → is_game_over b = true).
Proof.
  intros Hb.
  assert (is_game_over b = true ↔
     legal_moves b BLACK = [] ∧ legal_moves b WHITE = []) as Hiff.
  { unfold is_game_over.
    by rewrite andb_true_iff, !bool_decide_eq_true. }
  split_and!; [done| |].
  - intros H. apply not_true_is_false. rewrite Hiff. tauto.
  - intros Hfull. apply Hiff.
    split; apply legal_moves_nil; intros row col; unfold is_valid_move;
      destruct (is_valid_position row col) eqn:Hp; simpl; try done;
      pose proof (board_full_cell b row col Hb Hfull Hp) as Hne;
      apply Z.eqb_neq in Hne; by rewrite Hne.
Qed.

Lemma game_over_exact_witness :
  is_game_over full_board = true ∧ is_game_over pass_board = false.
Proof.
  split.
  - apply (game_over_exact full_board wf_full_board). reflexivity.
  - apply (game_over_exact pass_board wf_pass_board).
    right. split; [by vm_compute|reflexivity].
Defined.

(** C2. For every board, colour and move legal for that colour, [make_move]
    succeeds and [undo_last_move] right after it succeeds and gives back the
    game as it was: every cell of the board and the history. *)
Theorem undo_make_move (g : game) (row col color : Z) :
  wf_board (gboard g) →
  is_valid_move (gboard g) row col color = true →
  ∃ g', make_move (Some (row, col)) color g = (true, g') ∧
        undo_last_move g' = (true, g).
Proof.
  intros Hb Hv. unfold make_move. rewrite Hv; simpl.
  eexists. split; [reflexivity|].
  unfold undo_last_move; simpl. rewrite last_snoc; simpl.
  rewrite removelast_last. destruct g as [b h]; simpl in *. do 2 f_equal.
  pose proof (is_valid_move_position _ _ _ _ Hv) as Hp.
  pose proof (is_valid_move_empty _ _ _ _ Hv) as He.
  assert (Forall (fun p : pos => is_valid_position p.1 p.2 = true)
            (flip_discs b row col color)) as Hps.
  { apply Forall_forall. intros p Hin%list_elem_of_In.
    by apply flip_discs_cells in Hin as [? _]. }
  apply board_ext; [by repeat first [apply wf_set_cells|apply wf_set_cell]|done|].
  intros r c Hrc.
  rewrite cell_set_cells
    by (try done; by repeat first [apply wf_set_cells|apply wf_set_cell]).
  case_bool_decide as Hin.
  - apply list_elem_of_In, flip_discs_cells in Hin as [_ Hin]. done.
  - rewrite cell_set_cell by (try done; by apply wf_set_cells, wf_set_cell).
    case_bool_decide as Heq.
    + injection Heq as <- <-. done.
    + rewrite cell_set_cells by (try done; by apply wf_set_cell).
      rewrite bool_decide_eq_false_2 by done.
      rewrite cell_set_cell by done.
      by rewrite bool_decide_eq_false_2 by done.
Qed.

Lemma undo_make_move_witness :
  ∃ g', make_move (Some (2, 4)) BLACK init = (true, g') ∧
        undo_last_move g' = (true, init).
Proof. apply (undo_make_move init 2 4 BLACK); [exact wf_init|reflexivity]. Defined.

(** C1, as the code has it.  [make_move] rejects every move that is not
    legal for the colour: it returns False and leaves board and history as
    they were.  [apply_move] checks nothing: for every target inside the
    board, whether the move is legal or not, it returns an 8x8 board that
    holds the colour's disc on the target cell; when the target is empty
    and the move outflanks nothing, that board is the input with the disc
    added and no disc flipped. *)
Theorem illegal_move_handling (g : game) (row col color : Z) :
  wf_board (gboard g) →
  (is_valid_move (gboard g) row col color = false →
   make_move (Some (row, col)) color g = (false, g)) ∧
  (is_valid_position row col = true →
   ∃ b', apply_move (gboard g) (Some (row, col)) color = Some b' ∧
         wf_board b' ∧ cell b' row col = color) ∧
  (is_valid_position row col = true → cell (gboard g) row col = EMPTY →
   is_valid_move (gboard g) row col color = false →
   apply_move (gboard g) (Some (row, col)) color
   = Some (set_cell (gboard g) row col color)).
Proof.
  intros Hb. split_and!.
  - intros Hv. unfold make_move. by rewrite Hv.
  - intros Hp. by apply apply_move_in_range.
  - intros Hp He Hv. by apply apply_move_no_flip.
Qed.

Lemma illegal_move_handling_witness :
  make_move (Some (0, 0)) BLACK init = (false, init) ∧
  (∃ b', apply_move (gboard init) (Some (0, 0)) BLACK = Some b' ∧
         wf_board b' ∧ cell b' 0 0 = BLACK) ∧
  apply_move (gboard init) (Some (0, 0)) BLACK
  = Some (set_cell (gboard init) 0 0 BLACK).
Proof.
  destruct (illegal_move_handling init 0 0 BLACK) as (H1 & H2 & H3);
    [exact wf_init|].
  split_and!; [by apply H1|by apply H2|by apply H3].
Defined.

(** C1 fails for [apply_move]: at the start position the corner (0,0) is
    not a legal move for Black (it outflanks nothing), yet [apply_move]
    neither raises nor returns the input board: it returns the board with a
    Black disc added on (0,0) and no disc flipped. *)
Lemma apply_move_places_illegal_disc :
  is_valid_move (gboard init) 0 0 BLACK = false ∧
  flip_discs (gboard init) 0 0 BLACK = [] ∧
  apply_move (gboard init) (Some (0, 0)) BLACK
    = Some (set_cell (gboard init) 0 0 BLACK) ∧
  set_cell (gboard init) 0 0 BLACK ≠ gboard init.
Proof. split_and!; [reflexivity..|by vm_compute]. Qed.

(** C8, as the code has it.  The constructor puts Black on (3,3) and (4,4)
    and White on (3,4) and (4,3).  From there Black playing (2,4) flips
    exactly the White disc on (3,4) and leaves 4 Black discs and 1 White
    disc, with [make_move] and with [apply_move] alike; (2,3) is not a legal
    move for Black and [make_move] rejects it. *)
Theorem start_position_flip :
  cell (gboard init) 3 3 = BLACK ∧ cell (gboard init) 3 4 = WHITE ∧
  cell (gboard init) 4 3 = WHITE ∧ cell (gboard init) 4 4 = BLACK ∧
  flip_discs (gboard init) 2 4 BLACK = [(3, 4)] ∧
  (make_move (Some (2, 4)) BLACK init).1 = true ∧
  count_discs (gboard (make_move (Some (2, 4)) BLACK init).2) = (4, 1) ∧
  count_discs <$> apply_move (gboard init) (Some (2, 4)) BLACK = Some (4, 1) ∧
  make_move (Some (2, 3)) BLACK init = (false, init).
Proof. split_and!; reflexivity. Qed.

(** C8 fails at (2,3): that cell is below Black's own disc on (3,3), the
    move flips nothing, [make_move] leaves 2 Black and 2 White discs, and
    [apply_move] gives 3 Black and 2 White. *)
Lemma start_2_3_flips_nothing :
  ¬ (length (flip_discs (gboard init) 2 3 BLACK) = 1%nat ∧
     count_discs (gboard (make_move (Some (2, 3)) BLACK init).2) = (4, 1)) ∧
  flip_discs (gboard init) 2 3 BLACK = [] ∧
  count_discs (gboard (make_move (Some (2, 3)) BLACK init).2) = (2, 2) ∧
  count_discs <$> apply_move (gboard init) (Some (2, 3)) BLACK = Some (3, 2).
Proof.
  split_and!; [|reflexivity..].
  intros [H _]. vm_compute in H. discriminate.
Qed.

(** * Properties of the search *)

Lemma frame_refl s : frame s s.
Proof. by split. Qed.

Lemma frame_trans s1 s2 s3 : frame s1 s2 → frame s2 s3 → frame s1 s3.
Proof. intros [? ?] [? ?]. split; congruence. Qed.

Lemma unlimited_frame clock s s' : unlimited clock s → frame s s' → unlimited clock s'.
Proof. intros Hu [Hst _] t0 Ht0. apply Hu. congruence. Qed.

Lemma evaluate_evaluate_board color b : evaluate color b = evaluate_board b color.
Proof. unfold evaluate, evaluate_board. reflexivity. Qed.

Lemma bind_Some {A B} (m : M A) (f : A → M B) s a s' :
  m s = Some (a, s') → bind m f s = f a s'.
Proof. unfold bind. by intros ->. Qed.

Lemma get_legal_moves_valid b color :
  Forall (fun p : pos => is_valid_position p.1 p.2 = true) (get_legal_moves b color).
Proof.
  apply Forall_forall. intros [r c] Hin%list_elem_of_In.
  unfold get_legal_moves in Hin.
  apply in_flat_map in Hin as (i & Hi%in_range & (j & Hj%in_range & Hin)%in_flat_map).
  destruct (negb (cell b i j =? EMPTY)); [done|].
  destruct (existsb (outflanks b color i j) DIRECTIONS); [|done].
  destruct Hin as [[= <- <-]|[]]. apply is_valid_position_spec.
  unfold BOARD_SIZE in *. simpl. lia.
Qed.

Lemma successor_apply_move b move color :
  wf_board b → is_valid_position move.1 move.2 = true →
  apply_move b (Some move) color = Some (successor b move color) ∧
  wf_board (successor b move color).
Proof.
  intros Hb Hp. destruct move as [row col].
  destruct (apply_move_in_range b row col color Hb Hp) as (b' & E & Hb' & _).
  unfold successor. rewrite E. done.
Qed.

Section SearchFacts.

Variable clock : nat → Z.
Variable color : Z.

Lemma incr_nodes_frame s : ∃ s', incr_nodes s = Some (tt, s') ∧ frame s s'.
Proof. eexists. split; [reflexivity|by split]. Qed.

Lemma time_exceeded_frame s :
  ∃ te s', time_exceeded clock s = Some (te, s') ∧ frame s s'.
Proof.
  unfold time_exceeded. destruct (start_time s) eqn:E.
  - do 2 eexists. split; [reflexivity|by split].
  - do 2 eexists. split; [reflexivity|by split].
Qed.

Lemma time_exceeded_unlimited s :
  unlimited clock s →
  ∃ s', time_exceeded clock s = Some (false, s') ∧ frame s s'.
Proof.
  intros Hu. unfold time_exceeded. destruct (start_time s) as [t0|] eqn:E.
  - assert ((clock (ticks s) - t0 >=? TIME_LIMIT) = false) as ->.
    { specialize (Hu t0 E (ticks s)). rewrite Z.geb_leb. apply Z.leb_gt. lia. }
    eexists. split; [reflexivity|by split].
  - eexists. split; [reflexivity|by split].
Qed.

(** *** With unlimited time the main search is [ab] *)

Lemma max_loop_ab rec prec b c beta moves best max_eval alpha s :
  wf_board b →
  Forall (fun p : pos => is_valid_position p.1 p.2 = true) moves →
  unlimited clock s →
  (∀ nb a bt s0, wf_board nb → unlimited clock s0 →
     ∃ s', rec nb a bt s0 = Some (prec nb a bt, s') ∧ frame s0 s') →
  ∃ s', max_loop clock rec b c beta moves best max_eval alpha s
          = Some (ab_max_loop prec b c beta moves best max_eval alpha, s')
        ∧ frame s s'.
Proof.
  intros Hb Hmoves Hu Hrec. revert best max_eval alpha s Hu.
  induction Hmoves as [|move rest Hmove Hrest IH];
    intros best max_eval alpha s Hu; simpl.
  - eexists. split; [reflexivity|apply frame_refl].
  - destruct (time_exceeded_unlimited s Hu) as (s1 & E1 & F1).
    rewrite (bind_Some _ _ _ _ _ E1).
    destruct (successor_apply_move b move c Hb Hmove) as [E2 Hb2].
    unfold lift at 1. rewrite E2. unfold bind at 1.
    destruct (Hrec (successor b move c) alpha beta s1 Hb2) as (s2 & E3 & F2);
      [by eapply unlimited_frame|].
    rewrite (bind_Some _ _ _ _ _ E3).
    destruct (prec (successor b move c) alpha beta) as [mv eval_val].
    destruct (ext_lt max_eval eval_val || bool_decide (best = None));
      (destruct (ext_le beta (ext_max alpha eval_val));
       [eexists; split; [reflexivity|by eapply frame_trans]|]);
      (edestruct IH as (s3 & -> & F3);
       [by eapply unlimited_frame, frame_trans
       |eexists; split; [reflexivity|by eauto using frame_trans]]).
Qed.

Lemma min_loop_ab rec prec b c alpha moves best min_eval beta s :
  wf_board b →
  Forall (fun p : pos => is_valid_position p.1 p.2 = true) moves →
  unlimited clock s →
  (∀ nb a bt s0, wf_board nb → unlimited clock s0 →
     ∃ s', rec nb a bt s0 = Some (prec nb a bt, s') ∧ frame s0 s') →
  ∃ s', min_loop clock rec b c alpha moves best min_eval beta s
          = Some (ab_min_loop prec b c alpha moves best min_eval beta, s')
        ∧ frame s s'.
Proof.
  intros Hb Hmoves Hu Hrec. revert best min_eval beta s Hu.
  induction Hmoves as [|move rest Hmove Hrest IH];
    intros best min_eval beta s Hu; simpl.
  - eexists. split; [reflexivity|apply frame_refl].
  - destruct (time_exceeded_unlimited s Hu) as (s1 & E1 & F1).
    rewrite (bind_Some _ _ _ _ _ E1).
    destruct (successor_apply_move b move c Hb Hmove) as [E2 Hb2].
    unfold lift at 1. rewrite E2. unfold bind at 1.
    destruct (Hrec (successor b move c) alpha beta s1 Hb2) as (s2 & E3 & F2);
      [by eapply unlimited_frame|].
    rewrite (bind_Some _ _ _ _ _ E3).
    destruct (prec (successor b move c) alpha beta) as [mv eval_val].
    destruct (ext_lt eval_val min_eval || bool_decide (best = None));
      (destruct (ext_le (ext_min beta eval_val) alpha);
       [eexists; split; [reflexivity|by eapply frame_trans]|]);
      (edestruct IH as (s3 & -> & F3);
       [by eapply unlimited_frame, frame_trans
       |eexists; split; [reflexivity|by eauto using frame_trans]]).
Qed.

Lemma alphabeta_search_ab depth b alpha beta maximizing s :
  wf_board b → unlimited clock s →
  ∃ s', alphabeta_search clock color depth b alpha beta maximizing s
          = Some (ab color depth b alpha beta maximizing, s')
        ∧ frame s s'.
Proof.
  revert b alpha beta maximizing s.
  induction depth as [|depth IH]; intros b alpha beta maximizing s Hb Hu;
    destruct (incr_nodes_frame s) as (s1 & E1 & F1);
    cbn [alphabeta_search ab]; rewrite (bind_Some _ _ _ _ _ E1);
    rewrite evaluate_evaluate_board.
  - eexists. split; [reflexivity|done].
  - cbv zeta.
    case_bool_decide as Hnil.
    { eexists. split; [reflexivity|done]. }
    destruct (time_exceeded_unlimited s1) as (s2 & E2 & F2);
      [by eapply unlimited_frame|].
    rewrite (bind_Some _ _ _ _ _ E2).
    assert (unlimited clock s2) as Hu2 by eauto using unlimited_frame, frame_trans.
    destruct maximizing.
    + edestruct (max_loop_ab (fun nb a bt => alphabeta_search clock color depth nb a bt false)
                   (fun nb a bt => ab color depth nb a bt false))
        as (s3 & -> & F3);
        [exact Hb|apply get_legal_moves_valid|exact Hu2|by intros; apply IH|].
      eexists. split; [reflexivity|by eauto using frame_trans].
    + edestruct (min_loop_ab (fun nb a bt => alphabeta_search clock color depth nb a bt true)
                   (fun nb a bt => ab color depth nb a bt true))
        as (s3 & -> & F3);
        [exact Hb|apply get_legal_moves_valid|exact Hu2|by intros; apply IH|].
      eexists. split; [reflexivity|by eauto using frame_trans].
Qed.

End SearchFacts.

(** *** Alpha-beta against full-width minimax *)

Ltac ext_cases :=
  unfold fail_soft, ext_le, ext_max, ext_min, ext_lt in *;
  repeat match goal with
         | x : ext |- _ => destruct x
         end;
  simpl in *;
  repeat match goal with
         | H : context [Z.ltb ?x ?y] |- _ => destruct (Z.ltb_spec x y); simpl in H
         | |- context [Z.ltb ?x ?y] => destruct (Z.ltb_spec x y); simpl
         | H : Fin _ = Fin _ |- _ => injection H as H
         | H : ?x = ?x → _ |- _ => specialize (H eq_refl)
         | H : false = true → _ |- _ => clear H
         end;
  simplify_eq; simpl in *.

Lemma first_best_max_mono (l : list (pos * Z)) (acc : pos * Z) :
  acc.2 ≤ (foldl (fun best y => if y.2 >? best.2 then y else best) acc l).2.
Proof.
  revert acc. induction l as [|y l IH]; intros acc; simpl; [lia|].
  etrans; [|apply IH]. destruct (Z.gtb_spec y.2 acc.2); simpl; lia.
Qed.

Lemma first_best_min_mono (l : list (pos * Z)) (acc : pos * Z) :
  (foldl (fun best y => if y.2 <? best.2 then y else best) acc l).2 ≤ acc.2.
Proof.
  revert acc. induction l as [|y l IH]; intros acc; simpl; [lia|].
  etrans; [apply IH|]. destruct (Z.ltb_spec y.2 acc.2); simpl; lia.
Qed.

Section FailSoft.

Variable prec : board → ext → ext → option pos * ext.
Variable child_val : pos → Z.
Variable b : board.
Variable c : Z.

Hypothesis prec_fail_soft : ∀ mv a bt,
  ext_lt a bt = true →
  fail_soft a bt (prec (successor b mv c) a bt).2 (child_val mv).

Lemma ab_max_loop_fail_soft alpha beta rest bm m a bm0 vp :
  a = ext_max alpha (Fin m) → ext_lt a beta = true → vp ≤ m →
  (ext_lt alpha (Fin m) = true → m = vp ∧ bm = bm0) →
  let r' := ab_max_loop prec b c beta rest (Some bm) (Fin m) a in
  let r := foldl (fun best y => if y.2 >? best.2 then y else best) (bm0, vp)
             (map (fun mv => (mv, child_val mv)) rest) in
  fail_soft alpha beta r'.2 r.2 ∧
  (∀ z, r'.2 = Fin z → ext_lt alpha (Fin z) = true →
        ext_lt (Fin z) beta = true → r'.1 = Some r.1).
Proof.
  revert bm m a bm0 vp.
  induction rest as [|mv rest' IH]; intros bm m a bm0 vp Ha Hlt Hvp Hex.
  - simpl. split.
    + exists m. split_and!; [done|..]; intros; ext_cases; try lia.
      all: try (destruct Hex; [done|]; lia).
    + intros z [= <-] H1 H2. destruct Hex as [_ ->]; done.
  - cbn [ab_max_loop map foldl].
    pose proof (prec_fail_soft mv a beta Hlt) as Hfs.
    destruct (prec (successor b mv c) a beta) as [mv' e]. cbn [snd] in Hfs.
    destruct Hfs as (ez & -> & Hlo & Hhi & Hmid).
    rewrite (bool_decide_eq_false_2 (Some bm = None)) by done.
    rewrite orb_false_r.
    pose proof (first_best_max_mono (map (fun mv => (mv, child_val mv)) rest')
                  (if (mv, child_val mv).2 >? (bm0, vp).2
                   then (mv, child_val mv) else (bm0, vp))) as Hmono.
    destruct (ext_le beta (ext_max a (Fin ez))) eqn:Hcut.
    + (* cut-off *)
      clear IH. cbn [fst snd] in *.
      set (R := foldl _ _ _) in *. clearbody R.
      destruct (Z.gtb_spec (child_val mv) vp); cbn [fst snd] in *;
        subst a; destruct (ext_lt (Fin m) (Fin ez)) eqn:Hm; cbn [fst snd];
        (split; [eexists; split_and!; [reflexivity|..]|intros z [= <-]]);
        intros; ext_cases; try lia.
    + clear Hmono. cbn [fst snd].
      destruct (ext_lt (Fin m) (Fin ez)) eqn:Hm;
        destruct (Z.gtb_spec (child_val mv) vp); cbn [fst snd]; cbv zeta;
        apply IH; subst a; ext_cases; try done; try lia;
        try (intuition (congruence || lia)).
Qed.

Lemma ab_min_loop_fail_soft alpha beta rest bm m bt bm0 vp :
  bt = ext_min beta (Fin m) → ext_lt alpha bt = true → m ≤ vp →
  (ext_lt (Fin m) beta = true → m = vp ∧ bm = bm0) →
  let r' := ab_min_loop prec b c alpha rest (Some bm) (Fin m) bt in
  let r := foldl (fun best y => if y.2 <? best.2 then y else best) (bm0, vp)
             (map (fun mv => (mv, child_val mv)) rest) in
  fail_soft alpha beta r'.2 r.2 ∧
  (∀ z, r'.2 = Fin z → ext_lt alpha (Fin z) = true →
        ext_lt (Fin z) beta = true → r'.1 = Some r.1).
Proof.
  revert bm m bt bm0 vp.
  induction rest as [|mv rest' IH]; intros bm m bt bm0 vp Hbt Hlt Hvp Hex.
  - simpl. split.
    + exists m. split_and!; [done|..]; intros; ext_cases; try lia.
      all: try (destruct Hex; [done|]; lia).
    + intros z [= <-] H1 H2. destruct Hex as [_ ->]; done.
  - cbn [ab_min_loop map foldl].
    pose proof (prec_fail_soft mv alpha bt Hlt) as Hfs.
    destruct (prec (successor b mv c) alpha bt) as [mv' e]. cbn [snd] in Hfs.
    destruct Hfs as (ez & -> & Hlo & Hhi & Hmid).
    rewrite (bool_decide_eq_false_2 (Some bm = None)) by done.
    rewrite orb_false_r.
    pose proof (first_best_min_mono (map (fun mv => (mv, child_val mv)) rest')
                  (if (mv, child_val mv).2 <? (bm0, vp).2
                   then (mv, child_val mv) else (bm0, vp))) as Hmono.
    destruct (ext_le (ext_min bt (Fin ez)) alpha) eqn:Hcut.
    + clear IH. cbn [fst snd] in *.
      set (R := foldl _ _ _) in *. clearbody R.
      destruct (Z.ltb_spec (child_val mv) vp); cbn [fst snd] in *;
        subst bt; destruct (ext_lt (Fin ez) (Fin m)) eqn:Hm; cbn [fst snd];
        (split; [eexists; split_and!; [reflexivity|..]|intros z [= <-]]);
        intros; ext_cases; try lia.
    + clear Hmono. cbn [fst snd].
      destruct (ext_lt (Fin ez) (Fin m)) eqn:Hm;
        destruct (Z.ltb_spec (child_val mv) vp); cbn [fst snd]; cbv zeta;
        apply IH; subst bt; ext_cases; try done; try lia;
        try (intuition (congruence || lia)).
Qed.

(** A maximizing node with at least one move, searched from scratch. *)
Lemma ab_max_node alpha beta first others :
  ext_lt alpha beta = true →
  let r' := ab_max_loop prec b c beta (first :: others) None NegInf alpha in
  let r := first_best Z.gtb (first, child_val first)
             (map (fun mv => (mv, child_val mv)) others) in
  fail_soft alpha beta r'.2 r.2 ∧
  (∀ z, r'.2 = Fin z → ext_lt alpha (Fin z) = true →
        ext_lt (Fin z) beta = true → r'.1 = Some r.1).
Proof.
  intros Hlt. cbn [ab_max_loop]. unfold first_best.
  pose proof (prec_fail_soft first alpha beta Hlt) as Hfs.
  destruct (prec (successor b first c) alpha beta) as [mv' e]. cbn [snd] in Hfs.
  destruct Hfs as (ez & -> & Hlo & Hhi & Hmid).
  rewrite bool_decide_eq_true_2, orb_true_r by done.
  pose proof (first_best_max_mono (map (fun mv => (mv, child_val mv)) others)
                (first, child_val first)) as Hmono.
  destruct (ext_le beta (ext_max alpha (Fin ez))) eqn:Hcut.
  - set (R := foldl _ _ _) in *. clearbody R. cbn [fst snd] in *.
    (split; [eexists; split_and!; [reflexivity|..]|intros z [= <-]]);
      intros; ext_cases; try lia.
  - apply ab_max_loop_fail_soft; ext_cases; try done; try lia;
      try (intuition (congruence || lia)).
Qed.

(** A minimizing node with at least one move, searched from scratch. *)
Lemma ab_min_node alpha beta first others :
  ext_lt alpha beta = true →
  let r' := ab_min_loop prec b c alpha (first :: others) None PosInf beta in
  let r := first_best Z.ltb (first, child_val first)
             (map (fun mv => (mv, child_val mv)) others) in
  fail_soft alpha beta r'.2 r.2 ∧
  (∀ z, r'.2 = Fin z → ext_lt alpha (Fin z) = true →
        ext_lt (Fin z) beta = true → r'.1 = Some r.1).
Proof.
  intros Hlt. cbn [ab_min_loop]. unfold first_best.
  pose proof (prec_fail_soft first alpha beta Hlt) as Hfs.
  destruct (prec (successor b first c) alpha beta) as [mv' e]. cbn [snd] in Hfs.
  destruct Hfs as (ez & -> & Hlo & Hhi & Hmid).
  rewrite bool_decide_eq_true_2, orb_true_r by done.
  pose proof (first_best_min_mono (map (fun mv => (mv, child_val mv)) others)
                (first, child_val first)) as Hmono.
  destruct (ext_le (ext_min beta (Fin ez)) alpha) eqn:Hcut.
  - set (R := foldl _ _ _) in *. clearbody R. cbn [fst snd] in *.
    (split; [eexists; split_and!; [reflexivity|..]|intros z [= <-]]);
      intros; ext_cases; try lia.
  - apply ab_min_loop_fail_soft; ext_cases; try done; try lia;
      try (intuition (congruence || lia)).
Qed.

End FailSoft.

(** The search [ab] with window [(alpha, beta)] is fail-soft around the
    minimax value of the node, and inside the window it also picks the
    minimax move. *)
Lemma ab_fail_soft color d b alpha beta mp :
  ext_lt alpha beta = true →
  fail_soft alpha beta (ab color d b alpha beta mp).2 (minimax color d b mp).2 ∧
  (∀ z, (ab color d b alpha beta mp).2 = Fin z →
        ext_lt alpha (Fin z) = true → ext_lt (Fin z) beta = true →
        (ab color d b alpha beta mp).1 = (minimax color d b mp).1).
Proof.
  revert b alpha beta mp.
  assert (∀ alpha beta e, fail_soft alpha beta (@pair (option pos) _ None (Fin e)).2
                 (@pair (option pos) _ None e).2 ∧
               (∀ z, (@pair (option pos) _ None (Fin e)).2 = Fin z →
                     ext_lt alpha (Fin z) = true → ext_lt (Fin z) beta = true →
                     (@pair (option pos) _ None (Fin e)).1
                     = (@pair (option pos) Z None e).1)) as Hleaf.
  { intros alpha beta e. split; [|done].
    exists e. split_and!; [done|intros; simpl; lia..]. }
  induction d as [|d IH]; intros b alpha beta mp Hlt; cbn [ab minimax].
  - apply Hleaf.
  - destruct (get_legal_moves b (if mp then color else - color))
      as [|first others] eqn:E; cbn [map].
    { rewrite bool_decide_eq_true_2 by done. apply Hleaf. }
    rewrite bool_decide_eq_false_2 by done.
    destruct mp; cbn [negb].
    + pose proof (ab_max_node (fun nb a bt => ab color d nb a bt false)
                    (fun mv => (minimax color d (successor b mv color) false).2)
                    b color (fun mv a bt H => proj1 (IH _ a bt false H))
                    alpha beta first others Hlt) as H.
      cbv zeta in H.
      destruct (first_best Z.gtb _ _) as [move score]. exact H.
    + pose proof (ab_min_node (fun nb a bt => ab color d nb a bt true)
                    (fun mv => (minimax color d (successor b mv (- color)) true).2)
                    b (- color) (fun mv a bt H => proj1 (IH _ a bt true H))
                    alpha beta first others Hlt) as H.
      cbv zeta in H.
      destruct (first_best Z.ltb _ _) as [move score]. exact H.
Qed.

(** With the full window the search returns the minimax move and score. *)
Lemma ab_minimax color d b mp :
  ab color d b NegInf PosInf mp =
  ((minimax color d b mp).1, Fin (minimax color d b mp).2).
Proof.
  destruct (ab_fail_soft color d b NegInf PosInf mp eq_refl)
    as [(z & Hz & _ & _ & Hmid) Hmove].
  specialize (Hmove z Hz eq_refl eq_refl). specialize (Hmid eq_refl eq_refl).
  destruct (ab color d b NegInf PosInf mp) as [mv v]. simpl in *. congruence.
Qed.

(** *** With unlimited time a worker computes [ab] *)

Section WorkerFacts.

Variable wclock : nat → Z.
Variable color : Z.
Variable st : option Z.

Hypothesis Hunlimited : worker_unlimited wclock st.

Lemma w_time_exceeded_unlimited k te k' :
  w_time_exceeded wclock st TIME_LIMIT k = Some (te, k') → te = false.
Proof.
  unfold w_time_exceeded. destruct st as [t0|] eqn:E; [|done].
  intros [= <- _]. specialize (Hunlimited t0 eq_refl k).
  rewrite Z.geb_leb. apply Z.leb_gt. lia.
Qed.

Lemma w_max_loop_ab rec prec b nc beta moves best value alpha k r k' :
  (∀ nb a bt k0 r0 k0', rec nb a bt k0 = Some (r0, k0') → r0 = (prec nb a bt).2) →
  (best = None → value = NegInf) →
  w_max_loop rec b nc beta moves value alpha k = Some (r, k') →
  r = (ab_max_loop prec b nc beta moves best value alpha).2.
Proof.
  intros Hrec. revert best value alpha k.
  induction moves as [|m rest IH]; intros best value alpha k Hbest; simpl.
  - by intros [= <- _].
  - unfold successor.
    destruct (apply_move b (Some m) nc) as [child|]; [simpl|done].
    destruct (rec child alpha beta k) as [[e k1]|] eqn:E; [simpl|done].
    apply Hrec in E. destruct (prec child alpha beta) as [mv e']. simpl in E.
    subst e'.
    assert ((if ext_lt value e || bool_decide (best = None)
             then (e, Some m) else (value, best)).1 = ext_max value e) as Hv.
    { unfold ext_max. destruct best as [bm|].
      - rewrite bool_decide_eq_false_2, orb_false_r by done.
        by destruct (ext_lt value e).
      - rewrite Hbest by done. by destruct e. }
    destruct (ext_lt value e || bool_decide (best = None)) eqn:Hupd;
      simpl in Hv; rewrite <- Hv;
      (destruct (ext_le beta (ext_max alpha e)); [by intros [= <- _]|]);
      apply IH; [done|].
    intros ->. by rewrite orb_true_r in Hupd.
Qed.

Lemma w_min_loop_ab rec prec b nc alpha moves best value beta k r k' :
  (∀ nb a bt k0 r0 k0', rec nb a bt k0 = Some (r0, k0') → r0 = (prec nb a bt).2) →
  (best = None → value = PosInf) →
  w_min_loop rec b nc alpha moves value beta k = Some (r, k') →
  r = (ab_min_loop prec b nc alpha moves best value beta).2.
Proof.
  intros Hrec. revert best value beta k.
  induction moves as [|m rest IH]; intros best value beta k Hbest; simpl.
  - by intros [= <- _].
  - unfold successor.
    destruct (apply_move b (Some m) nc) as [child|]; [simpl|done].
    destruct (rec child alpha beta k) as [[e k1]|] eqn:E; [simpl|done].
    apply Hrec in E. destruct (prec child alpha beta) as [mv e']. simpl in E.
    subst e'.
    assert ((if ext_lt e value || bool_decide (best = None)
             then (e, Some m) else (value, best)).1 = ext_min value e) as Hv.
    { unfold ext_min. destruct best as [bm|].
      - rewrite bool_decide_eq_false_2, orb_false_r by done.
        by destruct (ext_lt e value).
      - rewrite Hbest by done. by destruct e. }
    destruct (ext_lt e value || bool_decide (best = None)) eqn:Hupd;
      simpl in Hv; rewrite <- Hv;
      (destruct (ext_le (ext_min beta e) alpha); [by intros [= <- _]|]);
      apply IH; [done|].
    intros ->. by rewrite orb_true_r in Hupd.
Qed.

Lemma w_alphabeta_ab d b alpha beta maximizing k r k' :
  w_alphabeta wclock color st TIME_LIMIT d b alpha beta maximizing k = Some (r, k') →
  r = (ab color d b alpha beta maximizing).2.
Proof.
  revert b alpha beta maximizing k r k'.
  induction d as [|d IH]; intros b alpha beta maximizing k r k';
    cbn [w_alphabeta ab]; cbv zeta.
  - by intros [= <- _].
  - case_bool_decide as Hnil; [by intros [= <- _]|].
    destruct (w_time_exceeded wclock st TIME_LIMIT k) as [[te k1]|] eqn:E;
      [|done].
    apply w_time_exceeded_unlimited in E as ->. simpl.
    destruct maximizing.
    + apply w_max_loop_ab; [|done]. intros nb a bt k0 r0 k0'. apply IH.
    + apply w_min_loop_ab; [|done]. intros nb a bt k0 r0 k0'. apply IH.
Qed.

Lemma _parallel_worker_minimax b move depth r :
  _parallel_worker wclock color st TIME_LIMIT b move depth = Some r →
  r = (move, Fin (minimax color (Nat.pred depth) (successor b move color) false).2).
Proof.
  unfold _parallel_worker, successor.
  destruct (apply_move b (Some move) color) as [nb|]; [simpl|done].
  destruct (w_alphabeta _ _ _ _ _ _ _ _ _ _) as [[score k]|] eqn:E; [simpl|done].
  apply w_alphabeta_ab in E. rewrite ab_minimax in E. simpl in E.
  by intros [= <-]; subst.
Qed.

End WorkerFacts.

(** *** The root searches with unlimited time *)

Section RootFacts.

Variable clock : nat → Z.
Variable cpu_count : nat.
Variable pool_raises : nat → bool.
Variable worker_clock : nat → nat → nat → Z.
Variable color : Z.

#[local] Abbreviation root_val := (root_val color).

Lemma root_loop_ab b depth moves best best_score alpha s :
  wf_board b →
  Forall (fun p : pos => is_valid_position p.1 p.2 = true) moves →
  unlimited clock s → ext_lt alpha PosInf = true →
  ∃ s', root_loop clock color b depth moves best best_score alpha s
          = Some (ab_max_loop (fun nb a bt => ab color (Nat.pred depth) nb a bt false)
                    b color PosInf moves best best_score alpha, s')
        ∧ frame s s'.
Proof.
  intros Hb Hmoves. revert best best_score alpha s.
  induction Hmoves as [|move rest Hmove Hrest IH];
    intros best best_score alpha s Hu Halpha; simpl.
  - eexists. split; [reflexivity|apply frame_refl].
  - destruct (time_exceeded_unlimited clock s Hu) as (s1 & E1 & F1).
    rewrite (bind_Some _ _ _ _ _ E1).
    destruct (successor_apply_move b move color Hb Hmove) as [E2 Hb2].
    unfold lift at 1. rewrite E2. unfold bind at 1.
    destruct (alphabeta_search_ab clock color (Nat.pred depth)
                (successor b move color) alpha PosInf false s1 Hb2)
      as (s2 & E3 & F2); [by eapply unlimited_frame|].
    rewrite (bind_Some _ _ _ _ _ E3).
    destruct (ab_fail_soft color (Nat.pred depth) (successor b move color)
                alpha PosInf false Halpha) as [(ez & Hez & _) _].
    destruct (ab color (Nat.pred depth) (successor b move color) alpha PosInf false)
      as [mv eval_val].
    simpl in Hez. subst eval_val.
    assert (ext_lt (ext_max alpha (Fin ez)) PosInf = true) as Ha'
      by (clear -Halpha; ext_cases; done).
    assert (ext_le PosInf (ext_max alpha (Fin ez)) = false) as ->
      by (unfold ext_le; by rewrite Ha').
    destruct (ext_lt best_score (Fin ez) || bool_decide (best = None));
      (edestruct IH as (s3 & -> & F3);
       [by eapply unlimited_frame, frame_trans|exact Ha'
       |eexists; split; [reflexivity|by eauto using frame_trans]]).
Qed.

(** The sequential root search returns the first root move of maximal
    exact score, with that score. *)
Lemma _root_search_sequential_first_best b depth first others s :
  wf_board b →
  Forall (fun p : pos => is_valid_position p.1 p.2 = true) (first :: others) →
  unlimited clock s →
  let r := first_best Z.gtb (first, root_val b depth first)
             (map (fun mv => (mv, root_val b depth mv)) others) in
  ∃ s', _root_search_sequential clock color b (first :: others) depth s
          = Some ((Some r.1, Fin r.2), s')
        ∧ frame s s'.
Proof.
  intros Hb Hmoves Hu r. unfold _root_search_sequential.
  destruct (root_loop_ab b depth (first :: others) None NegInf NegInf s)
    as (s' & -> & F); [done..|].
  exists s'. split; [|done]. do 2 f_equal.
  destruct (ab_max_node (fun nb a bt => ab color (Nat.pred depth) nb a bt false)
              (root_val b depth) b color
              (fun mv a bt H => proj1 (ab_fail_soft color _ _ a bt false H))
              NegInf PosInf first others eq_refl)
    as [(z & Hz & _ & _ & Hmid) Hmove].
  specialize (Hmove z Hz eq_refl eq_refl). specialize (Hmid eq_refl eq_refl).
  fold r in Hmid, Hmove.
  destruct (ab_max_loop _ _ _ _ _ _ _ _) as [mv v]. simpl in *. congruence.
Qed.

(** Python's [max] with the score as key picks the same element. *)
Lemma py_max_key_first_best (val : pos → Z) first others :
  py_max_key (map (fun mv => (mv, Fin (val mv))) (first :: others)) =
  let r := first_best Z.gtb (first, val first)
             (map (fun mv => (mv, val mv)) others) in
  Some (r.1, Fin r.2).
Proof.
  unfold py_max_key, first_best. cbn [map]. cbv zeta. f_equal.
  generalize (val first) as v. generalize first as bm.
  induction others as [|mv others IH]; intros bm v; simpl; [done|].
  rewrite Z.gtb_ltb.
  destruct (v <? val mv); apply IH.
Qed.

Lemma mapM_imap_results {A B} (f : nat → A → option B) (g : A → B) l results :
  (∀ i x y, f i x = Some y → y = g x) →
  mapM (fun task => task) (imap f l) = Some results →
  results = map g l.
Proof.
  intros Hf. revert f Hf results.
  induction l as [|x l IH]; intros f Hf results; simpl.
  - by intros [= <-].
  - destruct (f 0%nat x) as [y|] eqn:E; [simpl|done].
    destruct (mapM (fun task => task) (imap (f ∘ S) l)) as [ys|] eqn:E'; [simpl|done].
    intros [= <-]. f_equal; [by eapply Hf|].
    apply (IH (f ∘ S)); [|done]. intros i x' y'. apply Hf.
Qed.

Lemma pool_map_results call st b moves depth results :
  (∀ i, worker_unlimited (worker_clock call i) st) →
  pool_map worker_clock color call st b moves depth = Some results →
  results = map (fun mv => (mv, Fin (root_val b depth mv))) moves.
Proof.
  intros Hu. unfold pool_map. apply mapM_imap_results.
  intros i mv y. by apply _parallel_worker_minimax.
Qed.

End RootFacts.

(** *** The search returns, whatever the clock says *)

Section TotalFacts.

Variable clock : nat → Z.
Variable cpu_count : nat.
Variable pool_raises : nat → bool.
Variable worker_clock : nat → nat → nat → Z.
Variable color : Z.

Lemma max_loop_total rec b c beta moves best max_eval alpha s :
  wf_board b →
  Forall (fun p : pos => is_valid_position p.1 p.2 = true) moves →
  (∀ nb a bt s0, wf_board nb →
     ∃ r s', rec nb a bt s0 = Some (r, s') ∧ frame s0 s') →
  ∃ r s', max_loop clock rec b c beta moves best max_eval alpha s = Some (r, s')
          ∧ frame s s'.
Proof.
  intros Hb Hmoves Hrec. revert best max_eval alpha s.
  induction Hmoves as [|move rest Hmove Hrest IH];
    intros best max_eval alpha s; simpl.
  - do 2 eexists. split; [reflexivity|apply frame_refl].
  - destruct (time_exceeded_frame clock s) as (te & s1 & E1 & F1).
    rewrite (bind_Some _ _ _ _ _ E1).
    destruct te; [do 2 eexists; split; [reflexivity|done]|].
    destruct (successor_apply_move b move c Hb Hmove) as [E2 Hb2].
    unfold lift at 1. rewrite E2. unfold bind at 1.
    destruct (Hrec (successor b move c) alpha beta s1 Hb2)
      as ([mv eval_val] & s2 & E3 & F2).
    rewrite (bind_Some _ _ _ _ _ E3).
    destruct (ext_lt max_eval eval_val || bool_decide (best = None));
      (destruct (ext_le beta (ext_max alpha eval_val));
       [do 2 eexists; split; [reflexivity|by eapply frame_trans]|]);
      (edestruct IH as (r & s3 & -> & F3);
       do 2 eexists; split; [reflexivity|by eauto using frame_trans]).
Qed.

Lemma min_loop_total rec b c alpha moves best min_eval beta s :
  wf_board b →
  Forall (fun p : pos => is_valid_position p.1 p.2 = true) moves →
  (∀ nb a bt s0, wf_board nb →
     ∃ r s', rec nb a bt s0 = Some (r, s') ∧ frame s0 s') →
  ∃ r s', min_loop clock rec b c alpha moves best min_eval beta s = Some (r, s')
          ∧ frame s s'.
Proof.
  intros Hb Hmoves Hrec. revert best min_eval beta s.
  induction Hmoves as [|move rest Hmove Hrest IH];
    intros best min_eval beta s; simpl.
  - do 2 eexists. split; [reflexivity|apply frame_refl].
  - destruct (time_exceeded_frame clock s) as (te & s1 & E1 & F1).
    rewrite (bind_Some _ _ _ _ _ E1).
    destruct te; [do 2 eexists; split; [reflexivity|done]|].
    destruct (successor_apply_move b move c Hb Hmove) as [E2 Hb2].
    unfold lift at 1. rewrite E2. unfold bind at 1.
    destruct (Hrec (successor b move c) alpha beta s1 Hb2)
      as ([mv eval_val] & s2 & E3 & F2).
    rewrite (bind_Some _ _ _ _ _ E3).
    destruct (ext_lt eval_val min_eval || bool_decide (best = None));
      (destruct (ext_le (ext_min beta eval_val) alpha);
       [do 2 eexists; split; [reflexivity|by eapply frame_trans]|]);
      (edestruct IH as (r & s3 & -> & F3);
       do 2 eexists; split; [reflexivity|by eauto using frame_trans]).
Qed.

Lemma alphabeta_search_total depth b alpha beta maximizing s :
  wf_board b →
  ∃ r s', alphabeta_search clock color depth b alpha beta maximizing s
            = Some (r, s') ∧ frame s s'.
Proof.
  revert b alpha beta maximizing s.
  induction depth as [|depth IH]; intros b alpha beta maximizing s Hb;
    destruct (incr_nodes_frame s) as (s1 & E1 & F1);
    cbn [alphabeta_search]; rewrite (bind_Some _ _ _ _ _ E1).
  - do 2 eexists. split; [reflexivity|done].
  - cbv zeta. case_bool_decide as Hnil.
    { do 2 eexists. split; [reflexivity|done]. }
    destruct (time_exceeded_frame clock s1) as (te & s2 & E2 & F2).
    rewrite (bind_Some _ _ _ _ _ E2).
    destruct te; [do 2 eexists; split; [reflexivity|by eapply frame_trans]|].
    destruct maximizing.
    + edestruct (max_loop_total
                   (fun nb a bt => alphabeta_search clock color depth nb a bt false))
        as (r & s3 & -> & F3);
        [exact Hb|apply get_legal_moves_valid|by intros; apply IH|].
      do 2 eexists. split; [reflexivity|by eauto using frame_trans].
    + edestruct (min_loop_total
                   (fun nb a bt => alphabeta_search clock color depth nb a bt true))
        as (r & s3 & -> & F3);
        [exact Hb|apply get_legal_moves_valid|by intros; apply IH|].
      do 2 eexists. split; [reflexivity|by eauto using frame_trans].
Qed.

(** The sequential root search returns, and its move is the one it started
    with or one of the moves it was given. *)
Lemma root_loop_total b depth moves best best_score alpha s :
  wf_board b →
  Forall (fun p : pos => is_valid_position p.1 p.2 = true) moves →
  ∃ r s', root_loop clock color b depth moves best best_score alpha s
            = Some (r, s')
          ∧ frame s s' ∧ (r.1 = best ∨ ∃ m, r.1 = Some m ∧ In m moves).
Proof.
  intros Hb Hmoves. revert best best_score alpha s.
  induction Hmoves as [|move rest Hmove Hrest IH];
    intros best best_score alpha s; simpl.
  - do 2 eexists. split_and!; [reflexivity|apply frame_refl|by left].
  - destruct (time_exceeded_frame clock s) as (te & s1 & E1 & F1).
    rewrite (bind_Some _ _ _ _ _ E1).
    destruct te; [do 2 eexists; split_and!; [reflexivity|done|by left]|].
    destruct (successor_apply_move b move color Hb Hmove) as [E2 Hb2].
    unfold lift at 1. rewrite E2. unfold bind at 1.
    destruct (alphabeta_search_total (Nat.pred depth) (successor b move color)
                alpha PosInf false s1 Hb2) as ([mv eval_val] & s2 & E3 & F2).
    rewrite (bind_Some _ _ _ _ _ E3).
    destruct (ext_lt best_score eval_val || bool_decide (best = None));
      (edestruct IH as (r & s3 & -> & F3 & Hr);
       do 2 eexists; split_and!; [reflexivity|by eauto using frame_trans|]);
      destruct Hr as [Hr|(m & Hr & Hin)]; eauto.
Qed.

Lemma py_max_key_in results x : py_max_key results = Some x → In x results.
Proof.
  destruct results as [|y rest]; simpl; [done|]. intros [= <-].
  revert y. induction rest as [|z rest IH]; intros y; simpl; [by left|].
  destruct (IH (if ext_lt y.2 z.2 then z else y)) as [E|Hin]; [|by eauto].
  destruct (ext_lt y.2 z.2); rewrite <- E; eauto.
Qed.

Lemma mapM_imap_fst {A B} (f : nat → A → option (A * B)) l results :
  (∀ i x y, f i x = Some y → y.1 = x) →
  mapM (fun task => task) (imap f l) = Some results →
  map fst results = l.
Proof.
  intros Hf. revert f Hf results.
  induction l as [|x l IH]; intros f Hf results; simpl.
  - by intros [= <-].
  - destruct (f 0%nat x) as [y|] eqn:E; [simpl|done].
    destruct (mapM (fun task => task) (imap (f ∘ S) l)) as [ys|] eqn:E'; [simpl|done].
    intros [= <-]. simpl. f_equal; [by eapply Hf|].
    apply (IH (f ∘ S)); [|done]. intros i x' y'. apply Hf.
Qed.

Lemma pool_map_moves call st b moves depth results :
  pool_map worker_clock color call st b moves depth = Some results →
  map fst results = moves.
Proof.
  unfold pool_map. apply mapM_imap_fst. intros i mv y.
  unfold _parallel_worker.
  destruct (apply_move b (Some mv) color) as [nb|]; [simpl|done].
  destruct (w_alphabeta _ _ _ _ _ _ _ _ _ _) as [[score k]|]; [simpl|done].
  by intros [= <-].
Qed.

(** The parallel root search returns, and its move is the current best
    move or one of the moves it was given. *)
Lemma _root_search_parallel_total b moves depth s :
  wf_board b →
  Forall (fun p : pos => is_valid_position p.1 p.2 = true) moves →
  ∃ r s', _root_search_parallel clock cpu_count pool_raises worker_clock color
            b moves depth s = Some (r, s')
          ∧ frame s s'
          ∧ (r.1 = None ∨ r.1 = best_move s ∨ ∃ m, r.1 = Some m ∧ In m moves).
Proof.
  intros Hb Hmoves. unfold _root_search_parallel.
  destruct (time_exceeded_frame clock s) as (te & s1 & E1 & F1).
  rewrite (bind_Some _ _ _ _ _ E1).
  destruct te.
  { do 2 eexists. split_and!; [reflexivity|done|].
    right; left. by destruct F1 as [_ ->]. }
  assert (∃ r s', _root_search_sequential clock color b moves depth s1 = Some (r, s')
          ∧ frame s s'
          ∧ (r.1 = None ∨ r.1 = best_move s ∨ ∃ m, r.1 = Some m ∧ In m moves))
    as Hseq.
  { destruct (root_loop_total b depth moves None NegInf NegInf s1 Hb Hmoves)
      as (r & s2 & E & F2 & Hr).
    exists r, s2. split_and!; [done|by eapply frame_trans|].
    destruct Hr as [Hr|Hr]; eauto. }
  destruct (_ <=? 1)%nat eqn:En; [done|].
  destruct (pool_raises (ticks s1)); [done|].
  destruct (pool_map _ _ _ _ _ _ _) as [results|] eqn:Epool; [|done].
  apply pool_map_moves in Epool.
  destruct (py_max_key results) as [[bm score]|] eqn:Emax.
  - do 2 eexists. split_and!; [reflexivity|done|].
    right; right. exists bm. split; [done|].
    rewrite <- Epool. apply in_map_iff. exists (bm, score).
    split; [done|]. by apply py_max_key_in.
  - destruct results; [|done]. simpl in Epool. subst moves.
    simpl in En. by rewrite Nat.min_0_r in En.
Qed.

End TotalFacts.

Section GetMoveFacts.

Variable clock : nat → Z.
Variable cpu_count : nat.
Variable pool_raises : nat → bool.
Variable worker_clock : nat → nat → nat → Z.
Variable color : Z.
Variable b : board.

Hypothesis Hb : wf_board b.

#[local] Abbreviation root_search :=
  (root_search clock cpu_count pool_raises worker_clock color b).
#[local] Abbreviation legal_best := (legal_best color b).

Lemma root_search_total depth s :
  legal_best s →
  ∃ r s', root_search depth s = Some (r, s') ∧ frame s s' ∧
          (r.1 = None ∨ ∃ m, r.1 = Some m ∧ In m (get_legal_moves b color)).
Proof.
  intros (m0 & Hm0 & Hin0). unfold root_search.
  destruct (_ || _).
  - destruct (root_loop_total clock color b depth (get_legal_moves b color)
                None NegInf NegInf s Hb (get_legal_moves_valid b color))
      as (r & s' & E & F & Hr).
    exists r, s'. split_and!; [done..|]. destruct Hr; eauto.
  - destruct (_root_search_parallel_total clock cpu_count pool_raises
                worker_clock color b (get_legal_moves b color) depth s Hb
                (get_legal_moves_valid b color))
      as (r & s' & E & F & Hr).
    exists r, s'. split_and!; [done..|].
    destruct Hr as [Hr|[Hr|Hr]]; eauto. right. exists m0. by rewrite Hr.
Qed.

Lemma deepening_total depths s :
  legal_best s →
  ∃ s', deepening clock cpu_count pool_raises worker_clock color b
          (get_legal_moves b color) depths s = Some (tt, s')
        ∧ legal_best s'.
Proof.
  revert s. induction depths as [|depth rest IH]; intros s Hs; simpl.
  - by exists s.
  - destruct (time_exceeded_frame clock s) as (te & s1 & E1 & F1).
    rewrite (bind_Some _ _ _ _ _ E1).
    assert (legal_best s1) as Hs1.
    { destruct Hs as (m & Hm & Hin). exists m. by destruct F1 as [_ ->]. }
    destruct te; [by exists s1|].
    destruct (root_search_total depth s1 Hs1) as ([move score] & s2 & E2 & F2 & Hr).
    fold (root_search depth). rewrite (bind_Some _ _ _ _ _ E2).
    destruct (time_exceeded_frame clock s2) as (te & s3 & E3 & F3).
    rewrite (bind_Some _ _ _ _ _ E3).
    assert (legal_best s3) as Hs3.
    { destruct Hs1 as (m & Hm & Hin). exists m.
      destruct F2 as [_ F2], F3 as [_ F3]. split; [congruence|done]. }
    destruct (negb te && negb (bool_decide (move = None))) eqn:Eset.
    + unfold bind at 1, set_best_move at 1. apply IH.
      simpl in Hr. destruct Hr as [->|(m & -> & Hin)].
      * by rewrite bool_decide_eq_true_2, andb_false_r in Eset.
      * by exists m.
    + unfold bind at 1, ret at 1. by apply IH.
Qed.

(** When the deadline has passed at the top of the loop, the loop ends. *)
Lemma deepening_stops legal depth rest s s1 :
  time_exceeded clock s = Some (true, s1) →
  deepening clock cpu_count pool_raises worker_clock color b
    legal (depth :: rest) s = Some (tt, s1).
Proof. intros E. cbn [deepening]. by rewrite (bind_Some _ _ _ _ _ E). Qed.

(** A root search whose result comes back after the deadline does not
    change [best_move]: the loop goes on with the fallback it had. *)
Lemma deepening_discards_late_result depth rest s s1 r s2 s3 :
  legal_best s →
  time_exceeded clock s = Some (false, s1) →
  root_search depth s1 = Some (r, s2) →
  time_exceeded clock s2 = Some (true, s3) →
  deepening clock cpu_count pool_raises worker_clock color b
    (get_legal_moves b color) (depth :: rest) s
  = deepening clock cpu_count pool_raises worker_clock color b
      (get_legal_moves b color) rest s3
  ∧ best_move s3 = best_move s.
Proof.
  intros Hs E1 E2 E3. split.
  - cbn [deepening]. rewrite (bind_Some _ _ _ _ _ E1).
    fold (root_search depth). rewrite (bind_Some _ _ _ _ _ E2).
    destruct r as [move score]. by rewrite (bind_Some _ _ _ _ _ E3).
  - destruct (time_exceeded_frame clock s) as (te & s1' & E1' & F1).
    assert (legal_best s1) as Hs1.
    { destruct Hs as (m & Hm & Hin). exists m.
      rewrite E1 in E1'. injection E1' as _ <-. by destruct F1 as [_ ->]. }
    destruct (root_search_total depth s1 Hs1) as (r' & s2' & E2' & F2 & _).
    destruct (time_exceeded_frame clock s2) as (te3 & s3' & E3' & F3).
    rewrite E1 in E1'. rewrite E2 in E2'. rewrite E3 in E3'. simplify_eq.
    destruct F1 as [_ F1], F2 as [_ F2], F3 as [_ F3]. congruence.
Qed.

End GetMoveFacts.

(** ** Claims about the search *)

(** C5. For every position in which the engine's colour has a legal move,
    and every behaviour of the clocks, the pool and the processor count,
    [get_move] returns a legal move and never None.  When the deadline has
    already passed at the first test, it returns the first legal move, the
    fallback set before any search; and a root search whose result comes
    back after the deadline leaves the best move as it was. *)
Theorem get_move_returns_legal_move (clock : nat → Z) (cpu_count : nat)
    (pool_raises : nat → bool) (worker_clock : nat → nat → nat → Z)
    (color : Z) (b : board) (s : ai) :
  wf_board b →
  get_legal_moves b color ≠ [] →
  (∃ m s', get_move clock cpu_count pool_raises worker_clock color b s
             = Some (Some m, s')
           ∧ In m (get_legal_moves b color)) ∧
  (TIME_LIMIT ≤ clock (S (ticks s)) - clock (ticks s) →
   ∃ s', get_move clock cpu_count pool_raises worker_clock color b s
           = Some (head (get_legal_moves b color), s')) ∧
  (∀ depth rest s0 s1 r s2 s3,
     legal_best color b s0 →
     time_exceeded clock s0 = Some (false, s1) →
     root_search clock cpu_count pool_raises worker_clock color b depth s1
       = Some (r, s2) →
     time_exceeded clock s2 = Some (true, s3) →
     deepening clock cpu_count pool_raises worker_clock color b
       (get_legal_moves b color) (depth :: rest) s0
     = deepening clock cpu_count pool_raises worker_clock color b
         (get_legal_moves b color) rest s3
     ∧ best_move s3 = best_move s0).
Proof.
  intros Hb Hne. split_and!.
  - unfold get_move.
    destruct (get_legal_moves b color) as [|first others] eqn:E; [done|].
    rewrite <- E. unfold bind at 1, set_best_move at 1.
    cbn [start_time best_move nodes_evaluated ticks].
    destruct (deepening_total clock cpu_count pool_raises worker_clock color b Hb
                (seq 1 DMAX)
                {| start_time := Some (clock (ticks s)); best_move := Some first;
                   nodes_evaluated := 0; ticks := S (ticks s) |})
      as (s' & Ed & (m & Hm & Hin)).
    { exists first. split; [reflexivity|]. rewrite E. by left. }
    rewrite (bind_Some _ _ _ _ _ Ed). exists m, s'. by rewrite Hm.
  - intros Hlate. unfold get_move.
    destruct (get_legal_moves b color) as [|first others] eqn:E; [done|].
    unfold bind at 1, set_best_move at 1.
    cbn [start_time best_move nodes_evaluated ticks].
    change (seq 1 DMAX) with (1%nat :: seq 2 8).
    assert (time_exceeded clock
              {| start_time := Some (clock (ticks s)); best_move := Some first;
                 nodes_evaluated := 0; ticks := S (ticks s) |}
            = Some (true,
              {| start_time := Some (clock (ticks s)); best_move := Some first;
                 nodes_evaluated := 0; ticks := S (S (ticks s)) |})) as Ete.
    { unfold time_exceeded. cbn [start_time best_move nodes_evaluated ticks].
      assert ((clock (S (ticks s)) - clock (ticks s) >=? TIME_LIMIT) = true) as ->;
        [|done].
      rewrite Z.geb_leb. by apply Z.leb_le. }
    rewrite (bind_Some _ _ _ _ _
               (deepening_stops clock cpu_count pool_raises worker_clock
                  color b _ _ _ _ _ Ete)).
    by eexists.
  - intros depth rest s0 s1 r s2 s3.
    by apply deepening_discards_late_result.
Qed.

Lemma get_move_returns_legal_move_witness :
  (∃ m s', get_move (fun k => 100 * Z.of_nat k) 4 (fun _ => false)
             (fun _ _ _ => 0) BLACK (gboard init) new_ai
             = Some (Some m, s')
           ∧ In m (get_legal_moves (gboard init) BLACK)) ∧
  (∃ s', get_move (fun k => 100 * Z.of_nat k) 4 (fun _ => false)
           (fun _ _ _ => 0) BLACK (gboard init) new_ai
           = Some (head (get_legal_moves (gboard init) BLACK), s')).
Proof.
  destruct (get_move_returns_legal_move (fun k => 100 * Z.of_nat k) 4
              (fun _ => false) (fun _ _ _ => 0) BLACK (gboard init) new_ai)
    as (H1 & H2 & _).
  - exact wf_init.
  - by vm_compute.
  - split; [exact H1|]. apply H2. by vm_compute.
Defined.

(** C6. With unlimited time, for every position, depth and role of the
    root, [alphabeta_search] called with the full window returns the move
    and the score of brute-force full-width minimax to the same depth with
    the same evaluator; so does the sequential root search over the legal
    moves, one ply up. *)
Theorem alphabeta_search_minimax (clock : nat → Z) (color : Z) (depth : nat)
    (b : board) (maximizing : bool) (s : ai) :
  wf_board b → unlimited clock s →
  (∃ s', alphabeta_search clock color depth b NegInf PosInf maximizing s
         = Some (((minimax color depth b maximizing).1,
                  Fin (minimax color depth b maximizing).2), s')) ∧
  (get_legal_moves b color ≠ [] →
   ∃ s', _root_search_sequential clock color b (get_legal_moves b color)
           (S depth) s
         = Some (((minimax color (S depth) b true).1,
                  Fin (minimax color (S depth) b true).2), s')).
Proof.
  intros Hb Hu. split.
  - destruct (alphabeta_search_ab clock color depth b NegInf PosInf maximizing s)
      as (s' & E & _); [done..|].
    exists s'. by rewrite E, ab_minimax.
  - intros Hne. cbn [minimax].
    pose proof (get_legal_moves_valid b color) as Hvalid.
    destruct (get_legal_moves b color) as [|first others]; [done|].
    destruct (_root_search_sequential_first_best clock color b (S depth)
                first others s Hb Hvalid Hu) as (s' & E & _).
    exists s'. rewrite E. cbn [map negb Nat.pred].
    by destruct (first_best Z.gtb _ _).
Qed.

Lemma alphabeta_search_minimax_witness :
  (∃ s', alphabeta_search (fun _ => 0) BLACK 3 (gboard init) NegInf PosInf true
           {| start_time := Some 0; best_move := None;
              nodes_evaluated := 0; ticks := 0 |}
         = Some (((minimax BLACK 3 (gboard init) true).1,
                  Fin (minimax BLACK 3 (gboard init) true).2), s')) ∧
  (get_legal_moves (gboard init) BLACK ≠ [] →
   ∃ s', _root_search_sequential (fun _ => 0) BLACK (gboard init)
           (get_legal_moves (gboard init) BLACK) 4
           {| start_time := Some 0; best_move := None;
              nodes_evaluated := 0; ticks := 0 |}
         = Some (((minimax BLACK 4 (gboard init) true).1,
                  Fin (minimax BLACK 4 (gboard init) true).2), s')).
Proof.
  apply (alphabeta_search_minimax (fun _ => 0) BLACK 3 (gboard init) true).
  - exact wf_init.
  - intros t0 [= <-] k. reflexivity.
Defined.

(** C7. With unlimited time for the main process and for every worker, for
    every position with at least two legal root moves and every depth of at
    least 2, the parallel root search returns the same move (and the same
    score) as the sequential root search, whatever the number of processors
    and whether or not the pool can be created. *)
Theorem parallel_equals_sequential (clock : nat → Z) (cpu_count : nat)
    (pool_raises : nat → bool) (worker_clock : nat → nat → nat → Z)
    (color : Z) (b : board) (depth : nat) (s : ai) :
  wf_board b →
  (2 ≤ length (get_legal_moves b color))%nat →
  (2 ≤ depth)%nat →
  unlimited clock s →
  (∀ call i, worker_unlimited (worker_clock call i) (start_time s)) →
  ∃ r s1 s2,
    _root_search_parallel clock cpu_count pool_raises worker_clock color
      b (get_legal_moves b color) depth s = Some (r, s1) ∧
    _root_search_sequential clock color
      b (get_legal_moves b color) depth s = Some (r, s2).
Proof.
  intros Hb Hlen _ Hu Hw.
  pose proof (get_legal_moves_valid b color) as Hvalid.
  destruct (get_legal_moves b color) as [|first others]; [simpl in Hlen; lia|].
  destruct (_root_search_sequential_first_best clock color b depth
              first others s Hb Hvalid Hu) as (s2 & Eseq & _).
  destruct (time_exceeded_unlimited clock s Hu) as (s1 & E1 & F1).
  assert (unlimited clock s1) as Hu1 by by eapply unlimited_frame.
  destruct (_root_search_sequential_first_best clock color b depth
              first others s1 Hb Hvalid Hu1) as (s3 & Eseq1 & _).
  unfold _root_search_parallel. rewrite (bind_Some _ _ _ _ _ E1).
  destruct (_ <=? 1)%nat; [by eauto|].
  destruct (pool_raises (ticks s1)); [by eauto|].
  destruct (pool_map _ _ _ _ _ _ _) as [results|] eqn:Epool; [|by eauto].
  apply pool_map_results in Epool; [|destruct F1 as [-> _]; apply Hw].
  rewrite Epool, py_max_key_first_best. cbv zeta. by eauto.
Qed.

Lemma parallel_equals_sequential_witness :
  ∃ r s1 s2,
    _root_search_parallel (fun _ => 0) 4 (fun _ => false) (fun _ _ _ => 0) BLACK
      (gboard init) (get_legal_moves (gboard init) BLACK) 2
      {| start_time := Some 0; best_move := None;
         nodes_evaluated := 0; ticks := 0 |} = Some (r, s1) ∧
    _root_search_sequential (fun _ => 0) BLACK
      (gboard init) (get_legal_moves (gboard init) BLACK) 2
      {| start_time := Some 0; best_move := None;
         nodes_evaluated := 0; ticks := 0 |} = Some (r, s2).
Proof.
  apply (parallel_equals_sequential (fun _ => 0) 4 (fun _ => false)
           (fun _ _ _ => 0) BLACK (gboard init) 2).
  - exact wf_init.
  - vm_compute. lia.
  - lia.
  - intros t0 [= <-] k. reflexivity.
  - intros call i t0 [= <-] k. reflexivity.
Defined.


(** * Further properties of the rules engine *)

Lemma get_opponent_not_self color : get_opponent color ≠ color.
Proof.
  unfold get_opponent. destruct (Z.eqb_spec color BLACK) as [->|]; [done|].
  congruence.
Qed.

Lemma get_opponent_player color : is_player (get_opponent color).
Proof. unfold get_opponent, is_player. destruct (color =? BLACK); auto. Qed.

(** X1. [get_opponent] always answers a player colour different from its
    argument; on the two player colours it is the negation that ai.py uses
    for the opponent, and only there. *)
Theorem get_opponent_negation (color : Z) :
  is_player (get_opponent color) ∧
  get_opponent color ≠ color ∧
  (get_opponent color = - color ↔ is_player color) ∧
  (is_player color → get_opponent (get_opponent color) = color).
Proof.
  split_and!.
  - apply get_opponent_player.
  - apply get_opponent_not_self.
  - unfold get_opponent, is_player, BLACK, WHITE.
    destruct (Z.eqb_spec color 1); lia.
  - unfold get_opponent, is_player, BLACK, WHITE.
    intros [->| ->]; reflexivity.
Qed.


(** ** The board keeps its shape and its cell values *)

Lemma cells_ok_set_cell b r c v :
  cells_ok b → v = EMPTY ∨ v = BLACK ∨ v = WHITE → cells_ok (set_cell b r c v).
Proof.
  intros Hb Hv. unfold cells_ok, set_cell.
  apply Forall_alter; [done|]. intros row _ Hrow. by apply Forall_insert.
Qed.

Lemma cells_ok_set_cells b ps v :
  cells_ok b → v = EMPTY ∨ v = BLACK ∨ v = WHITE → cells_ok (set_cells b ps v).
Proof.
  intros Hb Hv. unfold set_cells. revert b Hb.
  induction ps as [|p ps IH]; intros b Hb; simpl; [done|].
  by apply IH, cells_ok_set_cell.
Qed.

Lemma player_cell_value c : is_player c → c = EMPTY ∨ c = BLACK ∨ c = WHITE.
Proof. intros [->| ->]; auto. Qed.

Lemma wf_make_move mv color g :
  wf_board (gboard g) → wf_board (gboard (make_move mv color g).2).
Proof.
  intros Hb. unfold make_move. destruct mv as [[row col]|]; [|done].
  destruct (negb (is_valid_move (gboard g) row col color)); [done|].
  by apply wf_set_cells, wf_set_cell.
Qed.

Lemma wf_undo_last_move g :
  wf_board (gboard g) → wf_board (gboard (undo_last_move g).2).
Proof.
  intros Hb. unfold undo_last_move. destruct (last (history g)) as [l|]; [|done].
  destruct (e_move l) as [[row col]|]; [|done].
  by apply wf_set_cells, wf_set_cell.
Qed.

Lemma setitem2_shape b r c v b' :
  setitem2 b r c v = Some b' →
  (wf_board b → wf_board b') ∧
  (cells_ok b → v = EMPTY ∨ v = BLACK ∨ v = WHITE → cells_ok b').
Proof.
  unfold setitem2.
  destruct (py_index (length b) r) as [i|]; [simpl|done].
  destruct (b !! i) as [row|] eqn:Hrow; [simpl|done].
  destruct (py_index (length row) c) as [j|]; [simpl|done].
  intros [= <-]. split.
  - intros [Hlen Hrows]. split; [by rewrite length_insert|].
    apply Forall_insert; [done|]. rewrite length_insert.
    rewrite Forall_lookup in Hrows. by apply (Hrows _ _ Hrow).
  - intros Hb Hv. apply Forall_insert; [done|]. apply Forall_insert; [|done].
    unfold cells_ok in Hb. rewrite Forall_lookup in Hb. by apply (Hb _ _ Hrow).
Qed.

Lemma apply_move_fold_shape color row col ds b :
  (wf_board b →
   wf_board (foldl (fun nb d => set_cells nb (flips_dir nb color row col d) color)
               b ds)) ∧
  (cells_ok b → is_player color →
   cells_ok (foldl (fun nb d => set_cells nb (flips_dir nb color row col d) color)
               b ds)).
Proof.
  revert b. induction ds as [|d ds IH]; intros b; simpl; [done|].
  split.
  - intros Hb. by apply IH, wf_set_cells.
  - intros Hb Hc. apply IH; [|done]. by apply cells_ok_set_cells, player_cell_value.
Qed.

Lemma history_on_board_make_move mv color g :
  history_on_board g → history_on_board (make_move mv color g).2.
Proof.
  unfold history_on_board, make_move. intros Hh.
  destruct mv as [[row col]|]; cbn [snd history].
  - destruct (is_valid_move (gboard g) row col color) eqn:Hv; [|done].
    cbn [negb snd history]. apply Forall_app. split; [done|].
    apply Forall_cons_2; [|apply Forall_nil_2].
    unfold entry_on_board. cbn [e_move e_flipped].
    split; [by apply is_valid_move_position in Hv|].
    apply Forall_forall. intros p Hin%list_elem_of_In.
    by apply flip_discs_cells in Hin as [? _].
  - apply Forall_app. split; [done|]. by apply Forall_cons_2.
Qed.

Lemma history_on_board_undo_last_move g :
  history_on_board g → history_on_board (undo_last_move g).2.
Proof.
  unfold history_on_board, undo_last_move. intros Hh.
  destruct (last (history g)) as [l|]; [|done].
  assert (Forall entry_on_board (removelast (history g))) as Hr.
  { destruct (history g) as [|e h _] using rev_ind; [done|].
    rewrite removelast_last. by apply Forall_app in Hh as [? _]. }
  by destruct (e_move l) as [[row col]|].
Qed.

(** X2. The rules engine keeps the board an 8x8 grid of cell values and
    the history on the board: whatever move [make_move] is given (legal,
    illegal or a pass), whenever [apply_move] returns, and, on a game whose
    history entries are on the board, as all entries that [make_move]
    writes are, after [undo_last_move]. *)
Theorem board_invariant (g : game) (mv : option pos) (color : Z) :
  wf_board (gboard g) → cells_ok (gboard g) → is_player color →
  (wf_board (gboard (make_move mv color g).2) ∧
   cells_ok (gboard (make_move mv color g).2)) ∧
  (history_on_board g → history_on_board (make_move mv color g).2) ∧
  (history_on_board g →
   wf_board (gboard (undo_last_move g).2) ∧
   cells_ok (gboard (undo_last_move g).2) ∧
   history_on_board (undo_last_move g).2) ∧
  (∀ b', apply_move (gboard g) mv color = Some b' → wf_board b' ∧ cells_ok b').
Proof.
  intros Hb Hc Hcol. split_and!.
  - by apply wf_make_move.
  - unfold make_move. destruct mv as [[row col]|]; [|done].
    destruct (negb (is_valid_move (gboard g) row col color)); [done|].
    by apply cells_ok_set_cells, player_cell_value;
      [apply cells_ok_set_cell, player_cell_value|].
  - apply history_on_board_make_move.
  - intros Hh. split_and!.
    + by apply wf_undo_last_move.
    + unfold undo_last_move. destruct (last (history g)) as [l|]; [|done].
      destruct (e_move l) as [[row col]|]; [|done]. simpl.
      apply cells_ok_set_cells; [by apply cells_ok_set_cell; auto|].
      apply player_cell_value, get_opponent_player.
    + by apply history_on_board_undo_last_move.
  - intros b'. unfold apply_move. destruct mv as [[row col]|]; [|by intros [= <-]].
    destruct (setitem2 (gboard g) row col color) as [nb|] eqn:E; [|done].
    apply setitem2_shape in E as [Hwf Hok]. intros [= <-].
    destruct (apply_move_fold_shape color row col DIRECTIONS nb) as [H1 H2].
    split; [apply H1|apply H2]; auto using player_cell_value.
Qed.

Lemma cells_ok_values (b : board) :
  forallb (forallb (fun v => bool_decide (v = EMPTY ∨ v = BLACK ∨ v = WHITE))) b
  = true →
  cells_ok b.
Proof.
  intros H. apply Forall_forall. intros row Hrow. apply Forall_forall.
  intros v Hv. rewrite forallb_forall in H.
  apply list_elem_of_In, H in Hrow. rewrite forallb_forall in Hrow.
  apply list_elem_of_In, Hrow in Hv. by apply bool_decide_eq_true_1 in Hv.
Qed.

Lemma board_invariant_witness :
  let g := (make_move (Some (2, 4)) BLACK init).2 in
  (wf_board (gboard (make_move (Some (2, 3)) WHITE g).2) ∧
   cells_ok (gboard (make_move (Some (2, 3)) WHITE g).2)) ∧
  history_on_board (make_move (Some (2, 3)) WHITE g).2 ∧
  (wf_board (gboard (undo_last_move g).2) ∧
   cells_ok (gboard (undo_last_move g).2) ∧
   history_on_board (undo_last_move g).2) ∧
  (∀ b', apply_move (gboard g) (Some (2, 3)) WHITE = Some b' →
         wf_board b' ∧ cells_ok b').
Proof.
  assert (Hh : history_on_board (make_move (Some (2, 4)) BLACK init).2).
  { apply history_on_board_make_move. apply Forall_nil_2. }
  destruct (board_invariant (make_move (Some (2, 4)) BLACK init).2
              (Some (2, 3)) WHITE) as (H1 & H2 & H3 & H4).
  - apply wf_make_move. exact wf_init.
  - apply cells_ok_values. reflexivity.
  - by right.
  - cbv zeta. split; [exact H1|]. split; [exact (H2 Hh)|].
    split; [exact (H3 Hh)|exact H4].
Defined.


(** ** What [flip_discs] lists *)

Lemma collect_lookup fuel b opponent dr dc r c i p :
  (collect fuel b opponent dr dc r c).1 !! i = Some p →
  p = (r + Z.of_nat i * dr, c + Z.of_nat i * dc).
Proof.
  revert r c i. induction fuel as [|fuel IH]; intros r c i; simpl; [done|].
  destruct (is_valid_position r c && (cell b r c =? opponent)); [|done].
  specialize (IH (r + dr) (c + dc)).
  destruct (collect fuel b opponent dr dc (r + dr) (c + dc)) as [l e].
  simpl in *. destruct i as [|i]; simpl.
  - intros [= <-]. f_equal; lia.
  - intros ->%IH. f_equal; lia.
Qed.

Lemma collect_NoDup fuel b opponent dr dc r c :
  (dr, dc) ≠ (0, 0) → NoDup (collect fuel b opponent dr dc r c).1.
Proof.
  intros Hd. apply NoDup_alt. intros i j p Hi Hj.
  apply collect_lookup in Hi, Hj. subst p. injection Hj as H1 H2.
  destruct (decide (i = j)) as [|Hne]; [done|]. exfalso. apply Hd.
  f_equal; nia.
Qed.

Lemma flips_dir_NoDup b color row col d :
  In d DIRECTIONS → NoDup (flips_dir b color row col d).
Proof.
  intros Hd. unfold flips_dir. destruct d as [dr dc].
  pose proof (collect_NoDup FUEL b (get_opponent color) dr dc
                (row + dr) (col + dc)) as H.
  destruct (collect FUEL b (get_opponent color) dr dc (row + dr) (col + dc))
    as [l [r c]]; simpl in *.
  destruct (_ && _); [|constructor]. apply H.
  intros [= -> ->]. unfold DIRECTIONS in Hd. simpl in Hd.
  repeat (destruct Hd as [Hd|Hd]; [done|]). done.
Qed.

Lemma flat_map_NoDup {A B} (f : A → list B) (l : list A) :
  NoDup l →
  (∀ x, In x l → NoDup (f x)) →
  (∀ x y z, In x l → In y l → x ≠ y → In z (f x) → In z (f y) → False) →
  NoDup (flat_map f l).
Proof.
  induction 1 as [|x l Hx Hl IH]; intros Hf Hdis; simpl; [constructor|].
  apply NoDup_app. split_and!.
  - apply Hf. by left.
  - intros z Hz (y & Hy & Hzy)%list_elem_of_In%in_flat_map.
    apply (Hdis x y z); [by left|by right| |by apply list_elem_of_In|done].
    intros ->. by apply Hx, list_elem_of_In.
  - apply IH; [intros; apply Hf; by right|].
    intros x' y' z Hx' Hy'. apply Hdis; by right.
Qed.

Lemma DIRECTIONS_NoDup : NoDup DIRECTIONS.
Proof. apply (bool_decide_unpack _). by vm_compute. Qed.

Lemma flips_NoDup b color row col :
  NoDup (flat_map (flips_dir b color row col) DIRECTIONS).
Proof.
  apply flat_map_NoDup.
  - apply DIRECTIONS_NoDup.
  - intros d Hd. by apply flips_dir_NoDup.
  - intros [dr dc] [dr' dc'] z Hd Hd' Hne Hz Hz'.
    apply flips_dir_on_ray in Hz as (k & Hk & ->).
    apply flips_dir_on_ray in Hz' as (k' & Hk' & E).
    by apply (rays_disjoint row col (dr, dc) (dr', dc') k k').
Qed.

Lemma flips_not_target b color row col :
  ¬ In (row, col) (flat_map (flips_dir b color row col) DIRECTIONS).
Proof.
  intros ([dr dc] & Hd & Hin)%in_flat_map.
  apply flips_dir_on_ray in Hin as (k & Hk & E).
  by apply (ray_not_origin row col (dr, dc) k).
Qed.

Lemma flip_discs_facts (b : board) (row col color : Z) :
  (∀ p, In p (flip_discs b row col color) →
        is_valid_position p.1 p.2 = true ∧
        cell b p.1 p.2 = get_opponent color ∧
        p ≠ (row, col)) ∧
  NoDup (flip_discs b row col color).
Proof.
  split.
  - intros p Hp. destruct (flip_discs_cells b row col color p Hp) as [Hv Hc].
    split_and!; [done..|]. intros ->. revert Hp. unfold flip_discs.
    destruct (negb (is_valid_move b row col color)); [done|].
    apply flips_not_target.
  - unfold flip_discs.
    destruct (negb (is_valid_move b row col color)); [constructor|].
    apply flips_NoDup.
Qed.

(** X3. Every position that [flip_discs] returns is on the board and holds a
    disc of the opponent; the target cell is not among them and no position
    is listed twice. *)
Theorem flip_discs_sound (b : board) (row col color : Z) :
  (∀ p, In p (flip_discs b row col color) →
        is_valid_position p.1 p.2 = true ∧
        cell b p.1 p.2 = get_opponent color ∧
        p ≠ (row, col)) ∧
  NoDup (flip_discs b row col color).
Proof. apply flip_discs_facts. Qed.

(** ** What [apply_move] changes *)

(** X4. On a board and for a target inside it, [apply_move] changes only the
    target cell and discs of the opponent, and every changed cell ends up
    holding the mover's colour. *)
Theorem apply_move_changes (b : board) (row col color : Z) :
  wf_board b → is_valid_position row col = true →
  ∃ b', apply_move b (Some (row, col)) color = Some b' ∧
        ∀ r c, is_valid_position r c = true → cell b' r c ≠ cell b r c →
               cell b' r c = color ∧
               ((r, c) = (row, col) ∨ cell b r c = get_opponent color).
Proof.
  intros Hb Hp. rewrite apply_move_flips by done. eexists. split; [reflexivity|].
  intros r c Hrc.
  rewrite cell_set_cells; [|by apply wf_set_cell|apply flips_valid|done].
  case_bool_decide as Hin.
  - intros _. split; [done|]. right.
    apply list_elem_of_In, in_flat_map in Hin as (d & _ & Hin).
    by apply flips_dir_cells in Hin as [_ ?].
  - rewrite cell_set_cell by done. case_bool_decide as Heq; [|done].
    intros _. injection Heq as <- <-. auto.
Qed.

Lemma apply_move_changes_witness :
  ∃ b', apply_move (gboard init) (Some (2, 4)) BLACK = Some b' ∧
        ∀ r c, is_valid_position r c = true →
               cell b' r c ≠ cell (gboard init) r c →
               cell b' r c = BLACK ∧
               ((r, c) = (2, 4) ∨ cell (gboard init) r c = get_opponent BLACK).
Proof.
  apply (apply_move_changes (gboard init) 2 4 BLACK); [exact wf_init|reflexivity].
Defined.


(** ** Disc counts *)

Lemma count_insert v row j x old :
  row !! j = Some old →
  count v (<[j:=x]> row) =
  count v row - (if old =? v then 1 else 0) + (if x =? v then 1 else 0).
Proof.
  revert j. induction row as [|y row IH]; intros j; [done|].
  destruct j as [|j]; simpl.
  - intros [= ->]. lia.
  - intros H. rewrite (IH _ H). lia.
Qed.

Lemma sum_map_alter {A} (g : A → Z) (f : A → A) (l : list A) i x :
  l !! i = Some x →
  sum (map g (alter f i l)) = sum (map g l) - g x + g (f x).
Proof.
  unfold sum. revert i. induction l as [|y l IH]; intros i; [done|].
  destruct i as [|i].
  - intros [= ->]. simpl. lia.
  - intros H. change (alter f (S i) (y :: l)) with (y :: alter f i l).
    simpl in *. rewrite (IH _ H). lia.
Qed.

Lemma count_cells_set_cell v b r c x :
  wf_board b → is_valid_position r c = true →
  count_cells v (set_cell b r c x) =
  count_cells v b - (if cell b r c =? v then 1 else 0) + (if x =? v then 1 else 0).
Proof.
  intros Hb [Hr Hc]%is_valid_position_spec.
  destruct (wf_board_row b r Hb Hr) as (row & Hrow & Hlen).
  destruct (lookup_lt_is_Some_2 row (Z.to_nat c)) as [old Hold]; [lia|].
  unfold count_cells, set_cell, cell.
  rewrite (sum_map_alter _ _ _ _ _ Hrow), (count_insert _ _ _ _ _ Hold).
  rewrite Hrow, Hold. simpl. lia.
Qed.

Lemma count_cells_set_cells v b ps x old :
  wf_board b →
  Forall (fun p : pos => is_valid_position p.1 p.2 = true) ps →
  NoDup ps →
  (∀ p, In p ps → cell b p.1 p.2 = old) →
  count_cells v (set_cells b ps x) =
  count_cells v b
  + Z.of_nat (length ps) * ((if x =? v then 1 else 0) - (if old =? v then 1 else 0)).
Proof.
  intros Hb Hps. revert b Hb.
  induction Hps as [|[r c] ps Hp Hps IH]; intros b Hb Hnd Hold.
  - simpl. lia.
  - apply NoDup_cons in Hnd as [Hnin Hnd].
    change (set_cells b ((r, c) :: ps) x)
      with (set_cells (set_cell b r c x) ps x).
    rewrite IH; [|by apply wf_set_cell|done|].
    + rewrite count_cells_set_cell by done.
      pose proof (Hold (r, c) (or_introl eq_refl)) as Hc. simpl in Hc.
      rewrite Hc. cbn [length]. lia.
    + intros [r' c'] Hin. simpl.
      rewrite cell_set_cell;
        [|done|done|by rewrite Forall_forall in Hps;
                     apply (Hps (r', c')), list_elem_of_In].
      rewrite bool_decide_eq_false_2.
      * apply (Hold (r', c')). by right.
      * intros [= -> ->]. by apply Hnin, list_elem_of_In.
Qed.

(** The same counts, for any cell value, after an accepted move. *)
Lemma make_move_count_cells g row col color v :
  wf_board (gboard g) →
  is_valid_move (gboard g) row col color = true →
  count_cells v (gboard (make_move (Some (row, col)) color g).2) =
  count_cells v (gboard g)
  - (if EMPTY =? v then 1 else 0) + (if color =? v then 1 else 0)
  + Z.of_nat (length (flip_discs (gboard g) row col color))
    * ((if color =? v then 1 else 0) - (if get_opponent color =? v then 1 else 0)).
Proof.
  intros Hb Hv. pose proof (is_valid_move_position _ _ _ _ Hv) as Hp.
  pose proof (is_valid_move_empty _ _ _ _ Hv) as He.
  destruct (flip_discs_facts (gboard g) row col color) as [Hs Hnd].
  unfold make_move. rewrite Hv. cbn [negb snd gboard].
  rewrite (count_cells_set_cells v _ _ color (get_opponent color));
    [|by apply wf_set_cell| |done|].
  - rewrite count_cells_set_cell by done. by rewrite He.
  - apply Forall_forall. intros p Hin%list_elem_of_In. by apply Hs.
  - intros [r c] Hin. destruct (Hs _ Hin) as (Hvp & Hc & Hne). simpl in *.
    rewrite cell_set_cell by done. by rewrite bool_decide_eq_false_2.
Qed.

(** X5. An accepted move of a player adds one disc of the mover and turns
    [n >= 1] discs of the opponent into discs of the mover, where [n] is the
    number of positions [flip_discs] lists: in [count_discs], the mover
    gains [1 + n], the opponent loses [n], and one empty cell is used up. *)
Theorem make_move_count_discs (g : game) (row col color : Z) :
  wf_board (gboard g) → is_player color →
  is_valid_move (gboard g) row col color = true →
  let n := Z.of_nat (length (flip_discs (gboard g) row col color)) in
  let '(black, white) := count_discs (gboard g) in
  let g' := (make_move (Some (row, col)) color g).2 in
  1 ≤ n ∧
  count_discs (gboard g') =
    (if color =? BLACK then (black + 1 + n, white - n)
     else (black - n, white + 1 + n)) ∧
  count_cells EMPTY (gboard g') = count_cells EMPTY (gboard g) - 1.
Proof.
  intros Hb Hcol Hv n.
  assert (1 ≤ n) as Hn.
  { apply is_valid_move_flip_discs in Hv. subst n.
    destruct (flip_discs (gboard g) row col color); [done|]. simpl. lia. }
  unfold count_discs. fold (count_cells BLACK (gboard g)).
  fold (count_cells WHITE (gboard g)).
  fold (count_cells BLACK (gboard (make_move (Some (row, col)) color g).2)).
  fold (count_cells WHITE (gboard (make_move (Some (row, col)) color g).2)).
  rewrite !make_move_count_cells by done. fold n.
  split_and!; [done| |];
    destruct Hcol as [-> | ->]; unfold get_opponent, EMPTY, BLACK, WHITE;
    simpl; try f_equal; lia.
Qed.

Lemma make_move_count_discs_witness :
  1 ≤ Z.of_nat (length (flip_discs (gboard init) 2 4 BLACK)) ∧
  count_discs (gboard (make_move (Some (2, 4)) BLACK init).2) =
    (2 + 1 + Z.of_nat (length (flip_discs (gboard init) 2 4 BLACK)),
     2 - Z.of_nat (length (flip_discs (gboard init) 2 4 BLACK))) ∧
  count_cells EMPTY (gboard (make_move (Some (2, 4)) BLACK init).2) =
    count_cells EMPTY (gboard init) - 1.
Proof.
  apply (make_move_count_discs init 2 4 BLACK);
    [exact wf_init|by left|reflexivity].
Defined.


(** ** Cells once filled stay filled *)

(** With EMPTY as the colour, [make_move] accepts the move (2,2) at the
    start, which outflanks the Black discs on (3,3) and (4,4) up to the
    empty cell (5,5), and empties both. *)
Lemma make_move_empty_colour :
  let g' := make_move (Some (2, 2)) EMPTY init in
  g'.1 = true ∧
  cell (gboard init) 3 3 = BLACK ∧ cell (gboard g'.2) 3 3 = EMPTY ∧
  cell (gboard init) 4 4 = BLACK ∧ cell (gboard g'.2) 4 4 = EMPTY.
Proof. by vm_compute. Qed.

(** X6. For every colour other than EMPTY, a player's or not, [make_move]
    never empties a cell, whatever move it is given; after an accepted
    move the target holds the mover's colour and is a legal move for
    nobody. *)
Theorem make_move_fills (g : game) (mv : option pos) (color : Z) :
  wf_board (gboard g) → color ≠ EMPTY →
  let g' := (make_move mv color g).2 in
  (∀ r c, is_valid_position r c = true →
          cell (gboard g) r c ≠ EMPTY → cell (gboard g') r c ≠ EMPTY) ∧
  (∀ row col, mv = Some (row, col) → (make_move mv color g).1 = true →
              cell (gboard g') row col = color ∧
              ∀ c', is_valid_move (gboard g') row col c' = false).
Proof.
  intros Hb Hne g'. subst g'.
  unfold make_move. destruct mv as [[row col]|]; [|by split].
  destruct (is_valid_move (gboard g) row col color) eqn:Hv; [|by split].
  cbn [negb fst snd gboard].
  pose proof (is_valid_move_position _ _ _ _ Hv) as Hp.
  assert (∀ r c, is_valid_position r c = true →
            cell (set_cells (set_cell (gboard g) row col color)
                    (flip_discs (gboard g) row col color) color) r c =
            if bool_decide ((r, c) ∈ flip_discs (gboard g) row col color)
            then color
            else if bool_decide ((row, col) = (r, c)) then color
                 else cell (gboard g) r c) as Hcell.
  { intros r c Hrc. rewrite cell_set_cells; [|by apply wf_set_cell| |done].
    - by rewrite cell_set_cell by done.
    - apply Forall_forall. intros p Hin%list_elem_of_In.
      by apply flip_discs_cells in Hin as [? _]. }
  split.
  - intros r c Hrc Hfilled. rewrite Hcell by done.
    by repeat case_bool_decide.
  - intros ? ? [= <- <-] _.
    assert (cell (set_cells (set_cell (gboard g) row col color)
                    (flip_discs (gboard g) row col color) color) row col = color)
      as Htarget.
    { rewrite Hcell by done. case_bool_decide; [done|].
      by rewrite bool_decide_eq_true_2. }
    split; [done|]. intros c'. unfold is_valid_move. rewrite Hp, Htarget.
    apply Z.eqb_neq in Hne. by rewrite Hne.
Qed.

Lemma make_move_fills_witness :
  (∀ r c, is_valid_position r c = true →
          cell (gboard init) r c ≠ EMPTY →
          cell (gboard (make_move (Some (2, 4)) BLACK init).2) r c ≠ EMPTY) ∧
  (∀ row col, Some (2, 4) = Some (row, col) →
              (make_move (Some (2, 4)) BLACK init).1 = true →
              cell (gboard (make_move (Some (2, 4)) BLACK init).2) row col = BLACK ∧
              ∀ c', is_valid_move (gboard (make_move (Some (2, 4)) BLACK init).2)
                      row col c' = false).
Proof.
  apply (make_move_fills init (Some (2, 4)) BLACK); [exact wf_init|done].
Defined.

(** ** Replaying and undoing *)

(** [undo_last_move] right after an accepted [make_move], pass or not,
    gives the game back; a rejected [make_move] changes nothing. *)
Lemma undo_after_make_move g mv color :
  wf_board (gboard g) →
  (make_move mv color g).1 = true ∧
    undo_last_move (make_move mv color g).2 = (true, g)
  ∨ make_move mv color g = (false, g).
Proof.
  intros Hb. unfold make_move. destruct mv as [[row col]|].
  - destruct (is_valid_move (gboard g) row col color) eqn:Hv; [left|by right].
    cbn [negb fst snd]. split; [done|].
    unfold undo_last_move; simpl. rewrite last_snoc; simpl.
    rewrite removelast_last. destruct g as [b h]; simpl in *. do 2 f_equal.
    pose proof (is_valid_move_position _ _ _ _ Hv) as Hp.
    pose proof (is_valid_move_empty _ _ _ _ Hv) as He.
    assert (Forall (fun p : pos => is_valid_position p.1 p.2 = true)
              (flip_discs b row col color)) as Hps.
    { apply Forall_forall. intros p Hin%list_elem_of_In.
      by apply flip_discs_cells in Hin as [? _]. }
    apply board_ext;
      [by repeat first [apply wf_set_cells|apply wf_set_cell]|done|].
    intros r c Hrc.
    rewrite cell_set_cells
      by (try done; by repeat first [apply wf_set_cells|apply wf_set_cell]).
    case_bool_decide as Hin.
    + apply list_elem_of_In, flip_discs_cells in Hin as [_ Hin]. done.
    + rewrite cell_set_cell by (try done; by apply wf_set_cells, wf_set_cell).
      case_bool_decide as Heq.
      * injection Heq as <- <-. done.
      * rewrite cell_set_cells by (try done; by apply wf_set_cell).
        rewrite bool_decide_eq_false_2 by done.
        rewrite cell_set_cell by done.
        by rewrite bool_decide_eq_false_2 by done.
  - left. cbn [fst snd]. split; [done|].
    unfold undo_last_move; simpl. rewrite last_snoc; simpl.
    rewrite removelast_last. by destruct g.
Qed.

Lemma undo_n_S n g :
  undo_n (S n) g =
  g1 ← undo_n n g;
  (if (undo_last_move g1).1 then Some (undo_last_move g1).2 else None).
Proof.
  revert g. induction n as [|n IH]; intros g.
  - simpl. by destruct (undo_last_move g) as [[] g1].
  - change (undo_n (S (S n)) g)
      with (let '(ok, g1) := undo_last_move g in
            if ok then undo_n (S n) g1 else None).
    destruct (undo_last_move g) as [[] g1] eqn:E; [|by simpl; rewrite E].
    rewrite IH. simpl. by rewrite E.
Qed.

Lemma make_move_history_length mv color g :
  length (history (make_move mv color g).2) =
  (length (history g) + (if (make_move mv color g).1 then 1 else 0))%nat.
Proof.
  unfold make_move. destruct mv as [[row col]|].
  - destruct (negb (is_valid_move (gboard g) row col color)); simpl;
      [lia|rewrite length_app; simpl; lia].
  - simpl. rewrite length_app. simpl. lia.
Qed.

(** X7. Replay and rewind: after any sequence of [make_move] calls (legal
    moves, passes, rejected moves), the history has grown by one entry per
    accepted call, and as many calls of [undo_last_move] as calls were
    accepted all succeed and give back the game as it was. *)
Theorem undo_replays (g : game) (ms : list (option pos * Z)) :
  wf_board (gboard g) →
  let '(n, g') := play ms g in
  (n ≤ length ms)%nat ∧
  length (history g') = (length (history g) + n)%nat ∧
  undo_n n g' = Some g.
Proof.
  revert g. induction ms as [|[mv color] ms IH]; intros g Hb; simpl.
  - split_and!; [lia|lia|done].
  - pose proof (undo_after_make_move g mv color Hb) as Hundo.
    pose proof (make_move_history_length mv color g) as Hlen.
    pose proof (wf_make_move mv color g Hb) as Hb1.
    destruct (make_move mv color g) as [ok g1]. simpl in *.
    specialize (IH g1 Hb1). destruct (play ms g1) as [n g2].
    destruct IH as (Hn & Hh & Hun).
    destruct Hundo as [[-> Hundo]|[= -> ->]].
    + split_and!; [lia|lia|]. rewrite undo_n_S, Hun. simpl.
      by rewrite Hundo.
    + split_and!; [lia|lia|done].
Qed.

Lemma undo_replays_witness :
  let '(n, g') := play [(Some (2, 4), BLACK); (Some (0, 0), WHITE);
                        (None, WHITE)] init in
  (n ≤ 3)%nat ∧
  length (history g') = (length (history init) + n)%nat ∧
  undo_n n g' = Some init.
Proof.
  apply (undo_replays init [(Some (2, 4), BLACK); (Some (0, 0), WHITE);
                            (None, WHITE)]).
  exact wf_init.
Defined.

Lemma undo_last_move_history g :
  (length (history g) = 0%nat ∧ undo_last_move g = (false, g)) ∨
  ((undo_last_move g).1 = true ∧
   length (history g) = S (length (history (undo_last_move g).2))).
Proof.
  unfold undo_last_move. destruct (history g) as [|e h] using rev_ind.
  - by left.
  - right. clear IHh. rewrite last_snoc, removelast_last. simpl.
    destruct (e_move e) as [[row col]|]; simpl;
      rewrite length_app; simpl; split; try done; lia.
Qed.

Lemma undo_n_on_board (n : nat) (g g' : game) :
  wf_board (gboard g) → history_on_board g →
  undo_n n g = Some g' → wf_board (gboard g') ∧ history_on_board g'.
Proof.
  revert g. induction n as [|n IH]; intros g Hb Hh.
  - by intros [= <-].
  - simpl. pose proof (wf_undo_last_move g Hb) as Hb1.
    pose proof (history_on_board_undo_last_move g Hh) as Hh1.
    destruct (undo_last_move g) as [ok g1]. destruct ok; [|done].
    by apply IH.
Qed.

(** X8. On an 8x8 board with a history whose entries are on the board,
    [undo_last_move] called [n] times in a row succeeds exactly when the
    history holds at least [n] entries, and leaves such a board and such a
    history; on an empty history it returns False and leaves the game as it
    is. *)
Theorem undo_n_history (g : game) (n : nat) :
  wf_board (gboard g) → history_on_board g →
  (is_Some (undo_n n g) ↔ (n ≤ length (history g))%nat) ∧
  (∀ g', undo_n n g = Some g' → wf_board (gboard g') ∧ history_on_board g') ∧
  (history g = [] → undo_last_move g = (false, g)).
Proof.
  intros Hb Hh. split_and!.
  - clear Hb Hh. revert g. induction n as [|n IH]; intros g.
    + simpl. split; [lia|by eexists].
    + simpl. destruct (undo_last_move_history g) as [[H0 ->]|[Hok Hlen]].
      * split; [by intros [? ?]|lia].
      * destruct (undo_last_move g) as [ok g1]. simpl in *. subst ok.
        rewrite IH. lia.
  - intros g'. by apply undo_n_on_board.
  - intros E. destruct (undo_last_move_history g) as [[_ ?]|[_ Hlen]]; [done|].
    by rewrite E in Hlen.
Qed.

Lemma undo_n_history_witness :
  let g := (make_move (Some (2, 4)) BLACK init).2 in
  (is_Some (undo_n 1 g) ↔ (1 ≤ length (history g))%nat) ∧
  (∀ g', undo_n 1 g = Some g' → wf_board (gboard g') ∧ history_on_board g') ∧
  (history g = [] → undo_last_move g = (false, g)).
Proof.
  apply (undo_n_history (make_move (Some (2, 4)) BLACK init).2 1).
  - apply wf_make_move. exact wf_init.
  - apply history_on_board_make_move. apply Forall_nil_2.
Defined.


(** ** [apply_move] and Python's indices *)

Lemma py_index_8 i :
  py_index 8 i = if (-8 <=? i) && (i <? 8) then Some (Z.to_nat (i mod 8)) else None.
Proof.
  unfold py_index. change (Z.of_nat 8) with 8. change (Z.opp 8) with (-8).
  destruct (Z.leb_spec 0 i), (Z.ltb_spec i 8), (Z.leb_spec (-8) i),
    (Z.ltb_spec i 0); cbn [andb]; try lia; try done.
  - by rewrite Z.mod_small by lia.
  - f_equal. f_equal. rewrite <- (Z.mod_add i 1 8) by lia.
    rewrite Z.mod_small; lia.
Qed.

Lemma setitem2_wrap b r c v :
  wf_board b →
  setitem2 b r c v =
  if (-8 <=? r) && (r <? 8) && (-8 <=? c) && (c <? 8)
  then Some (set_cell b (r mod 8) (c mod 8) v) else None.
Proof.
  intros Hb. unfold setitem2. destruct (Hb) as [Hlen _]. rewrite Hlen.
  change (Z.to_nat BOARD_SIZE) with 8%nat. rewrite py_index_8.
  destruct ((-8 <=? r) && (r <? 8)) eqn:Er; [simpl|done].
  assert (0 ≤ r mod 8 < 8) as Hr by (apply Z.mod_pos_bound; lia).
  destruct (wf_board_row b (r mod 8) Hb Hr) as (row & Hrow & Hrlen).
  rewrite Hrow. simpl. rewrite Hrlen, py_index_8.
  destruct ((-8 <=? c) && (c <? 8)) eqn:Ec; [simpl|done].
  f_equal. unfold set_cell. rewrite list_insert_alter.
  apply list_alter_ext; [|done]. intros x Hx. congruence.
Qed.

(** X9. [apply_move] raises IndexError exactly when a coordinate of the move
    lies outside [-8, 8); a negative coordinate inside that range wraps
    around as Python indices do, and the disc lands on
    (row mod 8, col mod 8). *)
Theorem apply_move_index (b : board) (row col color : Z) :
  wf_board b →
  (apply_move b (Some (row, col)) color = None ↔
   ¬ (-8 ≤ row < 8 ∧ -8 ≤ col < 8)) ∧
  (-8 ≤ row < 8 → -8 ≤ col < 8 →
   ∃ b', apply_move b (Some (row, col)) color = Some b' ∧
         cell b' (row mod 8) (col mod 8) = color).
Proof.
  intros Hb. unfold apply_move. rewrite setitem2_wrap by done.
  destruct (decide (-8 ≤ row < 8 ∧ -8 ≤ col < 8)) as [Hin|Hout].
  - assert ((-8 <=? row) && (row <? 8) && (-8 <=? col) && (col <? 8) = true)
      as -> by (rewrite !andb_true_iff, !Z.leb_le, !Z.ltb_lt; lia).
    cbn [mbind option_bind].
    split; [split; [done|tauto]|]. intros _ _.
    assert (is_valid_position (row mod 8) (col mod 8) = true) as Hp.
    { apply is_valid_position_spec. split; apply Z.mod_pos_bound; lia. }
    eexists. split; [reflexivity|].
    apply (apply_move_loop _ color row col DIRECTIONS (row mod 8) (col mod 8));
      [by apply wf_set_cell|done|].
    rewrite cell_set_cell by done. by rewrite bool_decide_eq_true_2.
  - assert ((-8 <=? row) && (row <? 8) && (-8 <=? col) && (col <? 8) = false)
      as ->.
    { apply not_true_is_false.
      rewrite !andb_true_iff, !Z.leb_le, !Z.ltb_lt. lia. }
    cbn [mbind option_bind]. split; [done|]. intros; lia.
Qed.

Lemma apply_move_index_witness :
  (apply_move (gboard init) (Some (-1, 8)) BLACK = None ↔
   ¬ (-8 ≤ -1 < 8 ∧ -8 ≤ 8 < 8)) ∧
  (∃ b', apply_move (gboard init) (Some (-1, 3)) BLACK = Some b' ∧
         cell b' 7 3 = BLACK).
Proof.
  split.
  - apply (apply_move_index (gboard init) (-1) 8 BLACK). exact wf_init.
  - apply (apply_move_index (gboard init) (-1) 3 BLACK); [exact wf_init|lia..].
Defined.


(** ** Legality, declaratively *)






(** * Further properties of the evaluator *)







(** ** The range of the evaluation *)

Lemma count_two v w row :
  v ≠ w → 0 ≤ count v row ∧ 0 ≤ count w row ∧
          count v row + count w row ≤ Z.of_nat (length row).
Proof.
  intros Hne. induction row as [|x row IH]; cbn [count length]; [lia|].
  destruct (Z.eqb_spec x v), (Z.eqb_spec x w); lia.
Qed.

Lemma count_cells_two v w b :
  wf_board b → v ≠ w →
  0 ≤ count_cells v b ∧ 0 ≤ count_cells w b ∧
  count_cells v b + count_cells w b ≤ 64.
Proof.
  intros [Hlen Hrows] Hne. unfold count_cells, sum.
  assert (0 ≤ foldr Z.add 0 (map (count v) b) ∧
          0 ≤ foldr Z.add 0 (map (count w) b) ∧
          foldr Z.add 0 (map (count v) b) + foldr Z.add 0 (map (count w) b)
          ≤ Z.of_nat (length b) * 8) as H;
    [|rewrite Hlen in H; unfold BOARD_SIZE in H; lia].
  clear Hlen.
  induction Hrows as [|row b Hrow Hrows IH]; cbn [map foldr length]; [lia|].
  pose proof (count_two v w row Hne) as Hrow'.
  rewrite Hrow in Hrow'. unfold BOARD_SIZE in *. lia.
Qed.

Lemma length_flat_map_le {A B} (f : A → list B) (l : list A) (k : nat) :
  (∀ x, (length (f x) ≤ k)%nat) →
  (length (flat_map f l) ≤ k * length l)%nat.
Proof.
  intros Hf. induction l as [|x l IH]; simpl; [lia|].
  rewrite length_app. specialize (Hf x). lia.
Qed.

Lemma get_legal_moves_length b color :
  (length (get_legal_moves b color) ≤ 64)%nat.
Proof.
  unfold get_legal_moves.
  etrans; [apply (length_flat_map_le _ _ 8)|].
  - intros i. etrans; [apply (length_flat_map_le _ _ 1)|].
    + intros j. destruct (negb _); [simpl; lia|].
      destruct (existsb _ _); simpl; lia.
    + unfold range. rewrite length_map, length_seq. unfold BOARD_SIZE. lia.
  - unfold range. rewrite length_map, length_seq. unfold BOARD_SIZE. lia.
Qed.

Lemma edge_fold_bound b color acc l :
  let r := foldl (edge_step b color) acc l in
  acc.1 ≤ r.1 ∧ acc.2 ≤ r.2 ∧
  r.1 + r.2 ≤ acc.1 + acc.2 + Z.of_nat (length l).
Proof.
  revert acc. induction l as [|p l IH]; intros acc; cbn [foldl length].
  - lia.
  - specialize (IH (edge_step b color acc p)). cbv zeta in IH.
    assert (acc.1 ≤ (edge_step b color acc p).1 ∧
            acc.2 ≤ (edge_step b color acc p).2 ∧
            (edge_step b color acc p).1 + (edge_step b color acc p).2
            ≤ acc.1 + acc.2 + 1) as Hstep.
    { unfold edge_step. destruct acc as [x y].
      destruct (_ =? color); [simpl; lia|].
      destruct (_ =? - color); simpl; lia. }
    lia.
Qed.

Lemma stability_inner_bound b color ci cj di (l : list Z) st :
  let body := fun st dj =>
    if (di =? 0) && (dj =? 0) then st
    else
      let ni := ci + di in
      let nj := cj + dj in
      if (0 <=? ni) && (ni <? 8) && (0 <=? nj) && (nj <? 8)
         && (cell b ni nj =? color)
      then st + 1 else st in
  st ≤ foldl body st l ≤
  st + sum (map (fun dj =>
                   if (di =? 0) && (dj =? 0) then 0
                   else if (0 <=? ci + di) && (ci + di <? 8)
                           && (0 <=? cj + dj) && (cj + dj <? 8)
                        then 1 else 0) l).
Proof.
  intros body. revert st. unfold sum.
  induction l as [|dj l IH]; intros st; cbn [foldl map foldr]; [lia|].
  specialize (IH (body st dj)).
  assert (st ≤ body st dj ≤
          st + (if (di =? 0) && (dj =? 0) then 0
                else if (0 <=? ci + di) && (ci + di <? 8)
                        && (0 <=? cj + dj) && (cj + dj <? 8)
                     then 1 else 0)) as Hstep; [|lia].
  unfold body. destruct ((di =? 0) && (dj =? 0)); [lia|]. cbv zeta.
  destruct ((0 <=? ci + di) && (ci + di <? 8) && (0 <=? cj + dj)
            && (cj + dj <? 8)); cbn [andb]; [|lia].
  destruct (cell b (ci + di) (cj + dj) =? color); lia.
Qed.

Lemma stability_outer_bound b color ci cj (R l : list Z) st :
  st ≤ foldl (fun st di =>
         foldl (fun st dj =>
           if (di =? 0) && (dj =? 0) then st
           else
             let ni := ci + di in
             let nj := cj + dj in
             if (0 <=? ni) && (ni <? 8) && (0 <=? nj) && (nj <? 8)
                && (cell b ni nj =? color)
             then st + 1 else st) st R) st l ≤
  st + sum (map (fun di =>
             sum (map (fun dj =>
                   if (di =? 0) && (dj =? 0) then 0
                   else if (0 <=? ci + di) && (ci + di <? 8)
                           && (0 <=? cj + dj) && (cj + dj <? 8)
                        then 1 else 0) R)) l).
Proof.
  revert st. unfold sum at 1.
  induction l as [|di l IH]; intros st; cbn [foldl map foldr]; [lia|].
  pose proof (stability_inner_bound b color ci cj di R st) as Hin.
  cbv zeta in Hin.
  set (st' := foldl _ st R) in *. specialize (IH st'). lia.
Qed.

Lemma stability_step_bound b color st corner :
  In corner corners_idx →
  st ≤ stability_step b color st corner ≤ st + 4.
Proof.
  intros Hc. unfold stability_step. destruct corner as [ci cj].
  destruct (cell b ci cj =? color); [|lia].
  pose proof (stability_outer_bound b color ci cj (range2 (-1) 2)
                (range2 (-1) 2) (st + 1)) as H.
  assert (sum (map (fun di =>
             sum (map (fun dj =>
                   if (di =? 0) && (dj =? 0) then 0
                   else if (0 <=? ci + di) && (ci + di <? 8)
                           && (0 <=? cj + dj) && (cj + dj <? 8)
                        then 1 else 0) (range2 (-1) 2))) (range2 (-1) 2)) = 3)
    as E.
  { unfold corners_idx in Hc. simpl in Hc.
    destruct Hc as [[= <- <-]|[[= <- <-]|[[= <- <-]|[[= <- <-]|[]]]]];
      by vm_compute. }
  rewrite E in H. cbv zeta in H. cbv zeta. lia.
Qed.

Lemma stability_of_bound b color : 0 ≤ stability_of b color ≤ 16.
Proof.
  unfold stability_of, corners_idx. cbn [foldl].
  pose proof (stability_step_bound b color 0 (0, 0)) as H1.
  pose proof (stability_step_bound b color
                (stability_step b color 0 (0, 0)) (0, 7)) as H2.
  pose proof (stability_step_bound b color
                (stability_step b color (stability_step b color 0 (0, 0)) (0, 7))
                (7, 0)) as H3.
  pose proof (stability_step_bound b color
                (stability_step b color
                   (stability_step b color (stability_step b color 0 (0, 0)) (0, 7))
                   (7, 0)) (7, 7)) as H4.
  unfold corners_idx in *. simpl In in *.
  specialize (H1 ltac:(tauto)). specialize (H2 ltac:(tauto)).
  specialize (H3 ltac:(tauto)). specialize (H4 ltac:(tauto)). lia.
Qed.

Lemma corner_sum_bound b v :
  0 ≤ sum (flat_map (fun '(i, j) => if cell b i j =? v then [1] else [])
             corners_idx) ≤ 4.
Proof.
  unfold corners_idx, sum. cbn [flat_map].
  destruct (cell b 0 0 =? v), (cell b 0 7 =? v), (cell b 7 0 =? v),
    (cell b 7 7 =? v); simpl; lia.
Qed.

(** X13. On every 8x8 board the evaluation stays between -1332 and 1396, for
    any colour. *)
Theorem evaluate_board_range (b : board) (color : Z) :
  wf_board b → -1332 ≤ evaluate_board b color ≤ 1396.
Proof.
  intros Hb. unfold evaluate_board. cbv zeta.
  pose proof (count_cells_two BLACK WHITE b Hb ltac:(done)) as HBW.
  unfold count_cells in HBW.
  pose proof (get_legal_moves_length b color) as Hm1.
  pose proof (get_legal_moves_length b (- color)) as Hm2.
  pose proof (corner_sum_bound b color) as Hc1.
  pose proof (corner_sum_bound b (- color)) as Hc2.
  pose proof (stability_of_bound b color) as Hs. unfold stability_of in Hs.
  pose proof (edge_fold_bound b color (0, 0)
                (flat_map (fun i => map (fun j => (i, j)) (range 8)) [0; 7]))
    as He0.
  cbv zeta in He0.
  set (e0 := foldl (edge_step b color) (0, 0) _) in *.
  pose proof (edge_fold_bound b color e0
                (flat_map (fun j => map (fun i => (i, j)) (range2 1 7)) [0; 7]))
    as He.
  cbv zeta in He.
  set (e := foldl (edge_step b color) e0 _) in *.
  change (length (flat_map (fun i => map (fun j => (i, j)) (range 8)) [0; 7]))
    with 16%nat in He0.
  change (length (flat_map (fun j => map (fun i => (i, j)) (range2 1 7)) [0; 7]))
    with 12%nat in He.
  set (B := sum (map (count BLACK) b)) in *.
  set (W := sum (map (count WHITE) b)) in *.
  set (m1 := length (get_legal_moves b color)) in *.
  set (m2 := length (get_legal_moves b (- color))) in *.
  set (c1 := sum (flat_map _ corners_idx)) in *.
  set (c2 := sum (flat_map _ corners_idx)) in *.
  set (s1 := foldl (stability_step b color) 0 corners_idx) in *.
  clearbody B W m1 m2 c1 c2 s1 e e0.
  destruct e0 as [x0 y0], e as [my opp]. cbn [fst snd] in *.
  unfold WEIGHTS. cbn [Config.material Config.mobility Config.corner
                       Config.edge Config.stability].
  destruct (color =? BLACK), (negb (Z.of_nat m1 + Z.of_nat m2 =? 0)); lia.
Qed.

Lemma evaluate_board_range_witness :
  -1332 ≤ evaluate_board (gboard init) BLACK ≤ 1396.
Proof. apply evaluate_board_range. exact wf_init. Defined.


(** * Further properties of the search *)

(** X14. With unlimited time and any window [alpha < beta], [alphabeta_search]
    is fail-soft around the minimax value of the node: a returned score
    inside the window is the minimax score (and the returned move the
    minimax move), a score at or below [alpha] is an upper bound of it and
    a score at or above [beta] a lower bound. *)
Theorem alphabeta_search_fail_soft (clock : nat → Z) (color : Z) (depth : nat)
    (b : board) (alpha beta : ext) (maximizing : bool) (s : ai) :
  wf_board b → unlimited clock s → ext_lt alpha beta = true →
  ∃ mv v s',
    alphabeta_search clock color depth b alpha beta maximizing s
      = Some ((mv, v), s') ∧
    fail_soft alpha beta v (minimax color depth b maximizing).2 ∧
    (∀ z, v = Fin z → ext_lt alpha (Fin z) = true → ext_lt (Fin z) beta = true →
          mv = (minimax color depth b maximizing).1).
Proof.
  intros Hb Hu Hlt.
  destruct (alphabeta_search_ab clock color depth b alpha beta maximizing s Hb Hu)
    as (s' & E & _).
  destruct (ab_fail_soft color depth b alpha beta maximizing Hlt) as [Hfs Hmv].
  destruct (ab color depth b alpha beta maximizing) as [mv v].
  exists mv, v, s'. by split_and!.
Qed.

Lemma alphabeta_search_fail_soft_witness :
  ∃ mv v s',
    alphabeta_search (fun _ => 0) BLACK 2 (gboard init) (Fin 0) (Fin 100) true
      {| start_time := Some 0; best_move := None;
         nodes_evaluated := 0; ticks := 0 |}
      = Some ((mv, v), s') ∧
    fail_soft (Fin 0) (Fin 100) v (minimax BLACK 2 (gboard init) true).2 ∧
    (∀ z, v = Fin z → ext_lt (Fin 0) (Fin z) = true →
          ext_lt (Fin z) (Fin 100) = true →
          mv = (minimax BLACK 2 (gboard init) true).1).
Proof.
  apply (alphabeta_search_fail_soft (fun _ => 0) BLACK 2 (gboard init)).
  - exact wf_init.
  - intros t0 [= <-] k. reflexivity.
  - reflexivity.
Defined.

(** ** The worker process returns *)

Section WorkerTotal.

Variable wclock : nat → Z.
Variable color : Z.
Variable t0 : Z.

Lemma w_max_loop_total rec b nc beta moves value alpha k :
  wf_board b →
  Forall (fun p : pos => is_valid_position p.1 p.2 = true) moves →
  (∀ nb a bt k0, wf_board nb → is_Some (rec nb a bt k0)) →
  is_Some (w_max_loop rec b nc beta moves value alpha k).
Proof.
  intros Hb Hmoves Hrec. revert value alpha k.
  induction Hmoves as [|m rest Hm Hrest IH]; intros value alpha k; simpl.
  - by eexists.
  - destruct (successor_apply_move b m nc Hb Hm) as [-> Hb2]. simpl.
    destruct (Hrec (successor b m nc) alpha beta k Hb2) as [[e k1] ->]. simpl.
    destruct (ext_le beta (ext_max alpha e)); [by eexists|]. apply IH.
Qed.

Lemma w_min_loop_total rec b nc alpha moves value beta k :
  wf_board b →
  Forall (fun p : pos => is_valid_position p.1 p.2 = true) moves →
  (∀ nb a bt k0, wf_board nb → is_Some (rec nb a bt k0)) →
  is_Some (w_min_loop rec b nc alpha moves value beta k).
Proof.
  intros Hb Hmoves Hrec. revert value beta k.
  induction Hmoves as [|m rest Hm Hrest IH]; intros value beta k; simpl.
  - by eexists.
  - destruct (successor_apply_move b m nc Hb Hm) as [-> Hb2]. simpl.
    destruct (Hrec (successor b m nc) alpha beta k Hb2) as [[e k1] ->]. simpl.
    destruct (ext_le (ext_min beta e) alpha); [by eexists|]. apply IH.
Qed.

Lemma w_alphabeta_total d b alpha beta maximizing k :
  wf_board b →
  is_Some (w_alphabeta wclock color (Some t0) TIME_LIMIT d b alpha beta
             maximizing k).
Proof.
  revert b alpha beta maximizing k.
  induction d as [|d IH]; intros b alpha beta maximizing k Hb;
    cbn [w_alphabeta]; cbv zeta.
  - by eexists.
  - case_bool_decide; [by eexists|]. unfold w_time_exceeded. simpl.
    destruct (wclock k - t0 >=? TIME_LIMIT); [by eexists|].
    destruct maximizing.
    + apply w_max_loop_total; [done|apply get_legal_moves_valid|].
      intros. by apply IH.
    + apply w_min_loop_total; [done|apply get_legal_moves_valid|].
      intros. by apply IH.
Qed.

End WorkerTotal.

(** X15. A worker called for a depth of at least 1, whose deadline never
    passes, returns its root move with the exact minimax score of the
    position after that move, searched to [depth - 1] plies from the
    opponent's side. *)
Theorem parallel_worker_exact (wclock : nat → Z) (color t0 : Z) (b : board)
    (move : pos) (depth : nat) :
  (1 ≤ depth)%nat →
  wf_board b → is_valid_position move.1 move.2 = true →
  worker_unlimited wclock (Some t0) →
  _parallel_worker wclock color (Some t0) TIME_LIMIT b move depth =
  Some (move,
        Fin (minimax color (Nat.pred depth) (successor b move color) false).2).
Proof.
  intros _ Hb Hm Hu.
  destruct (successor_apply_move b move color Hb Hm) as [E Hb2].
  destruct (w_alphabeta_total wclock color t0 (Nat.pred depth)
              (successor b move color) NegInf PosInf false 0%nat Hb2)
    as [[score k] Ew].
  assert (_parallel_worker wclock color (Some t0) TIME_LIMIT b move depth
          = Some (move, score)) as Er.
  { unfold _parallel_worker. rewrite E. simpl. by rewrite Ew. }
  rewrite Er. f_equal. by apply (_parallel_worker_minimax _ _ _ Hu) in Er.
Qed.

Lemma parallel_worker_exact_witness :
  _parallel_worker (fun _ => 0) BLACK (Some 0) TIME_LIMIT (gboard init) (2, 4) 3 =
  Some ((2, 4),
        Fin (minimax BLACK (Nat.pred 3) (successor (gboard init) (2, 4) BLACK)
               false).2).
Proof.
  apply parallel_worker_exact.
  - lia.
  - exact wf_init.
  - reflexivity.
  - intros t0 [= <-] k. reflexivity.
Defined.

(** ** What the root searches may return *)

(** X16. Whatever the clocks, the processor count and the pool do, both root
    searches return, leave [start_time] and [best_move] as they are, and
    return as move either nothing, or one of the moves they were given, or
    (the parallel search, when the deadline has passed) the current best
    move. *)
Theorem root_searches_return_given_moves (clock : nat → Z) (cpu_count : nat)
    (pool_raises : nat → bool) (worker_clock : nat → nat → nat → Z)
    (color : Z) (b : board) (moves : list pos) (depth : nat) (s : ai) :
  wf_board b →
  Forall (fun p : pos => is_valid_position p.1 p.2 = true) moves →
  (∃ r s', _root_search_sequential clock color b moves depth s = Some (r, s') ∧
           frame s s' ∧ (r.1 = None ∨ ∃ m, r.1 = Some m ∧ In m moves)) ∧
  (∃ r s', _root_search_parallel clock cpu_count pool_raises worker_clock color
             b moves depth s = Some (r, s') ∧
           frame s s' ∧
           (r.1 = None ∨ r.1 = best_move s ∨ ∃ m, r.1 = Some m ∧ In m moves)).
Proof.
  intros Hb Hmoves. split.
  - destruct (root_loop_total clock color b depth moves None NegInf NegInf s
                Hb Hmoves) as (r & s' & E & F & Hr).
    exists r, s'. split_and!; [done..|]. destruct Hr; auto.
  - by apply _root_search_parallel_total.
Qed.

Lemma root_searches_return_given_moves_witness :
  (∃ r s', _root_search_sequential (fun k => Z.of_nat k) BLACK (gboard init)
             [(2, 4); (3, 5)] 2 new_ai = Some (r, s') ∧
           frame new_ai s' ∧
           (r.1 = None ∨ ∃ m, r.1 = Some m ∧ In m [(2, 4); (3, 5)])) ∧
  (∃ r s', _root_search_parallel (fun k => Z.of_nat k) 2 (fun _ => false)
             (fun _ _ k => Z.of_nat k) BLACK
             (gboard init) [(2, 4); (3, 5)] 2 new_ai = Some (r, s') ∧
           frame new_ai s' ∧
           (r.1 = None ∨ r.1 = best_move new_ai ∨
            ∃ m, r.1 = Some m ∧ In m [(2, 4); (3, 5)])).
Proof.
  apply root_searches_return_given_moves; [exact wf_init|].
  repeat constructor.
Defined.


(** ** [get_move] from end to end *)

Lemma minimax_root color d b first others :
  get_legal_moves b color = first :: others →
  minimax color (S d) b true =
  let r := first_best Z.gtb (first, root_val color b (S d) first)
             (map (fun mv => (mv, root_val color b (S d) mv)) others) in
  (Some r.1, r.2).
Proof.
  intros E. cbn [minimax]. rewrite E. cbn [map negb]. unfold root_val.
  cbn [Nat.pred]. cbv zeta. by destruct (first_best Z.gtb _ _).
Qed.

Section GetMoveUnlimited.

Variable clock : nat → Z.
Variable cpu_count : nat.
Variable pool_raises : nat → bool.
Variable worker_clock : nat → nat → nat → Z.
Variable color : Z.
Variable b : board.

Hypothesis Hb : wf_board b.

Lemma _root_search_parallel_first_best depth first others s :
  get_legal_moves b color = first :: others →
  unlimited clock s →
  (∀ call i, worker_unlimited (worker_clock call i) (start_time s)) →
  let r := first_best Z.gtb (first, root_val color b depth first)
             (map (fun mv => (mv, root_val color b depth mv)) others) in
  ∃ s', _root_search_parallel clock cpu_count pool_raises worker_clock color
          b (first :: others) depth s = Some ((Some r.1, Fin r.2), s')
        ∧ frame s s'.
Proof.
  intros E Hu Hw r.
  pose proof (get_legal_moves_valid b color) as Hvalid. rewrite E in Hvalid.
  destruct (time_exceeded_unlimited clock s Hu) as (s1 & E1 & F1).
  assert (unlimited clock s1) as Hu1 by by eapply unlimited_frame.
  destruct (_root_search_sequential_first_best clock color b depth
              first others s1 Hb Hvalid Hu1) as (s3 & Eseq1 & F3).
  assert (frame s s3) as F13 by by eapply frame_trans.
  unfold _root_search_parallel. rewrite (bind_Some _ _ _ _ _ E1).
  destruct (_ <=? 1)%nat; [by eauto|].
  destruct (pool_raises (ticks s1)); [by eauto|].
  destruct (pool_map _ _ _ _ _ _ _) as [results|] eqn:Epool; [|by eauto].
  apply pool_map_results in Epool; [|destruct F1 as [-> _]; apply Hw].
  rewrite Epool, py_max_key_first_best. cbv zeta. by eauto.
Qed.

Lemma root_search_unlimited depth first others s :
  get_legal_moves b color = first :: others →
  unlimited clock s →
  (∀ call i, worker_unlimited (worker_clock call i) (start_time s)) →
  ∃ s', root_search clock cpu_count pool_raises worker_clock color b
          (S depth) s
        = Some (((minimax color (S depth) b true).1,
                 Fin (minimax color (S depth) b true).2), s')
        ∧ frame s s'.
Proof.
  intros E Hu Hw. rewrite (minimax_root color depth b first others E).
  cbv zeta. cbn [fst snd]. unfold root_search. rewrite E.
  pose proof (get_legal_moves_valid b color) as Hvalid. rewrite E in Hvalid.
  destruct (_ || _).
  - by apply _root_search_sequential_first_best.
  - by apply _root_search_parallel_first_best.
Qed.

Lemma deepening_unlimited depths first others s :
  get_legal_moves b color = first :: others →
  unlimited clock s →
  (∀ call i, worker_unlimited (worker_clock call i) (start_time s)) →
  Forall (fun d => (1 ≤ d)%nat) depths →
  ∃ s', deepening clock cpu_count pool_raises worker_clock color b
          (get_legal_moves b color) depths s = Some (tt, s')
        ∧ start_time s' = start_time s
        ∧ best_move s' = match last depths with
                         | None => best_move s
                         | Some d => (minimax color d b true).1
                         end.
Proof.
  intros E Hu Hw Hdepths. revert s Hu Hw.
  induction Hdepths as [|depth rest Hd Hrest IH]; intros s Hu Hw.
  - exists s. by split_and!.
  - destruct depth as [|depth]; [lia|]. cbn [deepening].
    destruct (time_exceeded_unlimited clock s Hu) as (s1 & E1 & F1).
    rewrite (bind_Some _ _ _ _ _ E1).
    assert (unlimited clock s1) as Hu1 by by eapply unlimited_frame.
    destruct (root_search_unlimited depth first others s1 E Hu1)
      as (s2 & E2 & F2).
    { destruct F1 as [-> _]. apply Hw. }
    unfold root_search in E2. rewrite (bind_Some _ _ _ _ _ E2).
    assert (unlimited clock s2) as Hu2 by by eapply unlimited_frame.
    destruct (time_exceeded_unlimited clock s2 Hu2) as (s3 & E3 & F3).
    rewrite (bind_Some _ _ _ _ _ E3).
    pose proof (minimax_root color depth b first others E) as Hmm.
    cbv zeta in Hmm.
    assert ((minimax color (S depth) b true).1 ≠ None) as Hsome
      by by rewrite Hmm.
    rewrite (bool_decide_eq_false_2 _ Hsome). cbn [negb andb].
    unfold bind at 1, set_best_move at 1.
    assert (start_time s3 = start_time s) as Hst.
    { destruct F1 as [F1 _], F2 as [F2 _], F3 as [F3 _]. congruence. }

    edestruct (IH {| start_time := start_time s3;
                     best_move := (minimax color (S depth) b true).1;
                     nodes_evaluated := nodes_evaluated s3;
                     ticks := ticks s3 |}) as (s' & Ed & Hst' & Hbest).
    + intros t1 Ht1 k. simpl in Ht1. apply (Hu t1); congruence.
    + intros call i. simpl. rewrite Hst. apply Hw.
    + exists s'. split_and!; [done|rewrite Hst'; exact Hst|].
      rewrite Hbest. destruct rest as [|d' rest']; [reflexivity|].
      change (last (S depth :: d' :: rest')) with (last (d' :: rest')).
      destruct (last (d' :: rest')) eqn:El; [done|].
      by apply last_None in El.
Qed.

End GetMoveUnlimited.

(** X17. With unlimited time, for the main process and for every worker,
    [get_move] returns the move that full-width minimax to depth [DMAX]
    chooses for the engine's colour. *)
Theorem get_move_unlimited (clock : nat → Z) (cpu_count : nat)
    (pool_raises : nat → bool) (worker_clock : nat → nat → nat → Z)
    (color : Z) (b : board) (s : ai) :
  wf_board b →
  get_legal_moves b color ≠ [] →
  (∀ k, clock k - clock (ticks s) < TIME_LIMIT) →
  (∀ call i k, worker_clock call i k - clock (ticks s) < TIME_LIMIT) →
  ∃ s', get_move clock cpu_count pool_raises worker_clock color b s
        = Some ((minimax color DMAX b true).1, s').
Proof.
  intros Hb Hne Hclock Hworkers. unfold get_move.
  destruct (get_legal_moves b color) as [|first others] eqn:E; [done|].
  rewrite <- E. unfold bind at 1, set_best_move at 1.
  cbn [start_time best_move nodes_evaluated ticks].
  destruct (deepening_unlimited clock cpu_count pool_raises worker_clock color b
              Hb (seq 1 DMAX) first others
              {| start_time := Some (clock (ticks s)); best_move := Some first;
                 nodes_evaluated := 0; ticks := S (ticks s) |})
    as (s' & Ed & _ & Hbest).
  - done.
  - intros t1 [= <-] k. apply Hclock.
  - intros call i t1 [= <-] k. apply Hworkers.
  - apply Forall_forall. intros d Hd%list_elem_of_In%in_seq. lia.
  - rewrite (bind_Some _ _ _ _ _ Ed). exists s'. by rewrite Hbest.
Qed.

Lemma get_move_unlimited_witness :
  ∃ s', get_move (fun _ => 0) 4 (fun _ => false) (fun _ _ _ => 0) BLACK
          (gboard init) new_ai
        = Some ((minimax BLACK DMAX (gboard init) true).1, s').
Proof.
  apply get_move_unlimited.
  - exact wf_init.
  - by vm_compute.
  - intros k. reflexivity.
  - intros call i k. reflexivity.
Defined.

(** X18. [get_move] always returns; it returns None exactly when its colour has
    no legal move, and what it returns is what it leaves in [best_move]. *)
Theorem get_move_none_iff (clock : nat → Z) (cpu_count : nat)
    (pool_raises : nat → bool) (worker_clock : nat → nat → nat → Z)
    (color : Z) (b : board) (s : ai) :
  wf_board b →
  ∃ r s', get_move clock cpu_count pool_raises worker_clock color b s
            = Some (r, s') ∧
          (r = None ↔ get_legal_moves b color = []) ∧
          best_move s' = r.
Proof.
  intros Hb. unfold get_move.
  destruct (get_legal_moves b color) as [|first others] eqn:E.
  - do 2 eexists. by split_and!.
  - rewrite <- E. unfold bind at 1, set_best_move at 1.
    cbn [start_time best_move nodes_evaluated ticks].
    destruct (deepening_total clock cpu_count pool_raises worker_clock color b Hb
                (seq 1 DMAX)
                {| start_time := Some (clock (ticks s)); best_move := Some first;
                   nodes_evaluated := 0; ticks := S (ticks s) |})
      as (s' & Ed & (m & Hm & Hin)).
    { exists first. split; [reflexivity|]. rewrite E. by left. }
    rewrite (bind_Some _ _ _ _ _ Ed). exists (best_move s'), s'.
    split_and!; [done| |done]. rewrite Hm, E. by split.
Qed.

Lemma get_move_none_iff_witness :
  ∃ r s', get_move (fun k => Z.of_nat k) 4 (fun _ => false)
            (fun _ _ k => Z.of_nat k) WHITE pass_board new_ai
            = Some (r, s') ∧
          (r = None ↔ get_legal_moves pass_board WHITE = []) ∧
          best_move s' = r.
Proof. apply get_move_none_iff. exact wf_pass_board. Defined.


(** * Properties of the helpers of utils.py *)

(** X19. [clamp] keeps a value within well-ordered bounds and leaves a value
    already within them as it is; with inverted bounds ([hi < lo]) it
    returns [lo] whatever the value; and clamping twice changes nothing. *)
Theorem clamp_bounds (v lo hi : Z) :
  (lo ≤ hi → lo ≤ Utils.clamp v lo hi ≤ hi) ∧
  (lo ≤ v ≤ hi → Utils.clamp v lo hi = v) ∧
  (lo ≤ hi → v < lo → Utils.clamp v lo hi = lo) ∧
  (lo ≤ hi → hi < v → Utils.clamp v lo hi = hi) ∧
  (hi < lo → Utils.clamp v lo hi = lo) ∧
  Utils.clamp (Utils.clamp v lo hi) lo hi = Utils.clamp v lo hi.
Proof.
  unfold Utils.clamp, Utils.py_max, Utils.py_min.
  split_and!; intros;
    repeat match goal with
           | |- context [?a <? ?b] =>
               is_var a; is_var b; destruct (Z.ltb_spec a b)
           end; lia.
Qed.

(** X20. [format_seconds] returns the text 00:00 for every negative argument,
    and for every other argument it raises: the minutes and seconds are
    computed only when the argument is negative. *)
Theorem format_seconds_result (s : Z) :
  (s < 0 → Utils.format_seconds s = Some "00:00"%string) ∧
  (0 ≤ s → Utils.format_seconds s = None).
Proof.
  unfold Utils.format_seconds. split; intros H.
  - replace (s <? 0) with true by (symmetry; apply Z.ltb_lt; lia). reflexivity.
  - replace (s <? 0) with false by (symmetry; apply Z.ltb_ge; lia). reflexivity.
Qed.


(** * Properties of the game session of gui.py *)

Import Gui.

(** X21. draw_board and on_canvas_click are inverse to each other: a click is
    read as the cell (r, c) exactly when (r, c) is on the board and the
    pixel lies in the rectangle painted for that cell, its left and top
    borders included and its right and bottom borders excluded.  Clicks in
    the padding or beyond the board give no cell. *)
Theorem click_cell_cell_rect (x y r c : Z) :
  click_cell x y = Some (r, c) ↔
  is_valid_position r c = true ∧
  let '(x0, y0, x1, y1) := cell_rect r c in
  x0 ≤ x < x1 ∧ y0 ≤ y < y1.
Proof.
  unfold click_cell, cell_rect, CELL_SIZE, CANVAS_PADDING.
  rewrite is_valid_position_spec. unfold BOARD_SIZE.
  pose proof (Z.div_mod (x - 20) 60 ltac:(lia)) as Hx.
  pose proof (Z.mod_pos_bound (x - 20) 60 ltac:(lia)) as Hx'.
  pose proof (Z.div_mod (y - 20) 60 ltac:(lia)) as Hy.
  pose proof (Z.mod_pos_bound (y - 20) 60 ltac:(lia)) as Hy'.
  split.
  - destruct (_ && _) eqn:E; [|done]. intros [= <- <-].
    repeat (apply andb_prop in E as [E ?]).
    lia.
  - intros (Hv & Hxr & Hyr).
    assert ((x - 20) / 60 = c) as -> by nia.
    assert ((y - 20) / 60 = 7 - r) as -> by nia.
    replace (8 - 1 - (7 - r)) with r by lia.
    replace (_ && _) with true; [done|].
    symmetry. repeat (apply andb_true_intro; split); lia.
Qed.

Lemma check_game_over_eq st :
  check_game_over st =
  (is_game_over (gboard (g_game st)),
   (if is_game_over (gboard (g_game st))
    then {| g_game := g_game st; human_color := human_color st;
            current_player := current_player st; game_over := true;
            paused := paused st |}
    else st),
   (if is_game_over (gboard (g_game st))
    then Some (winner_text (gboard (g_game st))) else None)).
Proof.
  unfold check_game_over, is_game_over, winner_text, get_winner, count_discs.
  destruct (_ && _); [|done].
  do 2 f_equal.
  destruct (_ >? _) eqn:E1; [done|].
  destruct (sum (map (count WHITE) _) >? _) eqn:E2; done.
Qed.

(** X22. check_game_over repeats the logic of the rules engine: it returns
    what [is_game_over] returns, sets the game-over flag exactly then and
    changes nothing else, and the winner it announces is the one of
    [get_winner], a tie being [get_winner]'s EMPTY. *)
Theorem check_game_over_agrees (st : gui) :
  let b := gboard (g_game st) in
  let '(over, st', winner) := check_game_over st in
  over = is_game_over b ∧
  g_game st' = g_game st ∧
  current_player st' = current_player st ∧
  human_color st' = human_color st ∧
  paused st' = paused st ∧
  game_over st' = game_over st || over ∧
  winner = (if over then Some (winner_text b) else None) ∧
  (winner_text b = "Tie"%string ↔ get_winner b = EMPTY) ∧
  (get_winner b = BLACK → winner_text b = "Black"%string) ∧
  (get_winner b = WHITE → winner_text b = "White"%string).
Proof.
  cbv zeta. rewrite check_game_over_eq.
  set (b := gboard (g_game st)).
  assert (Hw : get_winner b = BLACK ∨ get_winner b = WHITE ∨ get_winner b = EMPTY).
  { unfold get_winner. destruct (count_discs b) as [bl wh].
    destruct (bl >? wh); [by left|]. destruct (wh >? bl); [by right; left|].
    by right; right. }
  split_and!; try done; try (by destruct (is_game_over b)).
  - destruct (is_game_over b); simpl;
      [by rewrite orb_true_r | by rewrite orb_false_r].
  - unfold winner_text.
    destruct Hw as [-> | [-> | ->]]; vm_compute; split; congruence.
  - unfold winner_text. by intros ->.
  - unfold winner_text. by intros ->.
Qed.


#[local] Arguments make_move : simpl never.
#[local] Arguments check_game_over : simpl never.

Lemma make_move_cases mv color g :
  (make_move mv color g = (false, g) ∧
   ∃ r c, mv = Some (r, c) ∧ is_valid_move (gboard g) r c color = false) ∨
  (∃ e g', make_move mv color g = (true, g') ∧
           history g' = history g ++ [e] ∧
           e_move e = mv ∧ e_color e = color ∧
           (mv = None → gboard g' = gboard g) ∧
           (∀ r c, mv = Some (r, c) →
                   is_valid_move (gboard g) r c color = true)).
Proof.
  unfold make_move. destruct mv as [[r c]|].
  - destruct (is_valid_move (gboard g) r c color) eqn:E; simpl.
    + right. do 2 eexists. split; [reflexivity|]. simpl.
      split_and!; try done. by intros ?? [= <- <-].
    + left. split; [done|]. by exists r, c.
  - right. do 2 eexists. split; [reflexivity|]. simpl. by split_and!.
Qed.

Lemma get_legal_moves_legal_moves b color :
  get_legal_moves b color = legal_moves b color.
Proof.
  unfold legal_moves, get_legal_moves.
  apply flat_map_ext_in. intros i Hi%in_range.
  apply flat_map_ext_in. intros j Hj%in_range.
  unfold is_valid_move.
  replace (is_valid_position i j) with true; [simpl|].
  - by destruct (negb (cell b i j =? EMPTY)),
         (existsb (outflanks b color i j) DIRECTIONS).
  - symmetry. apply is_valid_position_spec. unfold BOARD_SIZE in *. lia.
Qed.

Lemma get_move_result clock cpu_count pool_raises worker_clock color b s :
  wf_board b →
  ∃ r s', get_move clock cpu_count pool_raises worker_clock color b s
            = Some (r, s') ∧
          match r with
          | None => legal_moves b color = []
          | Some m => In m (legal_moves b color)
          end.
Proof.
  intros Hb. unfold get_move. rewrite <- get_legal_moves_legal_moves.
  destruct (get_legal_moves b color) as [|first others] eqn:E.
  - by do 2 eexists.
  - rewrite <- E. unfold bind at 1, set_best_move at 1.
    cbn [start_time best_move nodes_evaluated ticks].
    destruct (deepening_total clock cpu_count pool_raises worker_clock color b Hb
                (seq 1 DMAX)
                {| start_time := Some (clock (ticks s)); best_move := Some first;
                   nodes_evaluated := 0; ticks := S (ticks s) |})
      as (s' & Ed & (m & Hm & Hin)).
    { exists first. split; [reflexivity|]. rewrite E. by left. }
    rewrite (bind_Some _ _ _ _ _ Ed). exists (best_move s'), s'.
    split; [done|]. by rewrite Hm.
Qed.


Lemma _apply_ai_move_cases (best_move : option pos) (st : gui) :
  game_over st = false → paused st = false →
  let st' := _apply_ai_move best_move st in
  let cp := current_player st in
  ∃ e, history (g_game st') = history (g_game st) ++ [e] ∧
       e_color e = cp ∧
       e_move e =
         (if (make_move best_move cp (g_game st)).1 then best_move else None) ∧
       (e_move e = None → gboard (g_game st') = gboard (g_game st)) ∧
       (∀ m, e_move e = Some m →
             make_move (Some m) cp (g_game st) = (true, g_game st')) ∧
       game_over st' = is_game_over (gboard (g_game st')) ∧
       current_player st' = (if game_over st' then cp else get_opponent cp).
Proof.
  intros Eo Ep. cbv zeta. unfold _apply_ai_move. rewrite Eo, Ep. simpl.
  set (cp := current_player st).
  assert (Hfin : ∀ g e,
    history g = history (g_game st) ++ [e] → e_color e = cp →
    e_move e = (if (make_move best_move cp (g_game st)).1 then best_move else None) →
    (e_move e = None → gboard g = gboard (g_game st)) →
    (∀ m, e_move e = Some m → make_move (Some m) cp (g_game st) = (true, g)) →
    let st' := (let '(over, st0, _) := check_game_over (with_game st g) in
                if over then st0 else with_player st0 (get_opponent (current_player st0))) in
    ∃ e, history (g_game st') = history (g_game st) ++ [e] ∧
       e_color e = cp ∧
       e_move e =
         (if (make_move best_move cp (g_game st)).1 then best_move else None) ∧
       (e_move e = None → gboard (g_game st') = gboard (g_game st)) ∧
       (∀ m, e_move e = Some m →
             make_move (Some m) cp (g_game st) = (true, g_game st')) ∧
       game_over st' = is_game_over (gboard (g_game st')) ∧
       current_player st' = (if game_over st' then cp else get_opponent cp)).
  { intros g e Hh Hc Hm Hb Hmk. cbv zeta. rewrite check_game_over_eq.
    cbn [g_game with_game current_player human_color paused].
    exists e.
    destruct (is_game_over (gboard g)) eqn:Eg; simpl; by rewrite ?Eg, ?Eo. }
  destruct best_move as [[r c]|].
  - destruct (make_move_cases (Some (r, c)) cp (g_game st))
      as [(Em & _)|(e & g' & Em & Hh & Hmv & Hc & _ & _)].
    + rewrite Em in *. cbn [negb fst snd].
      eapply Hfin; simpl; try done.
    + rewrite Em in *. cbn [negb fst snd].
      apply (Hfin g' e); try done.
      * rewrite Hmv. done.
      * intros m Hm. rewrite Hmv in Hm. by injection Hm as <-.
  - eapply Hfin; simpl; done.
Qed.




(** X25. One turn of the AI, from [start_ai_move] through the search of
    [_ai_worker] to [_apply_ai_move], adds exactly one entry of the player
    to move, whatever the clocks, the pool and the processor count do: a
    pass exactly when that player has no legal move, and otherwise a legal
    move that [make_move] accepts, so the branch for an illegal suggestion
    is not taken.  Afterwards the game-over flag tells whether the game is
    over, and the turn has gone to the opponent unless it is. *)
Theorem ai_turn_plays (clock : nat → Z) (cpu_count : nat)
    (pool_raises : nat → bool) (worker_clock : nat → nat → nat → Z)
    (st : gui) :
  wf_board (gboard (g_game st)) →
  game_over st = false → paused st = false →
  human_color st ≠ Some (current_player st) →
  let st' := ai_turn clock cpu_count pool_raises worker_clock st in
  let cp := current_player st in
  let b := gboard (g_game st) in
  ∃ e, history (g_game st') = history (g_game st) ++ [e] ∧
       e_color e = cp ∧
       (e_move e = None ↔ legal_moves b cp = []) ∧
       (e_move e = None → gboard (g_game st') = b) ∧
       (∀ m, e_move e = Some m →
             In m (legal_moves b cp) ∧
             make_move (Some m) cp (g_game st) = (true, g_game st')) ∧
       game_over st' = is_game_over (gboard (g_game st')) ∧
       (game_over st' = false → current_player st' = get_opponent cp).
Proof.
  intros Hb Eo Ep Hh. cbv zeta. unfold ai_turn, start_ai_move.
  rewrite Eo, Ep. cbn [orb negb].
  case_bool_decide as Eh; [by rewrite Eh in Hh|]. cbn [orb negb].
  case_bool_decide as El.
  - rewrite check_game_over_eq.
    cbn [g_game with_game with_player current_player human_color paused].
    unfold make_move. cbn [snd gboard history].
    eexists. split; [|split_and!].
    + destruct (is_game_over (gboard (g_game st))); reflexivity.
    + done.
    + done.
    + intros _. by destruct (is_game_over (gboard (g_game st))).
    + by intros m [=].
    + destruct (is_game_over (gboard (g_game st))) eqn:Eg; simpl;
        by rewrite ?Eg, ?Eo.
    + by destruct (is_game_over (gboard (g_game st))).
  - unfold _ai_worker.
    destruct (get_move_result clock cpu_count pool_raises worker_clock
                (current_player st) (gboard (g_game st)) new_ai Hb)
      as (r & s' & -> & Hr).
    destruct r as [m|]; [|done].
    destruct (_apply_ai_move_cases (Some m) st Eo Ep)
      as (e & Hhist & Hc & Hm & Hbd & Hmk & Hov & Hcur).
    destruct m as [r c]. apply in_legal_moves in Hr as Hv.
    assert (Hap : (make_move (Some (r, c)) (current_player st) (g_game st)).1 = true).
    { unfold make_move. by rewrite Hv. }
    rewrite Hap in Hm.
    exists e. split_and!; try done.
    + rewrite Hm. split; [done|]. intros Hn. by rewrite Hn in Hr.
    + intros m' Hm'. rewrite Hm in Hm'. injection Hm' as <-.
      split; [done|]. apply Hmk. done.
    + intros Hf. by rewrite Hcur, Hf.
Qed.

Lemma ai_turn_plays_witness :
  let st := {| g_game := init; human_color := Some WHITE;
               current_player := BLACK; game_over := false;
               paused := false |} in
  let st' := ai_turn (fun k => Z.of_nat k) 4 (fun _ => false)
               (fun _ _ k => Z.of_nat k) st in
  ∃ e, history (g_game st') = history (g_game st) ++ [e] ∧
       e_color e = BLACK ∧
       (e_move e = None ↔ legal_moves (gboard init) BLACK = []) ∧
       (e_move e = None → gboard (g_game st') = gboard init) ∧
       (∀ m, e_move e = Some m →
             In m (legal_moves (gboard init) BLACK) ∧
             make_move (Some m) BLACK (g_game st) = (true, g_game st')) ∧
       game_over st' = is_game_over (gboard (g_game st')) ∧
       (game_over st' = false → current_player st' = get_opponent BLACK).
Proof.
  apply (ai_turn_plays (fun k => Z.of_nat k) 4 (fun _ => false)
           (fun _ _ k => Z.of_nat k)
           {| g_game := init; human_color := Some WHITE;
              current_player := BLACK; game_over := false; paused := false |}).
  - exact wf_init.
  - reflexivity.
  - reflexivity.
  - simpl. discriminate.
Defined.

